(** * MangaLens extension: image acquisition and sequential OCR pipeline

    A shallow embedding of the extension's scripts:

    - [JsString]   the JavaScript string operations the scripts rely on
                   ([includes], [replace] with a string or with one of the
                   three regular expressions of the Pixiv discovery);
    - [Background] the service worker (background.js): the [FETCH_IMAGE] and
                   [FETCH_IMAGE_OFFSCREEN] message handlers;
    - [Offscreen]  the offscreen document (offscreen.js): [handleImageData];
    - [Dom]        the image elements the scripts read and write;
    - [Overlay]    the click-to-toggle part of [replaceTextInImage];
    - [Content]    the content script (chome-extention/content.js): discovery,
                   the queue, the drain loop and per-item processing, as a
                   labelled transition system whose steps are the
                   run-to-completion turns of the JavaScript event loop;
    - [Trace]      readers of the content script's event log and the
                   invariants stated over it;
    - [Legacy]     per-item processing of the older content script
                   (src/content.js);
    - [Examples]   concrete pages, networks and runs;
    - [Layout]     [wrapText], the line breaking of [replaceTextInImage];
    - [Setup]      [setupOffscreenDocument] of background.js, its calls
                   interleaved at their [await]s;
    - [Ledger], [Scan]  invariants of the content script's sets and queue,
                   and of its initial scan;
    - [Srcset]     [srcset] attributes as the Pixiv discovery reads them;
    - [FirstScript] [extractImageData] of the older content script;
    - [Clicks]     what click-to-toggle keeps;
    - [Settings]   popup.js, [chrome.storage.sync], the [onChanged] listener
                   and [sendToOCRServer];
    - [Replay]     the network answering a list of requests in order;
    - [PixivPath]  the background script and the offscreen document put
                   together;
    - [Samples]    more concrete cases.

    Asynchronous functions are cut at their [await]s: what runs between two
    suspension points is one atomic step. *)

From Stdlib Require Import NArith Ascii String DecimalString.
From stdpp Require Import base gmap sets list strings.

Local Open Scope N_scope.

(* ================================================================== *)
(** * JavaScript strings *)
(* ================================================================== *)

Module JsString.

(** [drop_prefix p s] is [Some rest] when [s = p +:+ rest]. *)
Fixpoint drop_prefix (p s : string) : option string :=
  match p, s with
  | EmptyString, _ => Some s
  | String a p', String b s' =>
      if Ascii.eqb a b then drop_prefix p' s' else None
  | String _ _, EmptyString => None
  end.

(** [s.includes(p)] *)
Fixpoint includes (s p : string) : bool :=
  match drop_prefix p s with
  | Some _ => true
  | None =>
      match s with
      | EmptyString => false
      | String _ s' => includes s' p
      end
  end.

(** [s.replace(pat, rep)] with a string pattern: only the first
    occurrence is replaced.  None of the replacement strings used by the
    scripts contains a dollar sign, so no replacement pattern is
    interpreted. *)
Fixpoint replace (pat rep s : string) : string :=
  match drop_prefix pat s with
  | Some rest => rep +:+ rest
  | None =>
      match s with
      | EmptyString => EmptyString
      | String c s' => String c (replace pat rep s')
      end
  end.

(** [s.replace(re, rep)] for a regular expression without the [g] flag:
    the leftmost match is replaced.  [m] is the expression anchored at the
    head of its argument; it returns what follows the match. *)
Fixpoint replace_re (m : string -> option string) (rep s : string) : string :=
  match m s with
  | Some rest => rep +:+ rest
  | None =>
      match s with
      | EmptyString => EmptyString
      | String c s' => String c (replace_re m rep s')
      end
  end.

(** [\d] is an ASCII digit in JavaScript. *)
Definition is_digit (c : ascii) : bool :=
  let n := N_of_ascii c in (48 <=? n) && (n <=? 57).

Fixpoint skip_digits (s : string) : string :=
  match s with
  | String c s' => if is_digit c then skip_digits s' else s
  | EmptyString => s
  end.

(** [\d+]: greedy.  In each of the three expressions below the character
    that must follow the digits is not a digit (or the next item absorbs
    digits as well), so giving digits back never turns a failure into a
    match: taking the maximal run is the whole of the search. *)
Definition digits1 (s : string) : option string :=
  match s with
  | String c s' => if is_digit c then Some (skip_digits s') else None
  | EmptyString => None
  end.

Definition is_slash (c : ascii) : bool := Ascii.eqb c "/"%char.

(** [[^\/]*]: greedy, up to the next slash. *)
Fixpoint skip_non_slash (s : string) : string :=
  match s with
  | String c s' => if is_slash c then s else skip_non_slash s'
  | EmptyString => s
  end.

(** [/_square\d+\./] and [/_custom\d+\./], anchored. *)
Definition match_variant (name : string) (s : string) : option string :=
  r ← drop_prefix name s; r ← digits1 r; drop_prefix "." r.

Definition re_square : string -> option string := match_variant "_square".
Definition re_custom : string -> option string := match_variant "_custom".

(** [/\/c\/\d+x\d+[^\/]*\//], anchored. *)
Definition re_resize (s : string) : option string :=
  r ← drop_prefix "/c/" s; r ← digits1 r; r ← drop_prefix "x" r;
  r ← digits1 r; drop_prefix "/" (skip_non_slash r).

(** JavaScript truthiness of a string and of a possibly-null string. *)
Definition truthy (s : string) : bool :=
  match s with EmptyString => false | _ => true end.

Definition truthy_opt (s : option string) : bool :=
  match s with Some s => truthy s | None => false end.

(** [a || b] on strings. *)
Definition or_else (a b : string) : string := if truthy a then a else b.

(** [s.split(c)] for a one-character separator. *)
Fixpoint split (sep : ascii) (s : string) : list string :=
  match s with
  | EmptyString => [EmptyString]
  | String c s' =>
      if Ascii.eqb c sep then EmptyString :: split sep s'
      else match split sep s' with
           | h :: t => String c h :: t
           | [] => [String c EmptyString]
           end
  end.

(** ** trim

    A JavaScript string is represented by its UTF-8 encoding, one [ascii]
    per byte.  Searching for, splitting at and replacing ASCII text, which is
    all the scripts do, is the same on the bytes as on the characters.
    The lengths taken are those of data URLs, which are ASCII.
    [trim] is the one operation that looks at characters beyond ASCII: it
    removes the white space and the line terminators of ECMAScript, which
    are TAB, LF, VT, FF, CR and the space; U+00A0; U+1680; U+2000 to U+200A;
    U+2028, U+2029 and U+202F; U+205F; U+3000; and U+FEFF. *)

(** The one-byte ones. *)
Definition is_space (c : ascii) : bool :=
  let n := N_of_ascii c in (n =? 32) || ((9 <=? n) && (n <=? 13)).

(** U+00A0 is [C2 A0]. *)
Definition is_space2 (a b : ascii) : bool :=
  (N_of_ascii a =? 194) && (N_of_ascii b =? 160).

(** The three-byte ones: U+1680 is [E1 9A 80]; U+2000 to U+200A are
    [E2 80 80] to [E2 80 8A]; U+2028, U+2029 and U+202F are [E2 80 A8],
    [E2 80 A9] and [E2 80 AF]; U+205F is [E2 81 9F]; U+3000 is [E3 80 80];
    U+FEFF is [EF BB BF]. *)
Definition is_space3 (a b c : ascii) : bool :=
  let x := N_of_ascii a in
  let y := N_of_ascii b in
  let z := N_of_ascii c in
  if x =? 225 then (y =? 154) && (z =? 128)
  else if x =? 226 then
    if y =? 128 then
      ((128 <=? z) && (z <=? 138)) || (z =? 168) || (z =? 169) || (z =? 175)
    else (y =? 129) && (z =? 159)
  else if x =? 227 then (y =? 128) && (z =? 128)
  else if x =? 239 then (y =? 187) && (z =? 191)
  else false.

(** [s.trimStart()] *)
Fixpoint trim_start (s : string) : string :=
  match s with
  | String a s1 =>
      if is_space a then trim_start s1
      else
        match s1 with
        | String b s2 =>
            if is_space2 a b then trim_start s2
            else
              match s2 with
              | String c s3 => if is_space3 a b c then trim_start s3 else s
              | EmptyString => s
              end
        | EmptyString => s
        end
  | EmptyString => s
  end.

(** [s.trimEnd()]: [s] is cut where nothing but white space follows. *)
Fixpoint trim_end (s : string) : string :=
  match s with
  | EmptyString => EmptyString
  | String c s' =>
      if truthy (trim_start s) then String c (trim_end s') else EmptyString
  end.

Definition trim (s : string) : string := trim_end (trim_start s).

(** ** Shapes of strings, for stating what the replacements do *)



(** No match of [m] in [pre +:+ s] begins inside [pre]. *)
Fixpoint unmatched (m : string -> option string) (pre s : string) : bool :=
  match pre with
  | EmptyString => true
  | String c pre' =>
      match m (pre +:+ s) with
      | Some _ => false
      | None => unmatched m pre' s
      end
  end.

End JsString.

(* ================================================================== *)
(** * background.js: privileged fetches *)
(* ================================================================== *)

Module Background.
Import JsString.

Inductive Credentials := CredOmit | CredSameOrigin | CredInclude.

(** The [RequestInit] passed to [fetch], with the target URL. *)
Record Request := {
  req_url : string;
  req_method : string;
  req_mode : string;
  req_credentials : Credentials;
  req_cache : string;
  req_headers : list (string * string)
}.

(** [response.blob()] either gives the bytes or rejects. *)
Inductive Body := BodyBytes (bytes : string) | BodyError (msg : string).

Inductive FetchOutcome :=
| FetchThrows (msg : string)                       (* fetch rejects *)
| FetchResponse (ok : bool) (status : N) (body : Body).

Definition blob_size (bytes : string) : N := N.of_nat (String.length bytes).

(** What the sender of a message gets from a handler: the argument of
    [sendResponse], or nothing when the handler never calls it. *)
Inductive Reply :=
| ReplyOk (dataUrl : string) (size : N)
| ReplyFail (error : string)
| NoReply.

Record Message := { msg_url : string; msg_referer : string }.

(** Every fetch of background.js is issued with this [RequestInit]. *)
Definition image_request (url : string) : Request :=
  {| req_url := url; req_method := "GET"; req_mode := "cors";
     req_credentials := CredOmit; req_cache := "no-cache";
     req_headers := [] |}.

Definition jpg_url (url : string) : string :=
  replace ".webp" ".jpg" (replace "_webp/" "/" url).

Definition png_url (url : string) : string :=
  replace ".webp" ".png" (replace "_webp/" "/" url).

(** The three URLs of the fallback chain, in the order of the source. *)
Definition chain (url : string) : list Request :=
  [image_request url; image_request (jpg_url url); image_request (png_url url)].

(** A fetch that leaves [imageBlob] at [null]. *)
Definition no_blob (o : FetchOutcome) : Prop :=
  match o with FetchResponse true _ (BodyBytes _) => False | _ => True end.

Definition all_failed : string := "Failed to fetch image from all URLs".

Definition http_error (status : N) : string :=
  "HTTP " +:+ NilEmpty.string_of_uint (N.to_uint status).

Section Handlers.
Context {World : Type}.

(** The network: answers a request and moves on (nothing is cached, so
    the same URL may be answered differently the next time). *)
Variable fetch : Request -> World -> FetchOutcome * World.
(** [FileReader.readAsDataURL]: [None] is [onerror]. *)
Variable readAsDataURL : string -> option string.
(** What [reader.onloadend] does with the data URL:
    [await setupOffscreenDocument()], then the [PROCESS_IMAGE_DATA] round
    trip to the offscreen document, whose answer goes to [sendResponse].
    The callback has no [catch]: when the setup or the round trip rejects,
    [sendResponse] is never called, which is [NoReply]. *)
Variable relay : string -> World -> Reply * World.

(** The handler's view of the world, with the requests it has issued,
    oldest first. *)
Record Net := { world : World; sent : list Request }.

Definition M (A : Type) : Type := Net -> A * Net.

#[local] Instance M_ret : MRet M := fun _ a n => (a, n).
#[local] Instance M_bind : MBind M :=
  fun _ _ k m n => let '(a, n') := m n in k a n'.

Definition do_fetch (r : Request) : M FetchOutcome :=
  fun n =>
    let '(o, w) := fetch r (world n) in
    (o, {| world := w; sent := sent n ++ [r] |}).

Definition do_relay (dataUrl : string) : M Reply :=
  fun n =>
    let '(r, w) := relay dataUrl (world n) in
    (r, {| world := w; sent := sent n |}).

(** One [try { fetch; if (response.ok) imageBlob = await response.blob() }
    catch {}] block: the blob, or [None] when [imageBlob] stays [null]. *)
Definition attempt (url : string) : M (option string) :=
  o ← do_fetch (image_request url);
  mret match o with
       | FetchResponse true _ (BodyBytes bytes) => Some bytes
       | _ => None
       end.

(** [if (!imageBlob && message.url.includes('_webp/'))]: a [Blob] object
    is truthy whatever its size. *)
Definition retry (url alt : string) (imageBlob : option string)
  : M (option string) :=
  if bool_decide (imageBlob = None) && includes url "_webp/"
  then attempt alt
  else mret imageBlob.

(** What follows the three attempts: [if (!imageBlob || imageBlob.size === 0)]
    the failure, else the data URL is read and handed to the offscreen
    document, whose answer is passed on, if there is one. *)
Definition respond (imageBlob : option string) : M Reply :=
  match imageBlob with
  | None => mret (ReplyFail all_failed)
  | Some bytes =>
      if blob_size bytes =? 0 then mret (ReplyFail all_failed)
      else match readAsDataURL bytes with
           | None => mret (ReplyFail "FileReader error")
           | Some dataUrl => do_relay dataUrl
           end
  end.

(** The [FETCH_IMAGE_OFFSCREEN] handler. *)
Definition fetch_image_offscreen (message : Message) : M Reply :=
  let url := msg_url message in
  imageBlob ← attempt url;
  imageBlob ← retry url (jpg_url url) imageBlob;
  imageBlob ← retry url (png_url url) imageBlob;
  respond imageBlob.

(** The [FETCH_IMAGE] handler. *)
Definition fetch_image (message : Message) : M Reply :=
  o ← do_fetch (image_request (msg_url message));
  mret match o with
       | FetchThrows msg => ReplyFail msg
       | FetchResponse false status _ => ReplyFail (http_error status)
       | FetchResponse true _ (BodyError msg) => ReplyFail msg
       | FetchResponse true _ (BodyBytes bytes) =>
           match readAsDataURL bytes with
           | Some dataUrl => ReplyOk dataUrl (blob_size bytes)
           | None => ReplyFail "FileReader error"
           end
       end.

(** Run a handler from a fresh log. *)
Definition handle {A} (m : M A) (w : World) : A * list Request :=
  let '(a, n) := m {| world := w; sent := [] |} in (a, sent n).

End Handlers.

(** ** Request headers on the wire *)

Definition pixiv_referrer : string := "https://www.pixiv.net/".

Definition set_header (name value : string) (r : Request) : Request :=
  {| req_url := req_url r; req_method := req_method r;
     req_mode := req_mode r; req_credentials := req_credentials r;
     req_cache := req_cache r;
     req_headers :=
       (name, value)
         :: filter (fun h => negb (String.eqb (fst h) name)) (req_headers r) |}.

Definition header (name : string) (r : Request) : option string :=
  snd <$> List.find (fun h => String.eqb (fst h) name) (req_headers r).

(** Modelled from the spec: rules.json, the declarativeNetRequest table the
    handlers rely on for the [Referer] header (background.js:
    "declarativeNetRequest automatically adds Referer header"); the file is
    not part of the sources.  The spec asks for a fixed referrer on
    requests to the Pixiv image host; the host test is the one the scripts
    use everywhere, [url.includes('pximg.net')]. *)
Definition apply_rules (r : Request) : Request :=
  if includes (req_url r) "pximg.net"
  then set_header "Referer" pixiv_referrer r
  else r.

(** The headers the first background script (kept in the repository next to
    offscreen.js) computed itself, before the rule table took over. *)
Definition first_generation_referer (message : Message) : string :=
  if includes (msg_url message) "pximg.net" then pixiv_referrer
  else or_else (msg_referer message) (msg_url message).

End Background.


(* ================================================================== *)
(** * offscreen.js: the relay that decodes and re-encodes *)
(* ================================================================== *)

Module Offscreen.
Import JsString.

(** [setTimeout(..., 10000)]: milliseconds, ten seconds. *)
Definition decode_timeout : N := 10000.

Definition timeout_error : string := "Image load timeout".
Definition load_error : string := "Failed to load image".

(** A promise settles once: [resolve] and [reject] on a settled promise do
    nothing. *)
Inductive Promise (A : Type) :=
| Pending
| Fulfilled (v : A)
| Rejected (msg : string).
Arguments Pending {A}.
Arguments Fulfilled {A} v.
Arguments Rejected {A} msg.

Definition resolve {A} (v : A) (p : Promise A) : Promise A :=
  match p with Pending => Fulfilled v | _ => p end.

Definition reject {A} (msg : string) (p : Promise A) : Promise A :=
  match p with Pending => Rejected msg | _ => p end.

(** What the image element reports once decoded, and what drawing it and
    reading the canvas back gives ([inr]: the canvas call throws). *)
Record Decoded := {
  dec_naturalWidth : N;
  dec_naturalHeight : N;
  dec_width : N;
  dec_height : N;
  dec_png : string + string
}.

Inductive ImgEvent := OnLoad (d : Decoded) | OnError.

(** The state [handleImageData] leaves behind while its promise is open:
    the promise, whether the timer is still armed, and the size of the
    document's one canvas. *)
Record Decode := {
  promise : Promise Background.Reply;
  armed : bool;
  canvas_width : N;
  canvas_height : N
}.

Definition or_dim (a b : N) : N := if a =? 0 then b else a.

(** [new Promise(...)]: the timer is set, the callbacks are installed. *)
Definition start (cw ch : N) : Decode :=
  {| promise := Pending; armed := true; canvas_width := cw; canvas_height := ch |}.

(** The timer callback; it runs only if [clearTimeout] has not been called. *)
Definition on_timeout (st : Decode) : Decode :=
  if armed st
  then {| promise := reject timeout_error (promise st); armed := false;
          canvas_width := canvas_width st; canvas_height := canvas_height st |}
  else st.

(** [img.onload] *)
Definition on_load (d : Decoded) (st : Decode) : Decode :=
  {| promise :=
       match dec_png d with
       | inl png =>
           resolve (Background.ReplyOk png (N.of_nat (String.length png)))
                   (promise st)
       | inr err => reject err (promise st)
       end;
     armed := false;
     canvas_width := or_dim (dec_naturalWidth d) (dec_width d);
     canvas_height := or_dim (dec_naturalHeight d) (dec_height d) |}.

(** [img.onerror] *)
Definition on_error (st : Decode) : Decode :=
  {| promise := reject load_error (promise st); armed := false;
     canvas_width := canvas_width st; canvas_height := canvas_height st |}.

Definition on_event (e : ImgEvent) (st : Decode) : Decode :=
  match e with OnLoad d => on_load d st | OnError => on_error st end.

(** Whether the timer is run before an image event stamped [t].  At exactly
    [decode_timeout] the order of the two tasks is the browser's choice,
    [timer_first]. *)
Definition due (timer_first : bool) (t : N) : bool :=
  (decode_timeout <? t) || (timer_first && (t =? decode_timeout)).

(** The image events of one request, with the time (in ms after the request)
    at which each is delivered, in order of delivery.  When they are
    exhausted time still passes, so an armed timer fires. *)
Fixpoint deliver (timer_first : bool) (events : list (N * ImgEvent))
  (st : Decode) : Decode :=
  match events with
  | [] => on_timeout st
  | (t, e) :: events' =>
      let st := if due timer_first t then on_timeout st else st in
      deliver timer_first events' (on_event e st)
  end.

(** [handleImageData]: the awaited promise, with the [catch] that turns a
    rejection into a failure reply.  [None] would be a promise left open. *)
Definition reply_of (p : Promise Background.Reply) : option Background.Reply :=
  match p with
  | Pending => None
  | Fulfilled r => Some r
  | Rejected msg => Some (Background.ReplyFail msg)
  end.

Definition handleImageData (timer_first : bool) (cw ch : N)
  (events : list (N * ImgEvent)) : option Background.Reply :=
  reply_of (promise (deliver timer_first events (start cw ch))).

(** The events all come after the timeout has run out. *)
Definition late (events : list (N * ImgEvent)) : Prop :=
  Forall (fun te => decode_timeout < fst te) events.

End Offscreen.


(* ================================================================== *)
(** * The image elements of the page *)
(* ================================================================== *)

Module Dom.
Import JsString.

(** What [replaceTextInImage] keeps on the element for click-to-toggle:
    three [dataset] entries, two presentation properties and the click
    listeners registered so far (they are all the same function). *)
Record Toggle := {
  ds_original : option string;
  ds_translated : option string;
  ds_showing : option string;
  cursor : string;
  title : string;
  click_listeners : nat
}.

(** An [HTMLImageElement], as far as the scripts read or write it. *)
Record Img := {
  src : string;                       (* [img.src], empty when there is none *)
  currentSrc : string;
  data_src : option string;           (* [getAttribute('data-src')] *)
  srcset : option string;             (* [getAttribute('srcset')] *)
  complete : bool;
  naturalWidth : N;
  naturalHeight : N;
  width : N;
  height : N;
  originalPixivSrc : option string;   (* [dataset.originalPixivSrc] *)
  ocr_processing : bool;              (* class [ocr-processing] *)
  toggle : Toggle
}.

Definition set_src (v : string) (i : Img) : Img :=
  {| src := v; currentSrc := currentSrc i; data_src := data_src i;
     srcset := srcset i; complete := complete i;
     naturalWidth := naturalWidth i; naturalHeight := naturalHeight i;
     width := width i; height := height i;
     originalPixivSrc := originalPixivSrc i;
     ocr_processing := ocr_processing i; toggle := toggle i |}.

Definition set_originalPixivSrc (v : option string) (i : Img) : Img :=
  {| src := src i; currentSrc := currentSrc i; data_src := data_src i;
     srcset := srcset i; complete := complete i;
     naturalWidth := naturalWidth i; naturalHeight := naturalHeight i;
     width := width i; height := height i;
     originalPixivSrc := v;
     ocr_processing := ocr_processing i; toggle := toggle i |}.

Definition set_ocr_processing (v : bool) (i : Img) : Img :=
  {| src := src i; currentSrc := currentSrc i; data_src := data_src i;
     srcset := srcset i; complete := complete i;
     naturalWidth := naturalWidth i; naturalHeight := naturalHeight i;
     width := width i; height := height i;
     originalPixivSrc := originalPixivSrc i;
     ocr_processing := v; toggle := toggle i |}.

Definition set_toggle (v : Toggle) (i : Img) : Img :=
  {| src := src i; currentSrc := currentSrc i; data_src := data_src i;
     srcset := srcset i; complete := complete i;
     naturalWidth := naturalWidth i; naturalHeight := naturalHeight i;
     width := width i; height := height i;
     originalPixivSrc := originalPixivSrc i;
     ocr_processing := ocr_processing i; toggle := v |}.

Definition no_toggle : Toggle :=
  {| ds_original := None; ds_translated := None; ds_showing := None;
     cursor := ""; title := ""; click_listeners := 0 |}.

(** An element the page has said nothing about. *)
Definition blank : Img :=
  {| src := ""; currentSrc := ""; data_src := None; srcset := None;
     complete := false; naturalWidth := 0; naturalHeight := 0;
     width := 0; height := 0; originalPixivSrc := None;
     ocr_processing := false; toggle := no_toggle |}.

(** [img.naturalWidth || img.width] *)
Definition or_dim (a b : N) : N := if a =? 0 then b else a.

Definition shown_width (i : Img) : N := or_dim (naturalWidth i) (width i).
Definition shown_height (i : Img) : N := or_dim (naturalHeight i) (height i).

End Dom.

(* ================================================================== *)
(** * replaceTextInImage: click-to-toggle *)
(* ================================================================== *)

Module Overlay.
Import JsString Dom.

(** The image built from the extracted data either loads, and the canvas
    with the text drawn on it is encoded as [newImageData], or fails to. *)
Inductive Decode := Loaded (newImageData : string) | LoadError.

(** A [dataset] entry read where a string is expected. *)
Definition js_string (v : option string) : string :=
  match v with Some s => s | None => "undefined" end.

(** The click listener.  [src] is what [el.src] reads.  After
    [this.src = v] that is [v] when [v] is an absolute URL, as a data URL is
    and as is what [el.src] gave when the original was recorded.  The empty
    string is none: an element whose recorded original is empty reads back
    the URL of the document after the assignment, which an element does not
    carry here; what is proved about clicks is about elements with an
    original that is not empty. *)
Definition on_click (el : Img) : Img :=
  let t := toggle el in
  if bool_decide (ds_showing t = Some "translated") then
    set_src (js_string (ds_original t))
      (set_toggle {| ds_original := ds_original t;
                     ds_translated := ds_translated t;
                     ds_showing := Some "original";
                     cursor := cursor t; title := title t;
                     click_listeners := click_listeners t |} el)
  else
    set_src (js_string (ds_translated t))
      (set_toggle {| ds_original := ds_original t;
                     ds_translated := ds_translated t;
                     ds_showing := Some "translated";
                     cursor := cursor t; title := title t;
                     click_listeners := click_listeners t |} el).

(** A click runs every registered listener, in order of registration. *)
Definition click (el : Img) : Img :=
  Nat.iter (click_listeners (toggle el)) on_click el.

(** [if (!element.dataset.original) { ... }] *)
Definition remember_original (el : Img) : Img :=
  let t := toggle el in
  if negb (truthy_opt (ds_original t)) then
    set_toggle {| ds_original := Some (src el);
                  ds_translated := ds_translated t;
                  ds_showing := ds_showing t;
                  cursor := "pointer"; title := "Click to toggle";
                  click_listeners := S (click_listeners t) |} el
  else el.

Definition show_translated (newImageData : string) (el : Img) : Img :=
  let t := toggle el in
  set_src newImageData
    (set_toggle {| ds_original := ds_original t;
                   ds_translated := Some newImageData;
                   ds_showing := Some "translated";
                   cursor := cursor t; title := title t;
                   click_listeners := click_listeners t |} el).

(** [replaceTextInImage(element, ...)], as far as [element] goes. *)
Definition replaceTextInImage (isPageChanging : bool) (d : Decode) (el : Img)
  : Img :=
  if isPageChanging then el
  else match d with
       | LoadError => el
       | Loaded newImageData =>
           show_translated newImageData (remember_original el)
       end.

(** What happens to an element over time, as far as the toggle goes. *)
Inductive Action := Pass (newImageData : string) | Click.

Definition act (a : Action) (el : Img) : Img :=
  match a with
  | Pass d => replaceTextInImage false (Loaded d) el
  | Click => click el
  end.

Definition acts (l : list Action) (el : Img) : Img :=
  fold_left (fun el a => act a el) l el.

End Overlay.


(* ================================================================== *)
(** * content.js (chome-extention): discovery, queue, drain *)
(* ================================================================== *)

Module Content.
Import JsString Dom.

(** ** Discovery: which source, which canonical URI *)

Definition master_suffix : string := "_master1200.".

(** [src.includes('/c/') ? src.replace(/\/c\/\d+x\d+[^\/]*\//, '/') : src] *)
Definition strip_resize (src : string) : string :=
  if includes src "/c/" then replace_re re_resize "/" src else src.

Definition upgrade_square (s : string) : string :=
  replace_re re_square master_suffix s.

Definition upgrade_custom (s : string) : string :=
  replace_re re_custom master_suffix s.

(** [originalSrc] of [handlePixivImages] and [handleNewImage]. *)
Definition original_of (src : string) : string :=
  upgrade_custom (upgrade_square (strip_resize src)).

(** [srcset.split(',').map(s => s.trim().split(' ')[0])] *)
Definition srcset_sources (srcset : string) : list string :=
  map (fun s => match split " " (trim s) with h :: _ => h | [] => "" end)
      (split "," srcset).

(** [img.currentSrc || img.src || img.getAttribute('data-src')] *)
Definition first_source (img : Img) : option string :=
  if truthy (currentSrc img) then Some (currentSrc img)
  else if truthy (src img) then Some (src img)
  else data_src img.

(** The source the Pixiv protocol settles on: the last Pixiv candidate of
    [srcset] if there is one; [None] when the image is skipped. *)
Definition pixiv_source (img : Img) : option string :=
  let src :=
    match srcset img with
    | Some set =>
        if truthy set then
          match last (filter (fun s => includes s "pximg.net" = true)
                             (srcset_sources set)) with
          | Some s => Some s
          | None => first_source img
          end
        else first_source img
    | None => first_source img
    end in
  match src with
  | Some s => if truthy s && includes s "pximg.net" then Some s else None
  | None => None
  end.

(** ** Acquisition *)

Inductive Strategy := ViaOffscreen | ViaDirectDraw | ViaBackgroundFetch.

(** What the outside answers to one [extractImageData]. *)
Record AcquireEnv := {
  (* [FETCH_IMAGE_OFFSCREEN]; [None]: [sendMessage] throws or answers nothing *)
  offscreen_reply : option Background.Reply;
  (* [drawImage(img)] then [toDataURL]; [None]: it throws (tainted canvas) *)
  draw : option string;
  (* [FETCH_IMAGE] *)
  background_reply : option Background.Reply;
  (* decoding the fetched data and drawing it; [None]: timeout, error, throw *)
  redraw : option string
}.

(** [response && response.success && response.dataUrl] *)
Definition usable (r : option Background.Reply) : option string :=
  match r with
  | Some (Background.ReplyOk dataUrl _) =>
      if truthy dataUrl then Some dataUrl else None
  | _ => None
  end.

(** [img.dataset.originalPixivSrc || img.currentSrc || img.src] *)
Definition acquire_source (img : Img) : string :=
  if truthy_opt (originalPixivSrc img)
  then match originalPixivSrc img with Some s => s | None => "" end
  else or_else (currentSrc img) (src img).

(** [extractImageData]: the strategies tried, in order, and the data URL.
    [changing] is [isPageChanging] at the call; the body runs without
    suspension up to its first message, so the second test of the flag reads
    the same value. *)
Definition extractImageData (changing : bool) (img : Img) (env : AcquireEnv)
  : list Strategy * option string :=
  if changing then ([], None)
  else
    let src := acquire_source img in
    if negb (truthy src) || String.eqb src "about:blank" then ([], None)
    else if (shown_width img <? 200) || (shown_height img <? 200)
    then ([], None)
    else if includes src "pximg.net" then
      match usable (offscreen_reply env) with
      | Some dataUrl => ([ViaOffscreen], Some dataUrl)
      | None => ([ViaOffscreen; ViaDirectDraw], draw env)
      end
    else
      match draw env with
      | Some dataUrl => ([ViaDirectDraw], Some dataUrl)
      | None =>
          ([ViaDirectDraw; ViaBackgroundFetch],
           match usable (background_reply env) with
           | Some _ =>
               match redraw env with
               | Some result => if truthy result then Some result else None
               | None => None
               end
           | None => None
           end)
      end.

(** ** The OCR server's answer *)

Record TextBlock := {
  tb_text : string;
  tb_bbox : N * N * N * N;
  tb_type : string;
  tb_style : string
}.

Inductive OcrResult :=
| OcrNull                        (* [sendToOCRServer] gave [null] *)
| OcrNoBlocks                    (* a value whose [text_blocks] is falsy *)
| OcrBlocks (bs : list TextBlock)
| OcrMalformed.                  (* [text_blocks] truthy but not an array *)

(** ** The script's state *)

(** A [handleNewImage] (or the scan) suspended until the image has loaded
    or its timer has run out. *)
Inductive Wait :=
| WaitPixiv (e : nat) (originalSrc : string)
| WaitGeneric (e : nat).

(** Where a [processQueue] loop is suspended. *)
Inductive Stage :=
| AwaitExtract (e : nat) (changing : bool) (img : Img)
| AwaitOcr (e : nat) (imageData : string)
| AwaitOverlay (e : nat)
| AwaitItem (e : nat) (threw : bool).   (* [processImage(e)] has settled *)

Inductive Phase :=
| Scanning (todo : list nat)
| ScanWait (w : Wait) (todo : list nat)
| Running.

Inductive Event :=
| EvCall (e : nat)          (* the watcher calls [handleNewImage(e)] *)
| EvPush (e : nat)          (* [processingQueue.push(e)] *)
| EvShift (e : nat)         (* [processingQueue.shift()] gave [e] *)
| EvTrip                    (* [isPageChanging = true; processingQueue = []] *)
| EvAcquire (e : nat)       (* [extractImageData(e)] begins ... *)
| EvAcquired (e : nat)      (* ... and ends *)
| EvOcr (e : nat)           (* the request to the OCR server leaves ... *)
| EvOcrDone (e : nat)       (* ... and is answered *)
| EvOverlay (e : nat)       (* [replaceTextInImage(e)] begins ... *)
| EvOverlayDone (e : nat)   (* ... and ends *)
| EvReturn (e : nat).       (* [processImage(e)] returns or throws *)

Record State := {
  dom : gmap nat Img;               (* the elements, by handle *)
  href : string;                    (* [window.location.href] *)
  processedImages : gset nat;
  failedImages : gset nat;
  observedImages : gset nat;
  processingQueue : list nat;
  isProcessing : bool;
  isPageChanging : bool;
  currentUrl : string;
  imageObserver : bool;             (* the variable is not [null] *)
  observing : bool;                 (* the watcher is connected *)
  phase : Phase;
  loads : list Wait;                (* suspended [handleNewImage] calls *)
  drains : list Stage;              (* suspended [processQueue] loops *)
  trace : list Event                (* newest first *)
}.

Definition set_dom (v : gmap nat Img) (s : State) : State :=
  {| dom := v; href := href s; processedImages := processedImages s;
     failedImages := failedImages s; observedImages := observedImages s;
     processingQueue := processingQueue s; isProcessing := isProcessing s;
     isPageChanging := isPageChanging s; currentUrl := currentUrl s;
     imageObserver := imageObserver s; observing := observing s;
     phase := phase s; loads := loads s; drains := drains s;
     trace := trace s |}.

Definition set_href (v : string) (s : State) : State :=
  {| dom := dom s; href := v; processedImages := processedImages s;
     failedImages := failedImages s; observedImages := observedImages s;
     processingQueue := processingQueue s; isProcessing := isProcessing s;
     isPageChanging := isPageChanging s; currentUrl := currentUrl s;
     imageObserver := imageObserver s; observing := observing s;
     phase := phase s; loads := loads s; drains := drains s;
     trace := trace s |}.

Definition set_processedImages (v : gset nat) (s : State) : State :=
  {| dom := dom s; href := href s; processedImages := v;
     failedImages := failedImages s; observedImages := observedImages s;
     processingQueue := processingQueue s; isProcessing := isProcessing s;
     isPageChanging := isPageChanging s; currentUrl := currentUrl s;
     imageObserver := imageObserver s; observing := observing s;
     phase := phase s; loads := loads s; drains := drains s;
     trace := trace s |}.

Definition set_failedImages (v : gset nat) (s : State) : State :=
  {| dom := dom s; href := href s; processedImages := processedImages s;
     failedImages := v; observedImages := observedImages s;
     processingQueue := processingQueue s; isProcessing := isProcessing s;
     isPageChanging := isPageChanging s; currentUrl := currentUrl s;
     imageObserver := imageObserver s; observing := observing s;
     phase := phase s; loads := loads s; drains := drains s;
     trace := trace s |}.

Definition set_observedImages (v : gset nat) (s : State) : State :=
  {| dom := dom s; href := href s; processedImages := processedImages s;
     failedImages := failedImages s; observedImages := v;
     processingQueue := processingQueue s; isProcessing := isProcessing s;
     isPageChanging := isPageChanging s; currentUrl := currentUrl s;
     imageObserver := imageObserver s; observing := observing s;
     phase := phase s; loads := loads s; drains := drains s;
     trace := trace s |}.

Definition set_processingQueue (v : list nat) (s : State) : State :=
  {| dom := dom s; href := href s; processedImages := processedImages s;
     failedImages := failedImages s; observedImages := observedImages s;
     processingQueue := v; isProcessing := isProcessing s;
     isPageChanging := isPageChanging s; currentUrl := currentUrl s;
     imageObserver := imageObserver s; observing := observing s;
     phase := phase s; loads := loads s; drains := drains s;
     trace := trace s |}.

Definition set_isProcessing (v : bool) (s : State) : State :=
  {| dom := dom s; href := href s; processedImages := processedImages s;
     failedImages := failedImages s; observedImages := observedImages s;
     processingQueue := processingQueue s; isProcessing := v;
     isPageChanging := isPageChanging s; currentUrl := currentUrl s;
     imageObserver := imageObserver s; observing := observing s;
     phase := phase s; loads := loads s; drains := drains s;
     trace := trace s |}.

Definition set_isPageChanging (v : bool) (s : State) : State :=
  {| dom := dom s; href := href s; processedImages := processedImages s;
     failedImages := failedImages s; observedImages := observedImages s;
     processingQueue := processingQueue s; isProcessing := isProcessing s;
     isPageChanging := v; currentUrl := currentUrl s;
     imageObserver := imageObserver s; observing := observing s;
     phase := phase s; loads := loads s; drains := drains s;
     trace := trace s |}.

Definition set_currentUrl (v : string) (s : State) : State :=
  {| dom := dom s; href := href s; processedImages := processedImages s;
     failedImages := failedImages s; observedImages := observedImages s;
     processingQueue := processingQueue s; isProcessing := isProcessing s;
     isPageChanging := isPageChanging s; currentUrl := v;
     imageObserver := imageObserver s; observing := observing s;
     phase := phase s; loads := loads s; drains := drains s;
     trace := trace s |}.

Definition set_imageObserver (v : bool) (s : State) : State :=
  {| dom := dom s; href := href s; processedImages := processedImages s;
     failedImages := failedImages s; observedImages := observedImages s;
     processingQueue := processingQueue s; isProcessing := isProcessing s;
     isPageChanging := isPageChanging s; currentUrl := currentUrl s;
     imageObserver := v; observing := observing s; phase := phase s;
     loads := loads s; drains := drains s; trace := trace s |}.

Definition set_observing (v : bool) (s : State) : State :=
  {| dom := dom s; href := href s; processedImages := processedImages s;
     failedImages := failedImages s; observedImages := observedImages s;
     processingQueue := processingQueue s; isProcessing := isProcessing s;
     isPageChanging := isPageChanging s; currentUrl := currentUrl s;
     imageObserver := imageObserver s; observing := v; phase := phase s;
     loads := loads s; drains := drains s; trace := trace s |}.

Definition set_phase (v : Phase) (s : State) : State :=
  {| dom := dom s; href := href s; processedImages := processedImages s;
     failedImages := failedImages s; observedImages := observedImages s;
     processingQueue := processingQueue s; isProcessing := isProcessing s;
     isPageChanging := isPageChanging s; currentUrl := currentUrl s;
     imageObserver := imageObserver s; observing := observing s; phase := v;
     loads := loads s; drains := drains s; trace := trace s |}.

Definition set_loads (v : list Wait) (s : State) : State :=
  {| dom := dom s; href := href s; processedImages := processedImages s;
     failedImages := failedImages s; observedImages := observedImages s;
     processingQueue := processingQueue s; isProcessing := isProcessing s;
     isPageChanging := isPageChanging s; currentUrl := currentUrl s;
     imageObserver := imageObserver s; observing := observing s;
     phase := phase s; loads := v; drains := drains s; trace := trace s |}.

Definition set_drains (v : list Stage) (s : State) : State :=
  {| dom := dom s; href := href s; processedImages := processedImages s;
     failedImages := failedImages s; observedImages := observedImages s;
     processingQueue := processingQueue s; isProcessing := isProcessing s;
     isPageChanging := isPageChanging s; currentUrl := currentUrl s;
     imageObserver := imageObserver s; observing := observing s;
     phase := phase s; loads := loads s; drains := v; trace := trace s |}.

Definition set_trace (v : list Event) (s : State) : State :=
  {| dom := dom s; href := href s; processedImages := processedImages s;
     failedImages := failedImages s; observedImages := observedImages s;
     processingQueue := processingQueue s; isProcessing := isProcessing s;
     isPageChanging := isPageChanging s; currentUrl := currentUrl s;
     imageObserver := imageObserver s; observing := observing s;
     phase := phase s; loads := loads s; drains := drains s; trace := v |}.

(** A handle always denotes an element. *)
Definition element (s : State) (e : nat) : Img :=
  default blank (dom s !! e).

Definition update_img (e : nat) (f : Img -> Img) (s : State) : State :=
  set_dom (<[e := f (element s e)]> (dom s)) s.

Definition log (ev : Event) (s : State) : State :=
  set_trace (ev :: trace s) s.

Definition suspend (st : Stage) (s : State) : State :=
  set_drains (drains s ++ [st]) s.

(** ** processImage, cut at its awaits *)

(** [processImage(e)] returns (or throws): the loop that awaits it goes on in
    a later turn. *)
Definition item_returns (e : nat) (threw : bool) (s : State) : State :=
  suspend (AwaitItem e threw) (log (EvReturn e) s).

Definition unmark (e : nat) (s : State) : State :=
  update_img e (set_ocr_processing false) s.

Definition fail (e : nat) (s : State) : State :=
  set_failedImages ({[e]} ∪ failedImages s) s.

(** From the call to [await extractImageData(element)]. *)
Definition processImage (e : nat) (s : State) : State :=
  if isPageChanging s then item_returns e false s
  else if bool_decide (e ∈ processedImages s) then item_returns e false s
  else
    let s := set_processedImages ({[e]} ∪ processedImages s) s in
    let s := update_img e (set_ocr_processing true) s in
    suspend (AwaitExtract e (isPageChanging s) (element s e))
            (log (EvAcquire e) s).

(** From the end of the extraction to [await sendToOCRServer(imageData)]. *)
Definition after_extract (e : nat) (imageData : option string) (s : State)
  : State :=
  let s := log (EvAcquired e) s in
  match imageData with
  | Some data =>
      if negb (truthy data) || isPageChanging s then
        let s := unmark e s in
        item_returns e false (if isPageChanging s then s else fail e s)
      else suspend (AwaitOcr e data) (log (EvOcr e) s)
  | None =>
      let s := unmark e s in
      item_returns e false (if isPageChanging s then s else fail e s)
  end.

(** From the server's answer to [await replaceTextInImage(...)]. *)
Definition after_ocr (e : nat) (result : OcrResult) (s : State) : State :=
  let s := log (EvOcrDone e) s in
  if isPageChanging s then item_returns e false (unmark e s)
  else
    match result with
    | OcrNull | OcrNoBlocks => item_returns e false (fail e (unmark e s))
    | OcrBlocks [] => item_returns e false (unmark e s)
    | OcrBlocks (_ :: _) => suspend (AwaitOverlay e) (log (EvOverlay e) s)
    | OcrMalformed => item_returns e true s
    end.

(** From the end of the overlay to the return. *)
Definition after_overlay (e : nat) (d : Overlay.Decode) (s : State) : State :=
  let s := update_img e (Overlay.replaceTextInImage false d) s in
  item_returns e false (unmark e (log (EvOverlayDone e) s)).

(** ** processQueue *)

(** [isProcessing = false] and what follows the loop. *)
Definition finish (s : State) : State := set_isProcessing false s.

(** The [while] loop, from its test to the next suspension. *)
Definition next_item (s : State) : State :=
  match processingQueue s with
  | e :: rest =>
      if isPageChanging s then finish s
      else processImage e (log (EvShift e) (set_processingQueue rest s))
  | [] => finish s
  end.

Definition processQueue (s : State) : State :=
  if isProcessing s || bool_decide (processingQueue s = []) then s
  else next_item (set_isProcessing true s).

(** After [await processImage(element)]: the [catch], the test of
    [isPageChanging], the loop. *)
Definition after_item (e : nat) (threw : bool) (s : State) : State :=
  let s := if threw then fail e s else s in
  if isPageChanging s then finish s else next_item s.

(** What a suspended loop is told when it resumes. *)
Inductive Outcome :=
| Acquired (env : AcquireEnv)
| OcrReplied (r : OcrResult)
| OverlayDone (d : Overlay.Decode)
| Settled.

Definition resume (k : nat) (o : Outcome) (s : State) : option State :=
  match drains s !! k with
  | None => None
  | Some st =>
      let s := set_drains (delete k (drains s)) s in
      match st, o with
      | AwaitExtract e changing img, Acquired env =>
          Some (after_extract e (snd (extractImageData changing img env)) s)
      | AwaitOcr e _, OcrReplied r => Some (after_ocr e r s)
      | AwaitOverlay e, OverlayDone d => Some (after_overlay e d s)
      | AwaitItem e threw, Settled => Some (after_item e threw s)
      | _, _ => None
      end
  end.

(** ** Admission *)

Definition enqueue (e : nat) (s : State) : State :=
  log (EvPush e) (set_processingQueue (processingQueue s ++ [e]) s).

(** The end of both Pixiv loops: the size test and the admission.  [drain]
    tells [handleNewImage], which goes on to call [processQueue], from the
    initial scan, which does not. *)
Definition accept_pixiv (drain : bool) (e : nat) (originalSrc : string)
  (s : State) : State :=
  let img := element s e in
  if (200 <? shown_width img) && (200 <? shown_height img) then
    let s := set_observedImages ({[e]} ∪ observedImages s) s in
    let s := update_img e (set_originalPixivSrc (Some originalSrc)) s in
    let s := enqueue e s in
    if drain then processQueue s else s
  else s.

Definition accept_generic (drain : bool) (e : nat) (s : State) : State :=
  let img := element s e in
  if (200 <? naturalWidth img) && (200 <? naturalHeight img) then
    let s := set_observedImages ({[e]} ∪ observedImages s) s in
    let s := enqueue e s in
    if drain then processQueue s else s
  else s.

Definition accept (drain : bool) (w : Wait) (s : State) : State :=
  match w with
  | WaitPixiv e originalSrc => accept_pixiv drain e originalSrc s
  | WaitGeneric e => accept_generic drain e s
  end.

(** One image of a discovery loop, up to its load wait: [inl] when the image
    is dealt with at once, [inr] when the loop has to wait. *)
Definition inspect (isPixiv drain : bool) (e : nat) (s : State)
  : State + Wait :=
  let img := element s e in
  if isPixiv then
    match pixiv_source img with
    | None => inl s
    | Some src =>
        let originalSrc := original_of src in
        if negb (complete img) || (naturalWidth img =? 0)
        then inr (WaitPixiv e originalSrc)
        else inl (accept_pixiv drain e originalSrc s)
    end
  else
    if negb (complete img) then inr (WaitGeneric e)
    else inl (accept_generic drain e s).

(** [handleNewImage(img, isPixiv)], up to its [await]. *)
Definition handleNewImage (isPixiv : bool) (e : nat) (s : State) : State :=
  if bool_decide (e ∈ observedImages s) || bool_decide (e ∈ processedImages s)
  then s
  else
    let s := log (EvCall e) s in
    match inspect isPixiv true e s with
    | inl s' => s'
    | inr w => set_loads (loads s ++ [w]) s
    end.

(** ** Navigation *)

(** The three handlers of [setupPageChangeDetection]; only the first also
    sets [imageObserver] to [null]. *)
Definition stop (forget : bool) (s : State) : State :=
  let s := log EvTrip (set_processingQueue [] (set_isPageChanging true s)) in
  if imageObserver s
  then set_observing false (if forget then set_imageObserver false s else s)
  else s.

Definition on_document_mutation (s : State) : State :=
  if String.eqb (href s) (currentUrl s) then s
  else set_currentUrl (href s) (stop true s).

(** ** The turns of the event loop *)

Inductive Label :=
| LScan                              (* the initial scan takes its next image *)
| LScanLoaded                        (* the scan's load wait ends *)
| LAdded (e : nat)                   (* watcher: an image was added *)
| LAttr (e : nat)                    (* watcher: an attribute of an image changed *)
| LLoaded (k : nat)                  (* the [k]-th waiting [handleNewImage] resumes *)
| LComplete (k : nat) (o : Outcome)  (* the [k]-th suspended loop resumes *)
| LPage (e : nat) (img : Img)        (* the page or the browser changes an element *)
| LHref (h : string)                 (* the location changes *)
| LDocMutation                       (* the navigation watcher is called *)
| LBeforeUnload
| LPopState.

(** The end of [init]: [setupImageObserver], [setupPageChangeDetection],
    [processQueue]. *)
Definition start_running (s : State) : State :=
  processQueue
    (set_phase Running (set_observing true (set_imageObserver true s))).

Definition running (s : State) : bool :=
  match phase s with Running => true | _ => false end.

Definition step (isPixiv : bool) (s : State) (l : Label) : option State :=
  match l with
  | LScan =>
      match phase s with
      | Scanning [] => Some (start_running s)
      | Scanning (e :: todo) =>
          match inspect isPixiv false e s with
          | inl s' => Some (set_phase (Scanning todo) s')
          | inr w => Some (set_phase (ScanWait w todo) s)
          end
      | _ => None
      end
  | LScanLoaded =>
      match phase s with
      | ScanWait w todo => Some (set_phase (Scanning todo) (accept false w s))
      | _ => None
      end
  | LAdded e =>
      if observing s then Some (handleNewImage isPixiv e s) else None
  | LAttr e =>
      if observing s then
        if bool_decide (e ∈ observedImages s)
           || bool_decide (e ∈ processedImages s)
        then Some s
        else Some (handleNewImage isPixiv e s)
      else None
  | LLoaded k =>
      match loads s !! k with
      | Some w => Some (accept true w (set_loads (delete k (loads s)) s))
      | None => None
      end
  | LComplete k o => resume k o s
  | LPage e img => Some (set_dom (<[e := img]> (dom s)) s)
  | LHref h => Some (set_href h s)
  | LDocMutation =>
      if running s then Some (on_document_mutation s) else None
  | LBeforeUnload => if running s then Some (stop false s) else None
  | LPopState => if running s then Some (stop false s) else None
  end.

Fixpoint run (isPixiv : bool) (s : State) (ls : list Label) : option State :=
  match ls with
  | [] => Some s
  | l :: ls' =>
      match step isPixiv s l with
      | Some s' => run isPixiv s' ls'
      | None => None
      end
  end.

(** The script starts: the globals are initialised, [querySelectorAll('img')]
    has given [imgs]. *)
Definition init (d : gmap nat Img) (url : string) (imgs : list nat) : State :=
  {| dom := d; href := url; processedImages := ∅; failedImages := ∅;
     observedImages := ∅; processingQueue := []; isProcessing := false;
     isPageChanging := false; currentUrl := url; imageObserver := false;
     observing := false; phase := Scanning imgs; loads := []; drains := [];
     trace := [] |}.

Definition reachable (isPixiv : bool) (s : State) : Prop :=
  exists d url imgs ls, run isPixiv (init d url imgs) ls = Some s.

(** The size floor as each protocol reads it: the natural size, or for the
    Pixiv protocol the laid-out size where the natural one is zero. *)
Definition below_floor (isPixiv : bool) (img : Img) : Prop :=
  if isPixiv then shown_width img <= 200 \/ shown_height img <= 200
  else naturalWidth img <= 200 \/ naturalHeight img <= 200.

(** ** Shapes of Pixiv sources *)









(** The fields [extractImageData] reads. *)
Definition same_picture (i i' : Img) : Prop :=
  src i' = src i /\ currentSrc i' = currentSrc i
  /\ naturalWidth i' = naturalWidth i /\ naturalHeight i' = naturalHeight i
  /\ width i' = width i /\ height i' = height i
  /\ originalPixivSrc i' = originalPixivSrc i.

End Content.

(* ================================================================== *)
(** * Reading a trace *)
(* ================================================================== *)

Module Trace.
Import Content.

(** What the pipeline is doing, read off the trace: nothing; holding the
    item just taken from the queue, between two asynchronous steps; or
    waiting for one of the three asynchronous steps of that item. *)
Inductive Flight :=
| Idle
| Popped (e : nat)
| Acquiring (e : nat)
| Submitted (e : nat)
| Overlaying (e : nat).

Definition same (e e' : nat) (fl : Flight) : option Flight :=
  if bool_decide (e = e') then Some fl else None.

(** An item is taken only when the pipeline is idle; every asynchronous step
    begins and ends inside the item it belongs to; an item returns only
    between steps. *)
Definition flight_step (ev : Event) (fl : Flight) : option Flight :=
  match ev, fl with
  | EvShift e, Idle => Some (Popped e)
  | EvAcquire e, Popped e' => same e e' (Acquiring e)
  | EvAcquired e, Acquiring e' => same e e' (Popped e)
  | EvOcr e, Popped e' => same e e' (Submitted e)
  | EvOcrDone e, Submitted e' => same e e' (Popped e)
  | EvOverlay e, Popped e' => same e e' (Overlaying e)
  | EvOverlayDone e, Overlaying e' => same e e' (Popped e)
  | EvReturn e, Popped e' => same e e' Idle
  | (EvCall _ | EvPush _ | EvTrip), fl => Some fl
  | _, _ => None
  end.

(** The trace is kept newest first. *)
Fixpoint flight_of (tr : list Event) : option Flight :=
  match tr with
  | [] => Some Idle
  | ev :: older => fl ← flight_of older; flight_step ev fl
  end.

(** The queue, read off the trace: pushes at the tail, shifts from the
    head. *)
Definition queue_step (ev : Event) (q : list nat) : option (list nat) :=
  match ev with
  | EvPush e => Some (q ++ [e])
  | EvShift e =>
      match q with
      | h :: t => if bool_decide (h = e) then Some t else None
      | [] => None
      end
  | EvTrip => Some []
  | _ => Some q
  end.

Fixpoint queue_of (tr : list Event) : option (list nat) :=
  match tr with
  | [] => Some []
  | ev :: older => q ← queue_of older; queue_step ev q
  end.

(** Events that start work on an item or start a discovery. *)
Definition starts_work (ev : Event) : bool :=
  match ev with
  | EvShift _ | EvAcquire _ | EvOcr _ | EvOverlay _ | EvCall _ => true
  | _ => false
  end.

Definition is_push (ev : Event) : bool :=
  match ev with EvPush _ => true | _ => false end.

#[global] Instance Event_eq_dec : EqDecision Event.
Proof. solve_decision. Defined.

(** How often [ev] occurs. *)
Definition occurrences (ev : Event) (tr : list Event) : nat :=
  length (filter (fun x => x = ev) tr).

(** What the suspended loop, if there is one, is waiting for. *)
Definition flight_at (ds : list Stage) : Flight :=
  match ds with
  | AwaitExtract e _ _ :: _ => Acquiring e
  | AwaitOcr e _ :: _ => Submitted e
  | AwaitOverlay e :: _ => Overlaying e
  | AwaitItem _ _ :: _ => Idle
  | [] => Idle
  end.

(** The drain is sequential: at most one loop is suspended, [isProcessing]
    says whether one is, the trace is that of a pipeline working on one item
    at a time, and the queue is what the trace says it is. *)
Record Serial (s : State) : Prop := {
  serial_single : (length (drains s) <= 1)%nat;
  serial_busy : isProcessing s = bool_decide (drains s <> []);
  serial_flight : flight_of (trace s) = Some (flight_at (drains s));
  serial_fifo : queue_of (trace s) = Some (processingQueue s)
}.

(** Inside a turn of the one loop, which holds [fl]. *)
Record Turn (fl : Flight) (s : State) : Prop := {
  turn_alone : drains s = [];
  turn_busy : isProcessing s = true;
  turn_flight : flight_of (trace s) = Some fl;
  turn_fifo : queue_of (trace s) = Some (processingQueue s)
}.

(** The item a suspended loop is in the middle of. *)
Definition in_flight (st : Stage) : option nat :=
  match st with
  | AwaitExtract e _ _ | AwaitOcr e _ | AwaitOverlay e => Some e
  | AwaitItem _ _ => None
  end.

(** The three sets are kept in step: what has failed has been processed, and
    an item in the middle of its processing is in [processedImages] and not
    in [failedImages]. *)
Record Books (s : State) : Prop := {
  books_failed : failedImages s ⊆ processedImages s;
  books_active :
    forall st e, st ∈ drains s -> in_flight st = Some e ->
                 e ∈ processedImages s /\ e ∉ failedImages s;
  books_threw :
    forall e, AwaitItem e true ∈ drains s -> e ∈ processedImages s
}.

(** Before [init] has installed its watchers nothing is suspended and
    nothing has tripped; the watcher is connected only while the variable
    holds it, and not after a trip. *)
Record Booted (s : State) : Prop := {
  booted_scan :
    running s = false ->
    drains s = [] /\ loads s = [] /\ isPageChanging s = false
    /\ observing s = false /\ imageObserver s = false;
  booted_watch : observing s = true -> imageObserver s = true;
  booted_quiet : isPageChanging s = true -> observing s = false
}.

(** The turns that trip the navigation epoch: the two signals, and the
    navigation watcher when the location has changed. *)
Definition trips (s : State) (l : Label) : bool :=
  match l with
  | LBeforeUnload | LPopState => true
  | LDocMutation => negb (String.eqb (href s) (currentUrl s))
  | _ => false
  end.

(** [s'] has the trace of [s] and, on top of it, only events that start
    nothing. *)
Definition quiet_since (s s' : State) : Prop :=
  exists newer, trace s' = newer ++ trace s
                /\ Forall (fun ev => starts_work ev = false) newer.

(** The state fields that only discovery and navigation write. *)
Definition same_control (s s' : State) : Prop :=
  phase s' = phase s /\ loads s' = loads s
  /\ isPageChanging s' = isPageChanging s /\ observing s' = observing s
  /\ imageObserver s' = imageObserver s.

(** A waiting discovery belongs to the protocol the page runs. *)
Definition wait_for (isPixiv : bool) (w : Wait) : Prop :=
  match w with
  | WaitPixiv _ _ => isPixiv = true
  | WaitGeneric _ => isPixiv = false
  end.

Definition waited (w : Wait) : nat :=
  match w with WaitPixiv e _ | WaitGeneric e => e end.

Record Kinds (isPixiv : bool) (s : State) : Prop := {
  kinds_loads : Forall (wait_for isPixiv) (loads s);
  kinds_scan :
    match phase s with ScanWait w _ => wait_for isPixiv w | _ => True end
}.

(** Nothing has put [e] into the observed set or the queue between [s] and
    [s']. *)
Definition keeps_out (e : nat) (s s' : State) : Prop :=
  (e ∈ observedImages s' -> e ∈ observedImages s)
  /\ (e ∈ processingQueue s' -> e ∈ processingQueue s)
  /\ occurrences (EvPush e) (trace s') = occurrences (EvPush e) (trace s).

(** Whether the suspended loop is waiting for the extraction of [e]. *)
Definition awaiting_extract (e : nat) (ds : list Stage) : nat :=
  match ds with
  | AwaitExtract e' _ _ :: _ => if bool_decide (e' = e) then 1 else 0
  | _ => 0
  end.

(** An element is extracted once, when it enters [processedImages], and
    submitted to the OCR server at most as often as it has been extracted;
    [ds] are the suspended loops. *)
Record Once (ds : list Stage) (s : State) : Prop := {
  once_acquire :
    forall e, occurrences (EvAcquire e) (trace s)
              = if bool_decide (e ∈ processedImages s) then 1%nat else 0%nat;
  once_ocr :
    forall e, (occurrences (EvOcr e) (trace s) + awaiting_extract e ds
               <= occurrences (EvAcquire e) (trace s))%nat
}.

End Trace.

(* ================================================================== *)
(** * content.js (first generation): per-item processing *)
(* ================================================================== *)

Module Legacy.
Import JsString Dom.

Record Script := {
  processedImages : gset nat;
  failedImages : gset nat;
  isPageChanging : bool
}.

(** What happens around one [processImage]: the answers of its awaits and
    whether the page started to change while it waited. *)
Record ItemEnv := {
  extracted : option string;
  trip_while_extracting : bool;
  ocr : Content.OcrResult;
  trip_while_ocr : bool
}.

Record Outcome := {
  script : Script;
  submitted : bool;         (* the OCR request was sent *)
  overlaid : bool;          (* [replaceTextInImage] was called *)
  threw : bool
}.

Definition leave (sc : Script) (sub ov th : bool) : Outcome :=
  {| script := sc; submitted := sub; overlaid := ov; threw := th |}.

Definition add_processed (e : nat) (sc : Script) : Script :=
  {| processedImages := {[e]} ∪ processedImages sc;
     failedImages := failedImages sc; isPageChanging := isPageChanging sc |}.

Definition add_failed (e : nat) (sc : Script) : Script :=
  {| processedImages := processedImages sc;
     failedImages := {[e]} ∪ failedImages sc;
     isPageChanging := isPageChanging sc |}.

Definition trip (b : bool) (sc : Script) : Script :=
  {| processedImages := processedImages sc; failedImages := failedImages sc;
     isPageChanging := isPageChanging sc || b |}.

Definition usable_data (d : option string) : bool := truthy_opt d.

(** [processImage] of src/content.js. *)
Definition processImage (e : nat) (env : ItemEnv) (sc : Script) : Outcome :=
  if isPageChanging sc || bool_decide (e ∈ processedImages sc)
  then leave sc false false false
  else
    let sc := add_processed e sc in
    let sc := trip (trip_while_extracting env) sc in
    if negb (usable_data (extracted env)) || isPageChanging sc then
      leave (if usable_data (extracted env) then sc else add_failed e sc)
            false false false
    else
      let sc := trip (trip_while_ocr env) sc in
      if isPageChanging sc then leave sc true false false
      else
        match ocr env with
        | Content.OcrNull | Content.OcrNoBlocks | Content.OcrBlocks [] =>
            leave (add_failed e sc) true false false
        | Content.OcrBlocks (_ :: _) => leave sc true true false
        | Content.OcrMalformed => leave sc true false true
        end.

(** The body of the loop of [processQueue]: [try { await processImage }
    catch { failedImages.add }]. *)
Definition loop_body (e : nat) (env : ItemEnv) (sc : Script) : Outcome :=
  let o := processImage e env sc in
  if threw o
  then leave (add_failed e (script o)) (submitted o) (overlaid o) true
  else o.

End Legacy.

(* ================================================================== *)
(** * Concrete pages, networks and schedules *)
(* ================================================================== *)

Module Examples.
Import JsString Dom.

(** ** background.js *)

Definition webp_url : string :=
  "https://i.pximg.net/c/250x250_80_a2_webp/img-master/img/2024/01/01/00/00/00/1_p0.webp".

(** A network that answers the first URL with [200] and no bytes, and every
    other URL with [200] and an image. *)
Definition empty_then_image (r : Background.Request) (w : unit)
  : Background.FetchOutcome * unit :=
  if String.eqb (Background.req_url r) webp_url
  then (Background.FetchResponse true 200 (Background.BodyBytes ""), w)
  else (Background.FetchResponse true 200 (Background.BodyBytes "JFIF"), w).

Definition data_url (bytes : string) : option string :=
  Some ("data:image/jpeg;base64," +:+ bytes).

Definition echo_relay (dataUrl : string) (w : unit) : Background.Reply * unit :=
  (Background.ReplyOk dataUrl (N.of_nat (String.length dataUrl)), w).

Definition webp_message : Background.Message :=
  {| Background.msg_url := webp_url;
     Background.msg_referer := "https://www.pixiv.net/artworks/1" |}.

(** ** offscreen.js *)

Definition decoded_300x400 : Offscreen.Decoded :=
  {| Offscreen.dec_naturalWidth := 300; Offscreen.dec_naturalHeight := 400;
     Offscreen.dec_width := 300; Offscreen.dec_height := 400;
     Offscreen.dec_png := inl "data:image/png;base64,AAAA" |}.

(** The image loads half a second after the timer has run out. *)
Definition late_load : list (N * Offscreen.ImgEvent) :=
  [(10500, Offscreen.OnLoad decoded_300x400)].

(** ** Elements *)


(** An ordinary loaded image. *)
Definition page_image : Img :=
  {| src := "https://example.org/page.png";
     currentSrc := "https://example.org/page.png";
     data_src := None; srcset := None;
     complete := true; naturalWidth := 300; naturalHeight := 400;
     width := 300; height := 400; originalPixivSrc := None;
     ocr_processing := false; toggle := no_toggle |}.

(** A Pixiv image that never loaded: no natural size, laid out at 600x800. *)
Definition unloaded_pixiv : Img :=
  {| src := "https://i.pximg.net/img-master/img/2024/01/01/00/00/00/1_p0_master1200.jpg";
     currentSrc := "";
     data_src := None; srcset := None;
     complete := false; naturalWidth := 0; naturalHeight := 0;
     width := 600; height := 800; originalPixivSrc := None;
     ocr_processing := false; toggle := no_toggle |}.

(** A loaded 150x150 image on the Pixiv image host. *)
Definition thumbnail : Img :=
  {| src := "https://i.pximg.net/c/150x150/img-master/img/2024/01/01/00/00/00/1_p0_square1200.jpg";
     currentSrc := "https://i.pximg.net/c/150x150/img-master/img/2024/01/01/00/00/00/1_p0_square1200.jpg";
     data_src := None; srcset := None;
     complete := true; naturalWidth := 150; naturalHeight := 150;
     width := 150; height := 150; originalPixivSrc := None;
     ocr_processing := false; toggle := no_toggle |}.

(** ** Runs of the content script *)

Definition page_url : string := "https://example.org/chapter/1".

Definition two_pages : gmap nat Img :=
  {[ 1%nat := page_image; 2%nat := page_image ]}.

(** The direct draw works. *)
Definition draws : Content.AcquireEnv :=
  {| Content.offscreen_reply := None;
     Content.draw := Some "data:image/png;base64,PAGE";
     Content.background_reply := None;
     Content.redraw := None |}.

Definition one_block : list Content.TextBlock :=
  [{| Content.tb_text := "hello"; Content.tb_bbox := (10, 10, 90, 40);
      Content.tb_type := "text"; Content.tb_style := "normal" |}].

(** One item goes through extraction, OCR and overlay, and returns. *)
Definition full_item : list Content.Label :=
  [Content.LComplete 0 (Content.Acquired draws);
   Content.LComplete 0 (Content.OcrReplied (Content.OcrBlocks one_block));
   Content.LComplete 0
     (Content.OverlayDone (Overlay.Loaded "data:image/png;base64,TEXT"));
   Content.LComplete 0 Content.Settled].

(** The scan finds two images; both are processed, one after the other. *)
Definition two_items : list Content.Label :=
  [Content.LScan; Content.LScan; Content.LScan] ++ full_item ++ full_item.

Definition after_two_items : Content.State :=
  default (Content.init ∅ "" [])
    (Content.run false (Content.init two_pages page_url [1; 2]%nat) two_items).

(** The scan is over and the first item is waiting for the OCR server. *)
Definition awaiting_ocr : Content.State :=
  default (Content.init ∅ "" [])
    (Content.run false (Content.init two_pages page_url [1; 2]%nat)
       [Content.LScan; Content.LScan; Content.LScan;
        Content.LComplete 0 (Content.Acquired draws)]).

(** ** The first content script *)

Definition fresh_script : Legacy.Script :=
  {| Legacy.processedImages := ∅; Legacy.failedImages := ∅;
     Legacy.isPageChanging := false |}.

(** Extraction works, the page stays, the server finds no text. *)
Definition no_text : Legacy.ItemEnv :=
  {| Legacy.extracted := Some "data:image/png;base64,PAGE";
     Legacy.trip_while_extracting := false;
     Legacy.ocr := Content.OcrBlocks [];
     Legacy.trip_while_ocr := false |}.

(** An image that is still loading. *)
Definition loading_image : Img :=
  {| src := "https://example.org/lazy.png"; currentSrc := "";
     data_src := None; srcset := None;
     complete := false; naturalWidth := 0; naturalHeight := 0;
     width := 0; height := 0; originalPixivSrc := None;
     ocr_processing := false; toggle := no_toggle |}.

Definition lazy_page : gmap nat Img :=
  {[ 1%nat := loading_image; 2%nat := page_image ]}.

(** Image 2 is being processed when image 1 is added, still loading; the
    user goes back; then image 1 finishes loading. *)
Definition load_after_trip : list Content.Label :=
  [Content.LScan; Content.LScan; Content.LAdded 1; Content.LPopState;
   Content.LPage 1 page_image; Content.LLoaded 0].

Definition after_late_load : Content.State :=
  default (Content.init ∅ "" [])
    (Content.run false (Content.init lazy_page page_url [2]%nat)
       load_after_trip).

(** Nothing answers. *)
Definition nothing_works : Content.AcquireEnv :=
  {| Content.offscreen_reply := None; Content.draw := None;
     Content.background_reply := None; Content.redraw := None |}.

(** ** The size floor *)

Definition pixiv_url : string := "https://www.pixiv.net/artworks/1".

Definition thumbnail_page : Content.State :=
  Content.init {[ 1%nat := thumbnail ]} pixiv_url [1%nat].

Definition thumbnail_scanned : Content.State :=
  default thumbnail_page (Content.step true thumbnail_page Content.LScan).

(** The scan waits for the image that never loads, until its timer runs
    out. *)
Definition unloaded_scanned : Content.State :=
  default (Content.init ∅ "" [])
    (Content.run true (Content.init {[ 1%nat := unloaded_pixiv ]} pixiv_url
                         [1%nat])
       [Content.LScan; Content.LScanLoaded]).

(** ** Pixiv sources *)

(** The source of the spec's example, on a Pixiv page, loaded at 1200. *)
Definition sample_square : Img :=
  {| src := "https://i.pximg.net/img-original/img/2024/01/01/00/00/00/sample_p0_square1200.jpg";
     currentSrc := "https://i.pximg.net/img-original/img/2024/01/01/00/00/00/sample_p0_square1200.jpg";
     data_src := None; srcset := None;
     complete := true; naturalWidth := 1200; naturalHeight := 1200;
     width := 600; height := 600; originalPixivSrc := None;
     ocr_processing := false; toggle := no_toggle |}.


(** The scripts never looked at image 1 twice on purpose: it is added while
    loading, one of its attributes changes before it has loaded, and it
    loads.  Then the queue is drained. *)
Definition seen_twice : list Content.Label :=
  [Content.LScan; Content.LAdded 1; Content.LAttr 1;
   Content.LPage 1 page_image; Content.LLoaded 0; Content.LLoaded 0]
  ++ full_item ++ [Content.LComplete 0 Content.Settled].

Definition after_seen_twice : Content.State :=
  default (Content.init ∅ "" [])
    (Content.run false
       (Content.init {[ 1%nat := loading_image ]} page_url []) seen_twice).

End Examples.

(* ================================================================== *)
(** * replaceTextInImage: wrapping the text *)
(* ================================================================== *)

Module Layout.
Import JsString.

Definition newline : ascii := "010"%char.

Section WrapText.
(** [ctx.measureText(s).width > maxWidth], for the font and the width of
    the call. *)
Variable too_wide : string -> bool.

(** The body of [words.forEach]: [lines] and [currentLine] before and after
    one word. *)
Definition add_word (st : list string * string) (word : string)
  : list string * string :=
  let '(lines, currentLine) := st in
  let testLine :=
    currentLine +:+ (if truthy currentLine then " " else "") +:+ word in
  if too_wide testLine && truthy currentLine
  then (lines ++ [currentLine], word)
  else (lines, testLine).

(** [lines] as it is before the final [flatMap]. *)
Definition wrap_words (text : string) : list string :=
  let '(lines, currentLine) :=
    fold_left add_word (split " " text) ([], "") in
  if truthy currentLine then lines ++ [currentLine] else lines.

(** [wrapText(ctx, text, maxWidth)] *)
Definition wrapText (text : string) : list string :=
  flat_map (fun line => if includes line (String newline "")
                        then split newline line else [line])
           (wrap_words text).

End WrapText.

(** ** Words *)

Definition is_gap (c : ascii) : bool :=
  Ascii.eqb c " " || Ascii.eqb c newline.

(** The text cut at every space and every line break. *)
Fixpoint pieces (s : string) : list string :=
  match s with
  | EmptyString => [EmptyString]
  | String c s' =>
      if is_gap c then EmptyString :: pieces s'
      else match pieces s' with
           | h :: t => String c h :: t
           | [] => [String c EmptyString]
           end
  end.

(** The words of a text: its maximal runs of characters other than the
    space and the line break. *)
Definition words_of (s : string) : list string :=
  filter (fun w => truthy w = true) (pieces s).

(** [s] without its leading spaces. *)
Fixpoint skip_spaces (s : string) : string :=
  match s with
  | String c s' => if Ascii.eqb c " " then skip_spaces s' else s
  | EmptyString => s
  end.

End Layout.

(* ================================================================== *)
(** * background.js: setupOffscreenDocument *)
(* ================================================================== *)

Module Setup.

(** A promise returned by [chrome.offscreen.createDocument]. *)
Inductive Creation := Creating | Created | CreateFailed (msg : string).

(** Where a call of [setupOffscreenDocument] is suspended. *)
Inductive Call :=
| AwaitContexts          (* [await chrome.runtime.getContexts(...)] *)
| AwaitOwn (p : nat)     (* [await offscreenCreating], the promise is its own *)
| AwaitOther (p : nat).  (* [await offscreenCreating], somebody else's *)

Inductive Result := Returned | Threw (msg : string).

Record State := {
  offscreenCreating : option nat;   (* [null], or the promise, by number *)
  creations : list Creation;        (* the promises of [createDocument] *)
  calls : gmap nat Call;            (* the suspended calls *)
  results : gmap nat Result;        (* the calls that are over *)
  next : nat                        (* the calls so far *)
}.

Definition init : State :=
  {| offscreenCreating := None; creations := []; calls := ∅; results := ∅;
     next := 0 |}.

(** Call [k] is over. *)
Definition finish (k : nat) (r : Result) (s : State) : State :=
  {| offscreenCreating := offscreenCreating s; creations := creations s;
     calls := delete k (calls s); results := <[k := r]> (results s);
     next := next s |}.

Definition suspend (k : nat) (c : Call) (s : State) : State :=
  {| offscreenCreating := offscreenCreating s; creations := creations s;
     calls := <[k := c]> (calls s); results := results s; next := next s |}.

(** From the call to [await chrome.runtime.getContexts]. *)
Definition setupOffscreenDocument (s : State) : State :=
  {| offscreenCreating := offscreenCreating s; creations := creations s;
     calls := <[next s := AwaitContexts]> (calls s); results := results s;
     next := S (next s) |}.

(** From the answer of [getContexts], [existing] contexts, to the
    [await offscreenCreating] of either branch. *)
Definition after_contexts (k existing : nat) (s : State) : State :=
  if (0 <? existing)%nat then finish k Returned s
  else
    match offscreenCreating s with
    | Some p => suspend k (AwaitOther p) s
    | None =>
        let p := length (creations s) in
        suspend k (AwaitOwn p)
          {| offscreenCreating := Some p;
             creations := creations s ++ [Creating];
             calls := calls s; results := results s; next := next s |}
    end.

(** After [await offscreenCreating]. *)
Definition after_creating (k : nat) (c : Call) (s : State) : option State :=
  match c with
  | AwaitContexts => None
  | AwaitOwn p =>
      match creations s !! p with
      | Some Created =>
          Some (finish k Returned
                  {| offscreenCreating := None; creations := creations s;
                     calls := calls s; results := results s;
                     next := next s |})
      | Some (CreateFailed msg) => Some (finish k (Threw msg) s)
      | _ => None
      end
  | AwaitOther p =>
      match creations s !! p with
      | Some Created => Some (finish k Returned s)
      | Some (CreateFailed msg) => Some (finish k (Threw msg) s)
      | _ => None
      end
  end.

Inductive Label :=
| LCall                                  (* [setupOffscreenDocument()] *)
| LContexts (k existing : nat)           (* [getContexts] answers call [k] *)
| LContextsFail (k : nat) (msg : string) (* [getContexts] rejects *)
| LSettle (p : nat) (failure : option string)
                                         (* the browser settles a creation *)
| LResume (k : nat).                     (* call [k] goes on after its second
                                            [await] *)

Definition step (s : State) (l : Label) : option State :=
  match l with
  | LCall => Some (setupOffscreenDocument s)
  | LContexts k existing =>
      match calls s !! k with
      | Some AwaitContexts => Some (after_contexts k existing s)
      | _ => None
      end
  | LContextsFail k msg =>
      match calls s !! k with
      | Some AwaitContexts => Some (finish k (Threw msg) s)
      | _ => None
      end
  | LSettle p failure =>
      match creations s !! p with
      | Some Creating =>
          Some {| offscreenCreating := offscreenCreating s;
                  creations :=
                    <[p := match failure with
                           | None => Created
                           | Some msg => CreateFailed msg
                           end]> (creations s);
                  calls := calls s; results := results s; next := next s |}
      | _ => None
      end
  | LResume k =>
      match calls s !! k with
      | Some c => after_creating k c s
      | None => None
      end
  end.

Fixpoint run (s : State) (ls : list Label) : option State :=
  match ls with
  | [] => Some s
  | l :: ls' =>
      match step s l with
      | Some s' => run s' ls'
      | None => None
      end
  end.

Definition reachable (s : State) : Prop := exists ls, run init ls = Some s.

(** What the variable and the suspended calls say about the creations: a
    pending creation is the one in [offscreenCreating], and so is the
    creation of a call that waits for its own, of which there is at most
    one. *)
Record Locked (s : State) : Prop := {
  locked_creating :
    forall p, creations s !! p = Some Creating -> offscreenCreating s = Some p;
  locked_own :
    forall k p, calls s !! k = Some (AwaitOwn p) -> offscreenCreating s = Some p;
  locked_single :
    forall k k' p q, calls s !! k = Some (AwaitOwn p) ->
                     calls s !! k' = Some (AwaitOwn q) -> k = k'
}.

(** The variable holds a failed creation and no call is left to reset it. *)
Definition jammed (p : nat) (msg : string) (s : State) : Prop :=
  offscreenCreating s = Some p
  /\ creations s !! p = Some (CreateFailed msg)
  /\ forall k q, calls s !! k <> Some (AwaitOwn q).

End Setup.

(* ================================================================== *)
(** * The books of the content script *)
(* ================================================================== *)

Module Ledger.
Import Content.

(** What the queue holds has been observed, and so has what has been
    processed. *)
Record Counted (s : State) : Prop := {
  counted_queue : forall e, e ∈ processingQueue s -> e ∈ observedImages s;
  counted_processed : processedImages s ⊆ observedImages s
}.

(** Nothing waits in the queue while nobody works on it. *)
Definition tended (s : State) : Prop :=
  isPageChanging s = false -> isProcessing s = false ->
  processingQueue s = [].

(** No suspended loop holds an item whose [processImage] has thrown. *)
Definition none_thrown (s : State) : Prop :=
  forall e, AwaitItem e true ∉ drains s.

(** The fields a step inside an item leaves alone. *)
Definition same_books (s s' : State) : Prop :=
  isPageChanging s' = isPageChanging s /\ isProcessing s' = isProcessing s
  /\ processingQueue s' = processingQueue s
  /\ observedImages s' = observedImages s
  /\ processedImages s' = processedImages s
  /\ failedImages s' = failedImages s.

End Ledger.

(* ================================================================== *)
(** * The initial scan *)
(* ================================================================== *)

Module Scan.
Import JsString Dom Content.

(** What the scan decides for an image that stays as it is while the scan
    looks at it: on a Pixiv page, a source on the Pixiv image host and the
    size as shown; elsewhere the natural size. *)
Definition admissible (isPixiv : bool) (img : Img) : bool :=
  if isPixiv then
    match pixiv_source img with
    | Some _ => (200 <? shown_width img) && (200 <? shown_height img)
    | None => false
    end
  else (200 <? naturalWidth img) && (200 <? naturalHeight img).

(** The turns of the initial scan. *)
Definition scanning (l : Label) : bool :=
  match l with LScan | LScanLoaded => true | _ => false end.

(** An element but for [dataset.originalPixivSrc], the class and the
    toggle. *)
Definition same_look (i i' : Img) : Prop :=
  src i' = src i /\ currentSrc i' = currentSrc i
  /\ data_src i' = data_src i /\ srcset i' = srcset i
  /\ complete i' = complete i
  /\ naturalWidth i' = naturalWidth i /\ naturalHeight i' = naturalHeight i
  /\ width i' = width i /\ height i' = height i.

(** The scan of the images [imgs] of the document [d] has come to [s]: the
    elements look as they did, and the queue and the observed set hold the
    admissible ones of the images dealt with so far, in their order. *)
Record Scanned (isPixiv : bool) (d : gmap nat Img) (imgs : list nat)
  (s : State) : Prop := {
  scanned_look : forall e, same_look (default blank (d !! e)) (element s e);
  scanned_done :
    exists done,
      processingQueue s
      = filter (fun e => admissible isPixiv (default blank (d !! e)) = true)
               done
      /\ (forall e, e ∈ observedImages s <-> e ∈ processingQueue s)
      /\ match phase s with
         | Scanning todo => imgs = done ++ todo
         | ScanWait w todo =>
             imgs = done ++ Trace.waited w :: todo
             /\ Trace.wait_for isPixiv w
             /\ (isPixiv = true ->
                 is_Some (pixiv_source (element s (Trace.waited w))))
         | Running => False
         end
}.

End Scan.

(* ================================================================== *)
(** * The srcset attribute *)
(* ================================================================== *)

Module Srcset.
Import JsString Dom.




(** A visible ASCII character. *)
Definition is_visible (c : ascii) : bool :=
  let n := N_of_ascii c in (32 <? n) && (n <? 127).

(** A URL or a descriptor: not empty, of visible ASCII characters other than
    the comma. *)
Fixpoint plain (s : string) : bool :=
  match s with
  | EmptyString => true
  | String c s' => is_visible c && negb (Ascii.eqb c ",") && plain s'
  end.





End Srcset.

(* ================================================================== *)
(** * content.js (first generation): discovery and extraction *)
(* ================================================================== *)

Module FirstScript.
Import JsString Dom.

(** [extractImageData] of src/content.js. *)
Definition extractImageData (changing : bool) (img : Img)
  (env : Content.AcquireEnv) : list Content.Strategy * option string :=
  if changing then ([], None)
  else
    let src := or_else (currentSrc img) (src img) in
    if negb (truthy src) then ([], None)
    else if (shown_width img <? 200) || (shown_height img <? 200)
    then ([], None)
    else
      match Content.draw env with
      | Some dataUrl => ([Content.ViaDirectDraw], Some dataUrl)
      | None =>
          ([Content.ViaDirectDraw; Content.ViaBackgroundFetch],
           match Content.usable (Content.background_reply env) with
           | Some _ =>
               match Content.redraw env with
               | Some result => if truthy result then Some result else None
               | None => None
               end
           | None => None
           end)
      end.

End FirstScript.

(* ================================================================== *)
(** * replaceTextInImage: what click-to-toggle keeps *)
(* ================================================================== *)

Module Clicks.
Import JsString Dom.

(** One listener is registered, [o] is the recorded original, and the
    element shows either the translation or the original, as
    [dataset.showing] says. *)
Definition toggling (o : string) (el : Img) : Prop :=
  click_listeners (toggle el) = 1%nat
  /\ ds_original (toggle el) = Some o
  /\ exists t, ds_translated (toggle el) = Some t
               /\ ((ds_showing (toggle el) = Some "translated" /\ src el = t)
                   \/ (ds_showing (toggle el) = Some "original"
                       /\ src el = o)).

End Clicks.

(* ================================================================== *)
(** * popup.js and the settings of the content script *)
(* ================================================================== *)

Module Settings.
Import JsString.

(** [chrome.storage.sync], as far as the extension uses it: the two keys it
    writes, [enabled] always with a boolean and [targetLang] always with a
    string; [None] is a key never written. *)
Record Storage := {
  enabled : option bool;
  targetLang : option string
}.

(** The [changes] argument of [chrome.storage.onChanged]: for each of the
    two keys, [newValue] when the key is among the changes. *)
Record Changes := {
  ch_enabled : option bool;
  ch_targetLang : option string
}.

Definition no_changes : Changes :=
  {| ch_enabled := None; ch_targetLang := None |}.

(** [chrome.storage.sync.set({enabled: v})]: the storage afterwards and the
    change that is reported; a key set to the value it has is not among
    the changes. *)
Definition set_enabled (v : bool) (st : Storage) : Storage * Changes :=
  ({| enabled := Some v; targetLang := targetLang st |},
   {| ch_enabled := if bool_decide (enabled st = Some v) then None else Some v;
      ch_targetLang := None |}).

Definition set_targetLang (v : string) (st : Storage) : Storage * Changes :=
  ({| enabled := enabled st; targetLang := Some v |},
   {| ch_enabled := None;
      ch_targetLang :=
        if bool_decide (targetLang st = Some v) then None else Some v |}).

(** Truthiness of a flag that may be [undefined]. *)
Definition truthy_flag (b : option bool) : bool := default false b.

(** ** popup.js *)

(** The click handler of the toggle button after its first [await]:
    [enabled] is what [get] has answered. *)
Definition toggle_clicked (enabled : option bool) (st : Storage)
  : Storage * Changes :=
  set_enabled (negb (truthy_flag enabled)) st.


(** The [change] handler of the language selector. *)
Definition language_selected (value : string) (st : Storage)
  : Storage * Changes :=
  set_targetLang value st.

(** [loadTargetLanguage] after its first [await]: the value assigned to the
    selector, and the write, if there is one. *)
Definition loadTargetLanguage (targetLang : option string) (st : Storage)
  : string * (Storage * Changes) :=
  if truthy_opt targetLang then (default "" targetLang, (st, no_changes))
  else ("Korean", set_targetLang "Korean" st).

(** ** content.js *)

(** The variables of the content script that depend on the settings, and
    how often it has asked for a reload. *)
Record Script := {
  targetLanguage : string;
  started : bool;
  reloads : nat
}.

(** The script as its top-level [let]s leave it. *)
Definition loaded : Script :=
  {| targetLanguage := "Korean"; started := false; reloads := 0 |}.

(** [settings.targetLang || 'Korean'] *)
Definition stored_language (st : Storage) : string :=
  or_else (default "" (targetLang st)) "Korean".

(** [init], from the answer [settings] of [get] to [await waitForLoad()]. *)
Definition init (settings : Storage) (sc : Script) : Script :=
  if truthy_flag (enabled settings)
  then {| targetLanguage := stored_language settings; started := true;
          reloads := reloads sc |}
  else sc.

(** The [chrome.storage.onChanged] listener. *)
Definition on_changed (changes : Changes) (sc : Script) : Script :=
  let sc :=
    if truthy_flag (ch_enabled changes)
    then {| targetLanguage := targetLanguage sc; started := started sc;
            reloads := S (reloads sc) |}
    else sc in
  match ch_targetLang changes with
  | Some v => {| targetLanguage := v; started := started sc;
                 reloads := reloads sc |}
  | None => sc
  end.

(** ** sendToOCRServer *)

Record OcrRequest := {
  ocr_url : string;
  ocr_method : string;
  ocr_content_type : string;
  ocr_image : string;          (* [image] of the JSON body *)
  ocr_target_lang : string     (* [target_lang] of the JSON body *)
}.

(** What comes back: [fetch] rejects (no server, or the abort after
    120000 ms), or a response whose body is JSON or is not. *)
Inductive ServerAnswer :=
| NoAnswer
| Answer (ok : bool) (json : option Content.OcrResult).

(** [sendToOCRServer(imageDataUrl)]: the requests sent and the result. *)
Definition sendToOCRServer (isPageChanging : bool) (sc : Script)
  (imageDataUrl : string) (answer : ServerAnswer)
  : list OcrRequest * Content.OcrResult :=
  if isPageChanging then ([], Content.OcrNull)
  else
    ([{| ocr_url := "http://127.0.0.1:5000/ocr"; ocr_method := "POST";
         ocr_content_type := "application/json";
         ocr_image := imageDataUrl;
         ocr_target_lang := targetLanguage sc |}],
     match answer with
     | NoAnswer => Content.OcrNull
     | Answer false _ => Content.OcrNull
     | Answer true None => Content.OcrNull
     | Answer true (Some result) => result
     end).

(** ** The popup, the storage and one content script *)

Record World := {
  storage : Storage;
  pending : list Changes;     (* reported, not yet delivered to the script *)
  script : Script
}.

Inductive Label :=
| LToggle (enabled : option bool)         (* the toggle handler writes *)
| LSelect (value : string)                (* the selector changes *)
| LLoadLanguage (targetLang : option string)
                                          (* [loadTargetLanguage] goes on *)
| LDeliver.                               (* the listener is called *)

Definition write (r : Storage * Changes) (w : World) : World :=
  {| storage := fst r; pending := pending w ++ [snd r]; script := script w |}.

Definition step (w : World) (l : Label) : option World :=
  match l with
  | LToggle enabled => Some (write (toggle_clicked enabled (storage w)) w)
  | LSelect value => Some (write (language_selected value (storage w)) w)
  | LLoadLanguage targetLang =>
      Some (write (snd (loadTargetLanguage targetLang (storage w))) w)
  | LDeliver =>
      match pending w with
      | changes :: rest =>
          Some {| storage := storage w; pending := rest;
                  script := on_changed changes (script w) |}
      | [] => None
      end
  end.

Fixpoint run (w : World) (ls : list Label) : option World :=
  match ls with
  | [] => Some w
  | l :: ls' =>
      match step w l with
      | Some w' => run w' ls'
      | None => None
      end
  end.

(** The selector only has values that are not empty. *)
Definition sound (l : Label) : bool :=
  match l with LSelect value => truthy value | _ => true end.

(** The script once every pending change has been delivered. *)
Definition settled (w : World) : Script :=
  fold_left (fun sc changes => on_changed changes sc) (pending w) (script w).

End Settings.

(* ================================================================== *)
(** * The network, replayed *)
(* ================================================================== *)

Module Replay.
Import Background.

Section Answers.
Context {World : Type}.
Variable fetch : Request -> World -> FetchOutcome * World.

(** The network answering the requests [rs] one after the other, from the
    world [w]: its answers, and the world it leaves. *)
Fixpoint answers (rs : list Request) (w : World)
  : list FetchOutcome * World :=
  match rs with
  | [] => ([], w)
  | r :: rs' =>
      let '(o, w1) := fetch r w in
      let '(os, w2) := answers rs' w1 in
      (o :: os, w2)
  end.

End Answers.

(** The body of an answer with an OK status whose body can be read. *)
Definition body_of (o : option FetchOutcome) : option string :=
  match o with
  | Some (FetchResponse true _ (BodyBytes bytes)) => Some bytes
  | _ => None
  end.

(** The handler's world is the one its requests have left, and [imageBlob]
    is the body of the answer to the last of them. *)
Definition tied {World : Type}
  (fetch : Request -> World -> FetchOutcome * World)
  (w : World) (imageBlob : option string) (n : Net) : Prop :=
  world n = snd (answers fetch (sent n) w)
  /\ imageBlob = body_of (last (fst (answers fetch (sent n) w))).

End Replay.

(* ================================================================== *)
(** * From the content script to the offscreen document and back *)
(* ================================================================== *)

Module PixivPath.
Import JsString.

(** What [reader.onloadend] of the [FETCH_IMAGE_OFFSCREEN] handler does
    with the data URL.  [setup] is how its call of [setupOffscreenDocument]
    ends; when that throws, the callback ends there and [sendResponse] is
    never called.  [delivered] says whether [PROCESS_IMAGE_DATA] reaches the
    offscreen document; when it does not, [sendMessage] rejects, with the
    same end.  Otherwise the document answers by [handleImageData], [decode]
    giving the events of the image for a data URL, and the answer goes to
    [sendResponse]. *)
Definition offscreen_relay {World : Type} (setup : Setup.Result)
  (delivered : bool) (timer_first : bool) (cw ch : N)
  (decode : string -> list (N * Offscreen.ImgEvent))
  (dataUrl : string) (w : World) : Background.Reply * World :=
  match setup with
  | Setup.Threw _ => (Background.NoReply, w)
  | Setup.Returned =>
      if delivered then
        match Offscreen.handleImageData timer_first cw ch (decode dataUrl) with
        | Some r => (r, w)
        | None => (Background.NoReply, w)
        end
      else (Background.NoReply, w)
  end.

(** What the [FETCH_IMAGE_OFFSCREEN] handler answers to the message of
    [extractImageData]. *)
Definition offscreen_reply {World : Type}
  (fetch : Background.Request -> World -> Background.FetchOutcome * World)
  (readAsDataURL : string -> option string)
  (setup : Setup.Result) (delivered : bool)
  (timer_first : bool) (cw ch : N)
  (decode : string -> list (N * Offscreen.ImgEvent))
  (url referer : string) (w : World) : Background.Reply :=
  fst (Background.handle
         (Background.fetch_image_offscreen fetch readAsDataURL
            (offscreen_relay setup delivered timer_first cw ch decode)
            {| Background.msg_url := url; Background.msg_referer := referer |})
         w).

(** What [await chrome.runtime.sendMessage(...)] gives [extractImageData]
    when it goes on, for what the handler does: the argument of
    [sendResponse]; and when the handler never calls [sendResponse], no
    response at all ([sendMessage] throws). *)
Definition received (r : Background.Reply) (got : option Background.Reply)
  : Prop :=
  match r with
  | Background.NoReply => got = None
  | _ => got = Some r
  end.

(** The data the offscreen document makes of the events of an image:
    [None] when it answers with a failure. *)
Definition decoded (timer_first : bool)
  (events : list (N * Offscreen.ImgEvent)) : option string :=
  match events with
  | (t, Offscreen.OnLoad d) :: _ =>
      if Offscreen.due timer_first t then None
      else match Offscreen.dec_png d with
           | inl png => if truthy png then Some png else None
           | inr _ => None
           end
  | _ => None
  end.

End PixivPath.

(* ================================================================== *)
(** * More concrete cases *)
(* ================================================================== *)

Module Samples.
Import JsString Dom.

(** ** Lines *)

(** Twelve characters fit into the box. *)
Definition narrow (s : string) : bool := (12 <? String.length s)%nat.

(** ** background.js *)

(** Nothing answers. *)
Definition offline (r : Background.Request) (w : unit)
  : Background.FetchOutcome * unit :=
  (Background.FetchThrows "Failed to fetch", w).

(** Every URL is answered with an image. *)
Definition online (r : Background.Request) (w : unit)
  : Background.FetchOutcome * unit :=
  (Background.FetchResponse true 200 (Background.BodyBytes "JFIF"), w).

(** Every URL is refused. *)
Definition forbidden (r : Background.Request) (w : unit)
  : Background.FetchOutcome * unit :=
  (Background.FetchResponse false 403 (Background.BodyBytes ""), w).

(** The image loads in the offscreen document after 120 ms. *)
Definition decodes (dataUrl : string) : list (N * Offscreen.ImgEvent) :=
  [(120, Offscreen.OnLoad Examples.decoded_300x400)].

(** ** setupOffscreenDocument *)

(** Two calls, both told that there is no offscreen document yet. *)
Definition two_calls : Setup.State :=
  default Setup.init
    (Setup.run Setup.init
       [Setup.LCall; Setup.LCall; Setup.LContexts 0 0; Setup.LContexts 1 0]).

(** One call whose creation has failed. *)
Definition creation_failed : Setup.State :=
  default Setup.init
    (Setup.run Setup.init
       [Setup.LCall; Setup.LContexts 0 0;
        Setup.LSettle 0 (Some "Only a single offscreen document may be created.")]).

(** ** Elements *)

Definition full_size_url : string :=
  "https://i.pximg.net/img-master/img/2024/01/01/00/00/00/1_p0_master1200.jpg".



(** The same image, its second candidate written after a space and a
    no-break space (U+00A0, the bytes [C2 A0]). *)
Definition with_no_break_space : Img :=
  {| src := "https://example.org/small.jpg";
     currentSrc := "https://example.org/small.jpg";
     data_src := None;
     srcset :=
       Some ("https://example.org/small.jpg 1x, "
             +:+ String (ascii_of_N 194) (String (ascii_of_N 160) "")
             +:+ full_size_url +:+ " 2x");
     complete := true; naturalWidth := 540; naturalHeight := 540;
     width := 540; height := 540; originalPixivSrc := None;
     ocr_processing := false; toggle := no_toggle |}.

(** A Pixiv image after its admission. *)
Definition admitted_pixiv : Img :=
  set_originalPixivSrc (Some full_size_url) Examples.sample_square.

(** What [extractImageData] meets for it when the network and the offscreen
    document work and the element itself cannot be drawn. *)
Definition relayed : Content.AcquireEnv :=
  {| Content.offscreen_reply :=
       Some (PixivPath.offscreen_reply online Examples.data_url
               Setup.Returned true true 300 150
               decodes full_size_url Examples.pixiv_url tt);
     Content.draw := None;
     Content.background_reply := None;
     Content.redraw := None |}.

(** What it meets for an ordinary image that cannot be drawn and whose
    server refuses the background script. *)
Definition refused : Content.AcquireEnv :=
  {| Content.offscreen_reply := None;
     Content.draw := None;
     Content.background_reply :=
       Some (fst (Background.handle
                    (Background.fetch_image forbidden Examples.data_url
                       {| Background.msg_url := "https://example.org/page.png";
                          Background.msg_referer := Examples.page_url |})
                    tt));
     Content.redraw := None |}.

(** ** Runs of the content script *)

(** The page of [Examples.after_late_load], before the late load. *)
Definition tripped : Content.State :=
  default (Content.init ∅ "" [])
    (Content.run false (Content.init Examples.lazy_page Examples.page_url [2]%nat)
       [Content.LScan; Content.LScan; Content.LAdded 1; Content.LPopState]).

(** After the two pages of [Examples.after_two_items] a third one is put
    into the document. *)
Definition third_added : Content.State :=
  default (Content.init ∅ "" [])
    (Content.run false
       (Content.init Examples.two_pages Examples.page_url [1; 2]%nat)
       (Examples.two_items ++ [Content.LPage 3 Examples.page_image])).

(** A page with a small image between two large ones, scanned. *)
Definition mixed_page : gmap nat Img :=
  {[ 1%nat := Examples.page_image; 2%nat := Examples.thumbnail;
     3%nat := Examples.page_image ]}.

Definition mixed_scanned : Content.State :=
  default (Content.init ∅ "" [])
    (Content.run false
       (Content.init mixed_page Examples.page_url [1; 2; 3]%nat)
       [Content.LScan; Content.LScan; Content.LScan]).

(** ** Settings *)

(** The extension is enabled and no language has been chosen yet. *)
Definition fresh_storage : Settings.Storage :=
  {| Settings.enabled := Some true; Settings.targetLang := None |}.

Definition fresh_world : Settings.World :=
  {| Settings.storage := fresh_storage; Settings.pending := [];
     Settings.script := Settings.init fresh_storage Settings.loaded |}.

(** The popup opens and the user chooses Japanese. *)
Definition japanese : list Settings.Label :=
  [Settings.LLoadLanguage None; Settings.LSelect "Japanese";
   Settings.LDeliver; Settings.LDeliver].

Definition after_japanese : Settings.World :=
  default fresh_world (Settings.run fresh_world japanese).

End Samples.

(* ================================================================== *)
(** * Properties *)
(* ================================================================== *)

(** ** background.js *)

Section BackgroundFacts.
Import JsString Background.
Context {World : Type}.
Variable fetch : Request -> World -> FetchOutcome * World.
Variable readAsDataURL : string -> option string.
Variable relay : string -> World -> Reply * World.

(** The end of the handler sends nothing. *)
Lemma respond_sent (imageBlob : option string) (n : Net) :
  sent (snd (respond readAsDataURL relay imageBlob n)) = sent n.
Proof.
  unfold respond, do_relay, mret, M_ret.
  destruct imageBlob as [bytes|]; [|reflexivity].
  destruct (blob_size bytes =? 0); [reflexivity|].
  destruct (readAsDataURL bytes) as [dataUrl|]; [|reflexivity].
  destruct (relay dataUrl (world n)); reflexivity.
Qed.

(** An attempt sends one request. *)
Lemma attempt_sent (url : string) (n : Net) :
  sent (snd (attempt fetch url n)) = sent n ++ [image_request url].
Proof.
  unfold attempt, do_fetch, mbind, mret, M_bind, M_ret.
  destruct (fetch (image_request url) (world n)); reflexivity.
Qed.

(** A retry sends its request exactly when [imageBlob] is [null] and the
    original URL has the [_webp/] segment. *)
Lemma retry_sent (url alt : string) (imageBlob : option string) (n : Net) :
  sent (snd (retry fetch url alt imageBlob n))
  = if bool_decide (imageBlob = None) && includes url "_webp/"
    then sent n ++ [image_request alt] else sent n.
Proof.
  unfold retry. destruct (_ && _); [apply attempt_sent|reflexivity].
Qed.

(** A blob once there is kept. *)
Lemma retry_keeps (url alt bytes : string) (n : Net) :
  retry fetch url alt (Some bytes) n = (Some bytes, n).
Proof. reflexivity. Qed.

(** All the requests of [FETCH_IMAGE_OFFSCREEN], after each of its three
    stages. *)
Lemma offscreen_sent (message : Message) (w : World) :
  let url := msg_url message in
  let n0 := {| world := w; sent := [] |} in
  let r1 := attempt fetch url n0 in
  let r2 := retry fetch url (jpg_url url) (fst r1) (snd r1) in
  let r3 := retry fetch url (png_url url) (fst r2) (snd r2) in
  snd (handle (fetch_image_offscreen fetch readAsDataURL relay message) w)
  = sent (snd r3).
Proof.
  intros url n0 r1 r2 r3.
  unfold handle, fetch_image_offscreen, mbind, M_bind. fold url n0.
  fold r1. destruct r1 as [b1 n1] eqn:E1. simpl in r2.
  fold r2. destruct r2 as [b2 n2] eqn:E2. simpl in r3.
  fold r3. destruct r3 as [b3 n3] eqn:E3. simpl.
  pose proof (respond_sent b3 n3) as H.
  destruct (respond readAsDataURL relay b3 n3). exact H.
Qed.

(** [FETCH_IMAGE_OFFSCREEN] sends a prefix of the chain: the original URL
    first, the JPG variant only after it, the PNG variant only after
    both. *)
Lemma offscreen_requests_prefix (message : Message) (w : World) :
  snd (handle (fetch_image_offscreen fetch readAsDataURL relay message) w)
    `prefix_of` chain (msg_url message).
Proof.
  rewrite offscreen_sent. set (url := msg_url message).
  pose proof (attempt_sent url {| world := w; sent := [] |}) as A1.
  destruct (attempt fetch url _) as [b1 n1]. simpl in *.
  pose proof (retry_sent url (jpg_url url) b1 n1) as A2.
  destruct (retry fetch url (jpg_url url) b1 n1) as [b2 n2] eqn:E2.
  simpl in *.
  rewrite retry_sent, A2, A1. unfold chain. fold url.
  destruct (includes url "_webp/"); rewrite ?andb_false_r, ?andb_true_r.
  - destruct b1 as [bytes|]; simpl.
    + rewrite retry_keeps in E2. injection E2 as <- <-. simpl.
      exists [image_request (jpg_url url); image_request (png_url url)].
      reflexivity.
    + destruct b2; simpl;
        [exists [image_request (png_url url)]|exists []]; reflexivity.
  - exists [image_request (jpg_url url); image_request (png_url url)].
    reflexivity.
Qed.

(** [FETCH_IMAGE] sends one request. *)
Lemma fetch_image_requests (message : Message) (w : World) :
  snd (handle (fetch_image fetch readAsDataURL message) w)
  = [image_request (msg_url message)].
Proof.
  unfold handle, fetch_image, do_fetch, mbind, mret, M_bind, M_ret; simpl.
  destruct (fetch (image_request (msg_url message)) w) as [o w1]; reflexivity.
Qed.

(** When the original URL has the [_webp/] segment and its fetch gives no
    [Blob] at all (the fetch throws, the status is not OK, the body cannot be
    read), the JPG variant is the second request, and the PNG variant, if it
    is sent, is the third. *)
Lemma offscreen_falls_back_in_order (message : Message) (w : World) :
  includes (msg_url message) "_webp/" = true ->
  no_blob (fst (fetch (image_request (msg_url message)) w)) ->
  let sent := snd (handle (fetch_image_offscreen fetch readAsDataURL relay
                             message) w) in
  sent = [image_request (msg_url message);
          image_request (jpg_url (msg_url message))]
  \/ sent = chain (msg_url message).
Proof.
  intros Hw Hno. simpl.
  rewrite offscreen_sent. set (url := msg_url message) in *.
  assert (E : fst (attempt fetch url {| world := w; sent := [] |}) = None).
  { unfold attempt, do_fetch, mbind, mret, M_bind, M_ret. simpl.
    destruct (fetch (image_request url) w) as [o w1]. simpl in *.
    destruct o as [m|[] st [b|m]]; simpl in *; try reflexivity.
    contradiction. }
  pose proof (attempt_sent url {| world := w; sent := [] |}) as A1.
  destruct (attempt fetch url _) as [b1 n1]. simpl in *. subst b1.
  pose proof (retry_sent url (jpg_url url) None n1) as A2.
  destruct (retry fetch url (jpg_url url) None n1) as [b2 n2].
  simpl in *. rewrite Hw in A2. simpl in A2.
  rewrite retry_sent, A2, A1, Hw. unfold chain. fold url.
  destruct b2; simpl; [left|right]; reflexivity.
Qed.

End BackgroundFacts.

Section BackgroundClaims.
Import JsString Background.

(** C1.  A [200] answer without bytes to the original URL is a [Blob], so
    [imageBlob] is set and neither variant is requested: the handler answers
    "Failed to fetch image from all URLs" after one request, although the
    JPG variant would have been served. *)
Theorem C1_empty_original_skips_the_variants :
  handle (fetch_image_offscreen Examples.empty_then_image Examples.data_url
            Examples.echo_relay Examples.webp_message) tt
  = (ReplyFail all_failed, [image_request Examples.webp_url])
  /\ includes Examples.webp_url "_webp/" = true
  /\ fst (Examples.empty_then_image
            (image_request (jpg_url Examples.webp_url)) tt)
     = FetchResponse true 200 (BodyBytes "JFIF").
Proof. repeat split; vm_compute; reflexivity. Qed.

(** C7.  Every request of the two handlers is sent with
    [credentials: 'omit'] and without a header of the handler's own, whatever
    the message says the referring page is; the rule table then puts the
    fixed Pixiv referrer on a request to the Pixiv image host. *)
Theorem C7_credentials_omitted_fixed_referrer
  {World : Type} (fetch : Request -> World -> FetchOutcome * World)
  (readAsDataURL : string -> option string)
  (relay : string -> World -> Reply * World)
  (message : Message) (w : World) (r : Request) :
  r ∈ snd (handle (fetch_image fetch readAsDataURL message) w)
  \/ r ∈ snd (handle (fetch_image_offscreen fetch readAsDataURL relay message) w) ->
  req_credentials r = CredOmit
  /\ req_headers r = []
  /\ (includes (req_url r) "pximg.net" = true ->
      header "Referer" (apply_rules r) = Some pixiv_referrer).
Proof.
  intros H.
  assert (Hr : exists url, r = image_request url).
  { destruct H as [H|H].
    - rewrite fetch_image_requests in H.
      apply list_elem_of_singleton in H. eauto.
    - pose proof (offscreen_requests_prefix fetch readAsDataURL relay message w)
        as Hp.
      apply (fun H => elem_of_prefix _ _ _ H Hp) in H. unfold chain in H.
      rewrite !elem_of_cons in H.
      destruct H as [H|[H|[H|H]]]; eauto.
      apply elem_of_nil in H. contradiction. }
  destruct Hr as [url ->]. repeat split.
  intros Hp. unfold apply_rules. simpl in *. rewrite Hp. reflexivity.
Qed.

Lemma C7_witness :
  req_credentials (image_request Examples.webp_url) = CredOmit
  /\ req_headers (image_request Examples.webp_url) = []
  /\ (includes (req_url (image_request Examples.webp_url)) "pximg.net" = true ->
      header "Referer" (apply_rules (image_request Examples.webp_url))
      = Some pixiv_referrer).
Proof.
  apply (C7_credentials_omitted_fixed_referrer Examples.empty_then_image
           Examples.data_url Examples.echo_relay Examples.webp_message tt).
  right. vm_compute. left.
Defined.

End BackgroundClaims.

(** The header the first background script set by hand on a Pixiv URL is the
    one the rule table is taken to set. *)
Lemma first_generation_referer_pixiv (message : Background.Message) :
  JsString.includes (Background.msg_url message) "pximg.net" = true ->
  Background.first_generation_referer message = Background.pixiv_referrer.
Proof. intros H. unfold Background.first_generation_referer. rewrite H. reflexivity. Qed.

(** ** offscreen.js *)

Section OffscreenFacts.
Import Offscreen.

(** A settled promise stays as it is, whatever callback runs. *)
Lemma on_timeout_settled (st : Decode) (msg : string) :
  promise st = Rejected msg -> promise (on_timeout st) = Rejected msg.
Proof.
  intros H. unfold on_timeout. destruct (armed st); simpl; [|exact H].
  rewrite H. reflexivity.
Qed.

Lemma on_event_settled (e : ImgEvent) (st : Decode) (msg : string) :
  promise st = Rejected msg -> promise (on_event e st) = Rejected msg.
Proof.
  intros H. destruct e as [d|]; simpl; rewrite H.
  - destruct (dec_png d); reflexivity.
  - reflexivity.
Qed.

Lemma deliver_settled (timer_first : bool) (events : list (N * ImgEvent)) :
  forall (st : Decode) (msg : string),
    promise st = Rejected msg ->
    promise (deliver timer_first events st) = Rejected msg.
Proof.
  induction events as [|[t e] events IH]; intros st msg H; simpl.
  - apply on_timeout_settled, H.
  - apply IH, on_event_settled.
    destruct (due timer_first t); [apply on_timeout_settled|]; exact H.
Qed.

Lemma due_late (timer_first : bool) (t : N) :
  decode_timeout < t -> due timer_first t = true.
Proof.
  intros H. unfold due. apply N.ltb_lt in H. rewrite H. reflexivity.
Qed.

(** The request always gets an answer. *)
Lemma handleImageData_answers (timer_first : bool) (cw ch : N)
  (events : list (N * ImgEvent)) :
  is_Some (handleImageData timer_first cw ch events).
Proof.
  unfold handleImageData.
  assert (G : forall st, armed st = true \/ promise st <> Pending ->
                         promise (deliver timer_first events st) <> Pending).
  { induction events as [|[t e] events IH]; intros st H; simpl.
    - unfold on_timeout. destruct H as [H|H].
      + rewrite H. simpl. destruct (promise st); discriminate.
      + destruct (armed st); simpl; [|exact H].
        destruct (promise st); discriminate.
    - apply IH. right.
      set (st' := if due timer_first t then on_timeout st else st).
      destruct e as [d|]; simpl.
      + destruct (dec_png d), (promise st'); discriminate.
      + destruct (promise st'); discriminate. }
  specialize (G (start cw ch) (or_introl eq_refl)).
  destruct (promise (deliver timer_first events (start cw ch))); simpl.
  - contradiction.
  - eexists; reflexivity.
  - eexists; reflexivity.
Qed.

(** C8.  When no image event comes within the 10000 ms, the request is
    answered with the failure "Image load timeout"; the events that come
    later run their callbacks, but the answer stays: once the timer has
    rejected the promise, no callback changes it. *)
Theorem C8_timeout_then_late_decode
  (timer_first : bool) (cw ch : N) (events : list (N * ImgEvent)) :
  late events ->
  handleImageData timer_first cw ch events
  = Some (Background.ReplyFail timeout_error)
  /\ promise (on_timeout (start cw ch)) = Rejected timeout_error
  /\ forall (more : list (N * ImgEvent)) (st : Decode),
       promise st = Rejected timeout_error ->
       reply_of (promise (deliver timer_first more st))
       = Some (Background.ReplyFail timeout_error).
Proof.
  intros Hlate. split; [|split].
  - unfold handleImageData.
    destruct events as [|[t e] events]; simpl.
    + reflexivity.
    + apply Forall_cons in Hlate as [Ht _]. simpl in Ht.
      rewrite (due_late _ _ Ht).
      rewrite (deliver_settled _ _ _ timeout_error); [reflexivity|].
      apply on_event_settled. reflexivity.
  - reflexivity.
  - intros more st H. rewrite (deliver_settled _ _ _ _ H). reflexivity.
Qed.

Lemma C8_witness :
  handleImageData true 0 0 Examples.late_load
  = Some (Background.ReplyFail timeout_error).
Proof.
  refine (proj1 (C8_timeout_then_late_decode true 0 0 Examples.late_load _)).
  unfold late, Examples.late_load. constructor; [reflexivity|constructor].
Defined.

End OffscreenFacts.

(** ** replaceTextInImage *)

Section OverlayFacts.
Import JsString Dom Overlay.

(** Once a non-empty original is recorded with its one listener, nothing the
    overlay or a click does changes either. *)
Lemma act_keeps_original (o : string) (a : Action) (el : Img) :
  truthy o = true ->
  ds_original (toggle el) = Some o ->
  click_listeners (toggle el) = 1%nat ->
  ds_original (toggle (act a el)) = Some o
  /\ click_listeners (toggle (act a el)) = 1%nat.
Proof.
  intros Ho H1 H2. destruct a as [d|]; simpl.
  - unfold remember_original. rewrite H1. simpl. rewrite Ho. simpl.
    rewrite H1, H2. split; reflexivity.
  - unfold click. rewrite H2. simpl. unfold on_click.
    destruct (bool_decide _); simpl; rewrite H1, H2; split; reflexivity.
Qed.

Lemma acts_keep_original (o : string) (l : list Action) :
  forall el : Img,
    truthy o = true ->
    ds_original (toggle el) = Some o ->
    click_listeners (toggle el) = 1%nat ->
    ds_original (toggle (acts l el)) = Some o
    /\ click_listeners (toggle (acts l el)) = 1%nat.
Proof.
  induction l as [|a l IH]; intros el Ho H1 H2; simpl.
  - split; assumption.
  - destruct (act_keeps_original o a el Ho H1 H2) as [H1' H2'].
    apply IH; assumption.
Qed.

(** The first pass on a fresh element with a source. *)
Lemma first_pass (d : string) (el : Img) :
  truthy_opt (ds_original (toggle el)) = false ->
  click_listeners (toggle el) = 0%nat ->
  ds_original (toggle (act (Pass d) el)) = Some (src el)
  /\ click_listeners (toggle (act (Pass d) el)) = 1%nat.
Proof.
  intros H1 H2. simpl. unfold remember_original. rewrite H1. simpl.
  rewrite H2. split; reflexivity.
Qed.

(** The guard does what it is there for when the recorded source is not
    empty.  For an element that has a non-empty [src], no truthy
    [dataset.original] and no listener yet: after its first overlay and
    whatever passes and clicks follow, [dataset.original] is the source the
    element had before the first overlay and exactly one listener is
    registered; a further pass only sets [dataset.translated],
    [dataset.showing] and [src]; and a click while the translation shows
    puts that first source back. *)
Lemma original_recorded_once
  (el0 : Img) (d : string) (l : list Action) :
  truthy (src el0) = true ->
  truthy_opt (ds_original (toggle el0)) = false ->
  click_listeners (toggle el0) = 0%nat ->
  let el := acts (Pass d :: l) el0 in
  ds_original (toggle el) = Some (src el0)
  /\ click_listeners (toggle el) = 1%nat
  /\ (forall d' : string,
        replaceTextInImage false (Loaded d') el = show_translated d' el)
  /\ (ds_showing (toggle el) = Some "translated" ->
      src (click el) = src el0
      /\ ds_showing (toggle (click el)) = Some "original"
      /\ ds_original (toggle (click el)) = Some (src el0)).
Proof.
  intros Hsrc Hfresh Hnone el.
  destruct (first_pass d el0 Hfresh Hnone) as [F1 F2].
  destruct (acts_keep_original (src el0) l (act (Pass d) el0) Hsrc F1 F2)
    as [H1 H2].
  change (acts l (act (Pass d) el0)) with el in H1, H2.
  split; [exact H1|]. split; [exact H2|]. split.
  - intros d'. simpl. unfold remember_original. rewrite H1. simpl.
    rewrite Hsrc. reflexivity.
  - intros Hshow. unfold click. rewrite H2. simpl. unfold on_click.
    rewrite Hshow. simpl. rewrite H1. simpl. repeat split; reflexivity.
Qed.


End OverlayFacts.


(** ** The drain loop is sequential *)

Section SerialFacts.
Import JsString Dom Content Trace.

Lemma same_refl (e : nat) (fl : Flight) : same e e fl = Some fl.
Proof. unfold same. rewrite bool_decide_eq_true_2; reflexivity. Qed.

(** Closes the four fields of [Serial] or [Turn] after a state update, from
    the facts [H1], [H3], [H4] about the state before. *)
Ltac fields H1 H3 H4 :=
  split; simpl; rewrite ?H1, ?H3, ?H4;
  repeat (progress (simpl; rewrite ?same_refl, ?H4));
  rewrite ?bool_decide_eq_true_2 by reflexivity; auto.

(** [Serial] and [Turn] read four fields only. *)
Lemma Serial_fields (s s' : State) :
  drains s' = drains s -> isProcessing s' = isProcessing s ->
  trace s' = trace s -> processingQueue s' = processingQueue s ->
  Serial s -> Serial s'.
Proof.
  intros Hd Hp Ht Hq [H1 H2 H3 H4].
  split; rewrite ?Hd, ?Hp, ?Ht, ?Hq; assumption.
Qed.

Lemma Turn_fields (fl : Flight) (s s' : State) :
  drains s' = drains s -> isProcessing s' = isProcessing s ->
  trace s' = trace s -> processingQueue s' = processingQueue s ->
  Turn fl s -> Turn fl s'.
Proof.
  intros Hd Hp Ht Hq [H1 H2 H3 H4].
  split; rewrite ?Hd, ?Hp, ?Ht, ?Hq; assumption.
Qed.

Lemma item_returns_serial (e : nat) (threw : bool) (s : State) :
  Turn (Popped e) s -> Serial (item_returns e threw s).
Proof.
  intros [H1 H2 H3 H4]. unfold item_returns, suspend, log. fields H1 H3 H4.
Qed.

Lemma processImage_serial (e : nat) (s : State) :
  Turn (Popped e) s -> Serial (processImage e s).
Proof.
  intros T. unfold processImage.
  destruct (isPageChanging s); [apply item_returns_serial, T|].
  destruct (bool_decide _); [apply item_returns_serial, T|].
  destruct T as [H1 H2 H3 H4]. unfold suspend, log, update_img.
  fields H1 H3 H4.
Qed.

Lemma finish_serial (s : State) : Turn Idle s -> Serial (finish s).
Proof. intros [H1 H2 H3 H4]. unfold finish. fields H1 H3 H4. Qed.

Lemma next_item_serial (s : State) : Turn Idle s -> Serial (next_item s).
Proof.
  intros T. unfold next_item.
  destruct (processingQueue s) as [|e rest] eqn:Hq; [apply finish_serial, T|].
  destruct (isPageChanging s); [apply finish_serial, T|].
  apply processImage_serial.
  destruct T as [H1 H2 H3 H4]. rewrite Hq in H4. unfold log.
  fields H1 H3 H4.
Qed.

Lemma processQueue_serial (s : State) : Serial s -> Serial (processQueue s).
Proof.
  intros S. unfold processQueue.
  destruct (isProcessing s) eqn:Hp; simpl; [exact S|].
  destruct (bool_decide (processingQueue s = [])); [exact S|].
  apply next_item_serial.
  destruct S as [H1 H2 H3 H4]. rewrite Hp in H2.
  symmetry in H2. apply bool_decide_eq_false in H2.
  assert (Hd : drains s = []).
  { destruct (drains s); [reflexivity|]. exfalso. apply H2. discriminate. }
  rewrite Hd in H3. fields Hd H3 H4.
Qed.

Lemma after_item_serial (e : nat) (threw : bool) (s : State) :
  Turn Idle s -> Serial (after_item e threw s).
Proof.
  intros T. unfold after_item.
  assert (T' : Turn Idle (if threw then fail e s else s))
    by (destruct threw; [apply (Turn_fields _ s); auto|exact T]).
  destruct (isPageChanging _); [apply finish_serial|apply next_item_serial];
    exact T'.
Qed.

Lemma after_extract_serial (e : nat) (imageData : option string) (s : State) :
  Turn (Acquiring e) s -> Serial (after_extract e imageData s).
Proof.
  intros [H1 H2 H3 H4]. unfold after_extract.
  assert (T : Turn (Popped e) (log (EvAcquired e) s))
    by (unfold log; fields H1 H3 H4).
  assert (R : Serial
                (let s0 := unmark e (log (EvAcquired e) s) in
                 item_returns e false
                   (if isPageChanging s0 then s0 else fail e s0))).
  { apply item_returns_serial.
    destruct (isPageChanging _); apply (Turn_fields _ (log (EvAcquired e) s));
      auto. }
  destruct imageData as [data|]; [|exact R].
  destruct (negb (truthy data) || isPageChanging _); [exact R|].
  unfold suspend, log. fields H1 H3 H4.
Qed.

Lemma after_ocr_serial (e : nat) (r : OcrResult) (s : State) :
  Turn (Submitted e) s -> Serial (after_ocr e r s).
Proof.
  intros [H1 H2 H3 H4]. unfold after_ocr.
  assert (T : Turn (Popped e) (log (EvOcrDone e) s))
    by (unfold log; fields H1 H3 H4).
  assert (U : Turn (Popped e) (unmark e (log (EvOcrDone e) s)))
    by (apply (Turn_fields _ (log (EvOcrDone e) s)); auto).
  assert (F : Turn (Popped e) (fail e (unmark e (log (EvOcrDone e) s))))
    by (apply (Turn_fields _ (log (EvOcrDone e) s)); auto).
  destruct (isPageChanging _); [apply item_returns_serial, U|].
  destruct r as [| |[|b bs]|]; try (apply item_returns_serial; assumption).
  unfold suspend, log. fields H1 H3 H4.
Qed.

Lemma after_overlay_serial (e : nat) (d : Overlay.Decode) (s : State) :
  Turn (Overlaying e) s -> Serial (after_overlay e d s).
Proof.
  intros [H1 H2 H3 H4]. unfold after_overlay.
  apply item_returns_serial. unfold unmark, log, update_img.
  fields H1 H3 H4.
Qed.

Lemma resume_serial (k : nat) (o : Outcome) (s s' : State) :
  Serial s -> resume k o s = Some s' -> Serial s'.
Proof.
  intros [H1 H2 H3 H4]. unfold resume.
  destruct (drains s) as [|st [|st' ds]] eqn:Hd; simpl in H1; [ | |lia].
  - destruct k; discriminate.
  - destruct k as [|[|k]]; simpl; try discriminate.
    assert (T : Turn (flight_at [st]) (set_drains [] s)).
    { split; simpl; auto. }
    destruct st, o; try discriminate; intros [= <-]; simpl in T.
    + apply after_extract_serial, T.
    + apply after_ocr_serial, T.
    + apply after_overlay_serial, T.
    + apply after_item_serial, T.
Qed.

Lemma enqueue_serial (e : nat) (s : State) : Serial s -> Serial (enqueue e s).
Proof. intros [H1 H2 H3 H4]. unfold enqueue, log. fields H1 H3 H4. Qed.

Lemma accept_serial (drain : bool) (w : Wait) (s : State) :
  Serial s -> Serial (accept drain w s).
Proof.
  intros S. destruct w as [e originalSrc|e]; simpl.
  - unfold accept_pixiv. destruct (_ && _); [|exact S].
    destruct drain; [apply processQueue_serial|]; apply enqueue_serial;
      apply (Serial_fields s); auto.
  - unfold accept_generic. destruct (_ && _); [|exact S].
    destruct drain; [apply processQueue_serial|]; apply enqueue_serial;
      apply (Serial_fields s); auto.
Qed.

Lemma inspect_serial (isPixiv drain : bool) (e : nat) (s s' : State) :
  Serial s -> inspect isPixiv drain e s = inl s' -> Serial s'.
Proof.
  intros S. unfold inspect. destruct isPixiv.
  - destruct (pixiv_source _); [|intros [= <-]; exact S].
    destruct (_ || _); [discriminate|]. intros [= <-].
    apply (accept_serial drain (WaitPixiv e _)), S.
  - destruct (negb _); [discriminate|]. intros [= <-].
    apply (accept_serial drain (WaitGeneric e)), S.
Qed.

Lemma log_call_serial (e : nat) (s : State) :
  Serial s -> Serial (log (EvCall e) s).
Proof. intros [H1 H2 H3 H4]. unfold log. fields H1 H3 H4. Qed.

Lemma handleNewImage_serial (isPixiv : bool) (e : nat) (s : State) :
  Serial s -> Serial (handleNewImage isPixiv e s).
Proof.
  intros S. unfold handleNewImage. destruct (_ || _); [exact S|].
  pose proof (log_call_serial e s S) as S'.
  destruct (inspect _ _ _ _) as [s'|w] eqn:Hi.
  - apply (inspect_serial _ _ _ _ _ S' Hi).
  - apply (Serial_fields (log (EvCall e) s)); auto.
Qed.

Lemma stop_serial (forget : bool) (s : State) : Serial s -> Serial (stop forget s).
Proof.
  intros [H1 H2 H3 H4]. unfold stop, log.
  destruct (imageObserver _); [destruct forget|]; fields H1 H3 H4.
Qed.

Lemma step_serial (isPixiv : bool) (s s' : State) (l : Label) :
  Serial s -> step isPixiv s l = Some s' -> Serial s'.
Proof.
  intros S. destruct l; simpl.
  - destruct (phase s) as [[|e todo]|w todo|]; try discriminate.
    + intros [= <-]. apply processQueue_serial, (Serial_fields s); auto.
    + destruct (inspect _ _ _ _) as [s0|w] eqn:Hi; intros [= <-].
      * apply (Serial_fields s0); auto. apply (inspect_serial _ _ _ _ _ S Hi).
      * apply (Serial_fields s); auto.
  - destruct (phase s) as [todo|w todo|]; try discriminate.
    intros [= <-]. apply (Serial_fields (accept false w s)); auto.
    apply accept_serial, S.
  - destruct (observing s); [|discriminate]. intros [= <-].
    apply handleNewImage_serial, S.
  - destruct (observing s); [|discriminate].
    destruct (_ || _); intros [= <-]; [exact S|].
    apply handleNewImage_serial, S.
  - destruct (loads s !! k) as [w|]; [|discriminate]. intros [= <-].
    apply accept_serial, (Serial_fields s); auto.
  - apply resume_serial, S.
  - intros [= <-]. apply (Serial_fields s); auto.
  - intros [= <-]. apply (Serial_fields s); auto.
  - destruct (running s); [|discriminate]. intros [= <-].
    unfold on_document_mutation. destruct (String.eqb _ _); [exact S|].
    apply (Serial_fields (stop true s)); auto. apply stop_serial, S.
  - destruct (running s); [|discriminate]. intros [= <-]. apply stop_serial, S.
  - destruct (running s); [|discriminate]. intros [= <-]. apply stop_serial, S.
Qed.

Lemma run_serial (isPixiv : bool) (ls : list Label) :
  forall s s' : State, Serial s -> run isPixiv s ls = Some s' -> Serial s'.
Proof.
  induction ls as [|l ls IH]; intros s s' S; simpl.
  - intros [= <-]. exact S.
  - destruct (step isPixiv s l) as [s1|] eqn:Hs; [|discriminate].
    apply IH, (step_serial _ _ _ _ S Hs).
Qed.

Lemma init_serial (d : gmap nat Img) (url : string) (imgs : list nat) :
  Serial (init d url imgs).
Proof. split; simpl; auto. Qed.

Lemma reachable_serial (isPixiv : bool) (s : State) :
  reachable isPixiv s -> Serial s.
Proof.
  intros (d & url & imgs & ls & Hrun).
  apply (run_serial _ _ _ _ (init_serial d url imgs) Hrun).
Qed.

(** A readable trace has readable older parts. *)
Lemma flight_of_older (newer older : list Event) (fl : Flight) :
  flight_of (newer ++ older) = Some fl -> is_Some (flight_of older).
Proof.
  revert fl. induction newer as [|ev newer IH]; intros fl; simpl.
  - eauto.
  - destruct (flight_of (newer ++ older)) as [fl'|] eqn:E; [|discriminate].
    intros _. apply (IH fl'). reflexivity.
Qed.

Lemma queue_of_older (newer older : list Event) (q : list nat) :
  queue_of (newer ++ older) = Some q -> is_Some (queue_of older).
Proof.
  revert q. induction newer as [|ev newer IH]; intros q; simpl.
  - eauto.
  - destruct (queue_of (newer ++ older)) as [q'|] eqn:E; [|discriminate].
    intros _. apply (IH q'). reflexivity.
Qed.

(** C4.  In every state the script can reach: at most one [processQueue]
    loop is suspended, and [isProcessing] is set exactly when one is; the
    trace reads as the work of a pipeline that holds one item at a time, so
    whenever a request went to the OCR server no other step of any item was
    in flight, and whenever an item was taken from the queue the item before
    it had returned from [processImage]; and every item taken was, at that
    moment, the oldest one still in the queue. *)
Theorem C4_drain_is_sequential (isPixiv : bool) (s : State) :
  reachable isPixiv s ->
  (length (drains s) <= 1)%nat
  /\ isProcessing s = bool_decide (drains s <> [])
  /\ flight_of (trace s) = Some (flight_at (drains s))
  /\ queue_of (trace s) = Some (processingQueue s)
  /\ (forall newer older e,
        trace s = newer ++ EvOcr e :: older ->
        flight_of older = Some (Popped e))
  /\ (forall newer older e,
        trace s = newer ++ EvShift e :: older ->
        flight_of older = Some Idle
        /\ exists rest, queue_of older = Some (e :: rest)).
Proof.
  intros R. destruct (reachable_serial _ _ R) as [H1 H2 H3 H4].
  repeat split; try assumption.
  - intros newer older e E. rewrite E in H3.
    destruct (flight_of_older _ _ _ H3) as [fl Hfl]. simpl in Hfl.
    destruct (flight_of older) as [[]|]; simpl in Hfl; try discriminate.
    unfold same in Hfl. case_bool_decide; [subst; reflexivity|discriminate].
  - rewrite H in H3. destruct (flight_of_older _ _ _ H3) as [fl Hfl].
    simpl in Hfl.
    destruct (flight_of older) as [[]|]; simpl in Hfl; try discriminate.
    reflexivity.
  - rewrite H in H4. destruct (queue_of_older _ _ _ H4) as [q Hq].
    simpl in Hq.
    destruct (queue_of older) as [[|h t]|]; simpl in Hq; try discriminate.
    case_bool_decide; [subst; eauto|discriminate].
Qed.

Lemma C4_witness :
  (length (drains Examples.after_two_items) <= 1)%nat
  /\ flight_of (trace Examples.after_two_items)
     = Some (flight_at (drains Examples.after_two_items))
  /\ queue_of (trace Examples.after_two_items)
     = Some (processingQueue Examples.after_two_items).
Proof.
  assert (R : reachable false Examples.after_two_items).
  { exists Examples.two_pages, Examples.page_url, [1; 2]%nat, Examples.two_items.
    vm_compute. reflexivity. }
  pose proof (C4_drain_is_sequential false _ R) as H.
  split; [exact (proj1 H)|]. split; [exact (proj1 (proj2 (proj2 H)))|].
  exact (proj1 (proj2 (proj2 (proj2 H)))).
Defined.

End SerialFacts.

(** ** The three sets *)

Section BooksFacts.
Import JsString Dom Content Trace.

(** [set.add(e)] *)
Lemma elem_of_add (e : nat) (A : gset nat) : e ∈ {[e]} ∪ A.
Proof. apply elem_of_union_l, elem_of_singleton. reflexivity. Qed.

Lemma elem_of_add_ne (e e' : nat) (A : gset nat) :
  e <> e' -> e' ∈ {[e]} ∪ A <-> e' ∈ A.
Proof.
  intros Hne. rewrite elem_of_union, elem_of_singleton. split.
  - intros [H|H]; [congruence|exact H].
  - intros H. right. exact H.
Qed.

Lemma add_failed_keeps (e : nat) (F P : gset nat) :
  e ∈ P -> F ⊆ P -> {[e]} ∪ F ⊆ P.
Proof.
  intros He Hs x Hx. apply elem_of_union in Hx as [Hx|Hx].
  - apply elem_of_singleton in Hx. subst x. exact He.
  - apply Hs, Hx.
Qed.

Lemma add_processed_keeps (e : nat) (F P : gset nat) :
  F ⊆ P -> F ⊆ {[e]} ∪ P.
Proof. intros Hs x Hx. apply elem_of_union_r, Hs, Hx. Qed.

Lemma Books_fields (s s' : State) :
  drains s' = drains s -> processedImages s' = processedImages s ->
  failedImages s' = failedImages s -> Books s -> Books s'.
Proof.
  intros Hd Hp Hf [H1 H2 H3].
  split; rewrite ?Hd, ?Hp, ?Hf; assumption.
Qed.

(** With no loop suspended only the inclusion is left. *)
Lemma Books_idle (s : State) :
  drains s = [] -> failedImages s ⊆ processedImages s -> Books s.
Proof.
  intros Hd Hf. split; [exact Hf| |]; rewrite Hd.
  - intros st e H. apply elem_of_nil in H. contradiction.
  - intros e H. apply elem_of_nil in H. contradiction.
Qed.

Lemma item_returns_books (e : nat) (threw : bool) (s : State) :
  drains s = [] -> failedImages s ⊆ processedImages s ->
  (threw = true -> e ∈ processedImages s) ->
  Books (item_returns e threw s).
Proof.
  intros Hd Hf Ht. unfold item_returns, suspend, log.
  split; simpl; rewrite ?Hd; simpl; [exact Hf| |].
  - intros st e' H. apply list_elem_of_singleton in H as ->. discriminate.
  - intros e' H. apply list_elem_of_singleton in H.
    injection H as -> Hth. apply Ht. congruence.
Qed.

Lemma processImage_books (e : nat) (s : State) :
  drains s = [] -> failedImages s ⊆ processedImages s ->
  Books (processImage e s).
Proof.
  intros Hd Hf. unfold processImage.
  destruct (isPageChanging s); [apply item_returns_books; auto; discriminate|].
  case_bool_decide as Hin; [apply item_returns_books; auto; discriminate|].
  unfold suspend, log, update_img. split; simpl; rewrite ?Hd; simpl.
  - apply add_processed_keeps, Hf.
  - intros st e' H. apply list_elem_of_singleton in H as ->.
    intros [= <-]. split; [apply elem_of_add|].
    intros Hfail. apply Hin, Hf, Hfail.
  - intros e' H. apply list_elem_of_singleton in H. discriminate.
Qed.

Lemma next_item_books (s : State) :
  drains s = [] -> failedImages s ⊆ processedImages s -> Books (next_item s).
Proof.
  intros Hd Hf. unfold next_item.
  destruct (processingQueue s) as [|e rest]; [apply Books_idle; auto|].
  destruct (isPageChanging s); [apply Books_idle; auto|].
  apply processImage_books; auto.
Qed.

Lemma processQueue_books (s : State) :
  Serial s -> Books s -> Books (processQueue s).
Proof.
  intros [_ Hb _ _] B. unfold processQueue.
  destruct (isProcessing s) eqn:Hp; simpl; [exact B|].
  destruct (bool_decide (processingQueue s = [])); [exact B|].
  symmetry in Hb. apply bool_decide_eq_false in Hb.
  assert (Hd : drains s = []).
  { destruct (drains s); [reflexivity|]. exfalso. apply Hb. discriminate. }
  apply next_item_books; [exact Hd|]. apply (books_failed _ B).
Qed.

Lemma after_item_books (e : nat) (threw : bool) (s : State) :
  drains s = [] -> failedImages s ⊆ processedImages s ->
  (threw = true -> e ∈ processedImages s) ->
  Books (after_item e threw s).
Proof.
  intros Hd Hf Ht. unfold after_item.
  assert (Hf' : failedImages (if threw then fail e s else s)
                ⊆ processedImages (if threw then fail e s else s)).
  { destruct threw; simpl; [|exact Hf]. apply add_failed_keeps; auto. }
  assert (Hd' : drains (if threw then fail e s else s) = [])
    by (destruct threw; exact Hd).
  destruct (isPageChanging _); [apply Books_idle|apply next_item_books]; auto.
Qed.

Lemma after_extract_books (e : nat) (imageData : option string) (s : State) :
  drains s = [] -> failedImages s ⊆ processedImages s ->
  e ∈ processedImages s -> e ∉ failedImages s ->
  Books (after_extract e imageData s).
Proof.
  intros Hd Hf Hp Hn. unfold after_extract.
  assert (R : Books
                (let s0 := unmark e (log (EvAcquired e) s) in
                 item_returns e false
                   (if isPageChanging s0 then s0 else fail e s0))).
  { apply item_returns_books; try discriminate.
    - destruct (isPageChanging _); exact Hd.
    - destruct (isPageChanging _); simpl;
        [exact Hf|apply add_failed_keeps; assumption]. }
  destruct imageData as [data|]; [|exact R].
  destruct (negb (truthy data) || isPageChanging _); [exact R|].
  unfold suspend, log. split; simpl; rewrite ?Hd; simpl; [exact Hf| |].
  - intros st e' H. apply list_elem_of_singleton in H as ->.
    intros [= <-]. auto.
  - intros e' H. apply list_elem_of_singleton in H. discriminate.
Qed.

Lemma after_ocr_books (e : nat) (r : OcrResult) (s : State) :
  drains s = [] -> failedImages s ⊆ processedImages s ->
  e ∈ processedImages s -> e ∉ failedImages s ->
  Books (after_ocr e r s).
Proof.
  intros Hd Hf Hp Hn. unfold after_ocr.
  destruct (isPageChanging _); [apply item_returns_books; auto; discriminate|].
  destruct r as [| |[|b bs]|].
  - apply item_returns_books; simpl; auto; try discriminate.
    apply add_failed_keeps; assumption.
  - apply item_returns_books; simpl; auto; try discriminate.
    apply add_failed_keeps; assumption.
  - apply item_returns_books; simpl; auto; discriminate.
  - unfold suspend, log. split; simpl; rewrite ?Hd; simpl; [exact Hf| |].
    + intros st e' H. apply list_elem_of_singleton in H as ->.
      intros [= <-]. auto.
    + intros e' H. apply list_elem_of_singleton in H. discriminate.
  - apply item_returns_books; simpl; auto.
Qed.

Lemma after_overlay_books (e : nat) (d : Overlay.Decode) (s : State) :
  drains s = [] -> failedImages s ⊆ processedImages s ->
  Books (after_overlay e d s).
Proof.
  intros Hd Hf. unfold after_overlay.
  apply item_returns_books; simpl; auto; discriminate.
Qed.

Lemma resume_books (k : nat) (o : Outcome) (s s' : State) :
  Serial s -> Books s -> resume k o s = Some s' -> Books s'.
Proof.
  intros [H1 _ _ _] [B1 B2 B3]. unfold resume.
  destruct (drains s) as [|st [|st' ds]] eqn:Hd; simpl in H1; [ | |lia].
  - destruct k; discriminate.
  - destruct k as [|[|k]]; simpl; try discriminate.
    assert (Hin : st ∈ [st]) by (apply list_elem_of_singleton; reflexivity).
    destruct st, o; try discriminate; intros [= <-].
    + destruct (B2 _ e Hin eq_refl). apply after_extract_books; auto.
    + destruct (B2 _ e Hin eq_refl). apply after_ocr_books; auto.
    + apply after_overlay_books; auto.
    + apply after_item_books; auto. intros ->. apply B3, Hin.
Qed.

Lemma accept_books (drain : bool) (w : Wait) (s : State) :
  Serial s -> Books s -> Books (accept drain w s).
Proof.
  intros S B. destruct w as [e originalSrc|e]; simpl.
  - unfold accept_pixiv. destruct (_ && _); [|exact B].
    match goal with
    | |- Books (if drain then processQueue ?x else ?x) =>
        assert (Books x) by (apply (Books_fields s); auto);
        assert (Serial x)
          by (apply enqueue_serial, (Serial_fields s); auto)
    end.
    destruct drain; [apply processQueue_books|]; assumption.
  - unfold accept_generic. destruct (_ && _); [|exact B].
    match goal with
    | |- Books (if drain then processQueue ?x else ?x) =>
        assert (Books x) by (apply (Books_fields s); auto);
        assert (Serial x)
          by (apply enqueue_serial, (Serial_fields s); auto)
    end.
    destruct drain; [apply processQueue_books|]; assumption.
Qed.

Lemma inspect_books (isPixiv drain : bool) (e : nat) (s s' : State) :
  Serial s -> Books s -> inspect isPixiv drain e s = inl s' -> Books s'.
Proof.
  intros S B. unfold inspect. destruct isPixiv.
  - destruct (pixiv_source _); [|intros [= <-]; exact B].
    destruct (_ || _); [discriminate|]. intros [= <-].
    apply (accept_books drain (WaitPixiv e _)); assumption.
  - destruct (negb _); [discriminate|]. intros [= <-].
    apply (accept_books drain (WaitGeneric e)); assumption.
Qed.

Lemma handleNewImage_books (isPixiv : bool) (e : nat) (s : State) :
  Serial s -> Books s -> Books (handleNewImage isPixiv e s).
Proof.
  intros S B. unfold handleNewImage. destruct (_ || _); [exact B|].
  pose proof (log_call_serial e s S) as S'.
  assert (B' : Books (log (EvCall e) s)) by (apply (Books_fields s); auto).
  destruct (inspect _ _ _ _) as [s'|w] eqn:Hi.
  - apply (inspect_books _ _ _ _ _ S' B' Hi).
  - apply (Books_fields s); auto.
Qed.

Lemma stop_books (forget : bool) (s : State) : Books s -> Books (stop forget s).
Proof.
  intros B. unfold stop.
  destruct (imageObserver _); [destruct forget|];
    apply (Books_fields s); auto.
Qed.

Lemma step_books (isPixiv : bool) (s s' : State) (l : Label) :
  Serial s -> Books s -> step isPixiv s l = Some s' -> Books s'.
Proof.
  intros S B. destruct l; simpl.
  - destruct (phase s) as [[|e todo]|w todo|]; try discriminate.
    + intros [= <-]. apply processQueue_books.
      * apply (Serial_fields s); auto.
      * apply (Books_fields s); auto.
    + destruct (inspect _ _ _ _) as [s0|w] eqn:Hi; intros [= <-].
      * apply (Books_fields s0); auto. apply (inspect_books _ _ _ _ _ S B Hi).
      * apply (Books_fields s); auto.
  - destruct (phase s) as [todo|w todo|]; try discriminate.
    intros [= <-]. apply (Books_fields (accept false w s)); auto.
    apply accept_books; assumption.
  - destruct (observing s); [|discriminate]. intros [= <-].
    apply handleNewImage_books; assumption.
  - destruct (observing s); [|discriminate].
    destruct (_ || _); intros [= <-]; [exact B|].
    apply handleNewImage_books; assumption.
  - destruct (loads s !! k) as [w|]; [|discriminate]. intros [= <-].
    apply accept_books.
    + apply (Serial_fields s); auto.
    + apply (Books_fields s); auto.
  - apply resume_books; assumption.
  - intros [= <-]. apply (Books_fields s); auto.
  - intros [= <-]. apply (Books_fields s); auto.
  - destruct (running s); [|discriminate]. intros [= <-].
    unfold on_document_mutation. destruct (String.eqb _ _); [exact B|].
    apply (Books_fields (stop true s)); auto. apply stop_books, B.
  - destruct (running s); [|discriminate]. intros [= <-]. apply stop_books, B.
  - destruct (running s); [|discriminate]. intros [= <-]. apply stop_books, B.
Qed.

Lemma reachable_books (isPixiv : bool) (s : State) :
  reachable isPixiv s -> Books s.
Proof.
  intros (d & url & imgs & ls & Hrun).
  assert (G : forall ls s0 s1, Serial s0 -> Books s0 ->
                               run isPixiv s0 ls = Some s1 -> Books s1).
  { clear. induction ls as [|l ls IH]; intros s0 s1 S B; simpl.
    - intros [= <-]. exact B.
    - destruct (step isPixiv s0 l) as [s2|] eqn:Hs; [|discriminate].
      apply IH; [apply (step_serial _ _ _ _ S Hs)|apply (step_books _ _ _ _ S B Hs)]. }
  apply (G ls (init d url imgs)); [apply init_serial| |exact Hrun].
  apply Books_idle; simpl; [reflexivity|].
  intros x Hx. apply elem_of_empty in Hx. contradiction.
Qed.

(** C2, amended.  In the current content script, when the OCR server answers
    an item with an empty [text_blocks] list: the item is in
    [processedImages], it is not in [failedImages] (which is left as it
    was, also by the loop when it goes on), [processImage] returns at once,
    and no overlay is started.  In the first content script (src/content.js)
    the same answer puts the item into [failedImages]; there too it is
    processed and no overlay is started. *)
Theorem C2_empty_text_blocks
  (isPixiv : bool) (s : State) (k e : nat) (data : string)
  (sc : Legacy.Script) (env : Legacy.ItemEnv) :
  reachable isPixiv s ->
  drains s !! k = Some (AwaitOcr e data) ->
  Legacy.isPageChanging sc = false ->
  e ∉ Legacy.processedImages sc ->
  truthy_opt (Legacy.extracted env) = true ->
  Legacy.trip_while_extracting env = false ->
  Legacy.trip_while_ocr env = false ->
  Legacy.ocr env = OcrBlocks [] ->
  (exists s',
      step isPixiv s (LComplete k (OcrReplied (OcrBlocks []))) = Some s'
      /\ e ∈ processedImages s'
      /\ (e ∉ failedImages s')
      /\ failedImages s' = failedImages s
      /\ trace s' = EvReturn e :: EvOcrDone e :: trace s
      /\ drains s' = [AwaitItem e false]
      /\ (forall s'', step isPixiv s' (LComplete 0 Settled) = Some s'' ->
                      failedImages s'' = failedImages s))
  /\ (let o := Legacy.loop_body e env sc in
      e ∈ Legacy.processedImages (Legacy.script o)
      /\ e ∈ Legacy.failedImages (Legacy.script o)
      /\ Legacy.submitted o = true
      /\ Legacy.overlaid o = false).
Proof.
  intros R Hk L1 L2 L3 L4 L5 L6. split.
  - pose proof (reachable_serial _ _ R) as [S1 _ _ _].
    pose proof (reachable_books _ _ R) as [B1 B2 B3].
    destruct (drains s) as [|st [|st' ds]] eqn:Hd; simpl in S1; [ | |lia].
    { destruct k; discriminate. }
    destruct k as [|[|k]]; simpl in Hk; try discriminate.
    injection Hk as ->.
    assert (Hin : AwaitOcr e data ∈ [AwaitOcr e data])
      by (apply list_elem_of_singleton; reflexivity).
    destruct (B2 _ e Hin eq_refl) as [Hp Hn].
    simpl. unfold resume. rewrite Hd. simpl.
    eexists. split; [reflexivity|].
    unfold after_ocr, item_returns, suspend, log, unmark, update_img; simpl.
    destruct (isPageChanging s) eqn:Hc; simpl;
      (repeat split; auto;
       intros s''; unfold resume, after_item; simpl; rewrite ?Hc; simpl;
       unfold next_item, finish, processImage, item_returns, suspend, log,
         update_img; simpl; rewrite ?Hc; simpl;
       repeat case_match; intros [= <-]; reflexivity).
  - unfold Legacy.loop_body, Legacy.processImage, Legacy.usable_data.
    rewrite L1, L3, L4, L5, L6. simpl.
    rewrite bool_decide_eq_false_2 by exact L2. simpl.
    rewrite L1. simpl.
    repeat split; try reflexivity; apply elem_of_add.
Qed.

Lemma C2_witness :
  (exists s',
      step false Examples.awaiting_ocr
        (LComplete 0 (OcrReplied (OcrBlocks []))) = Some s'
      /\ 1%nat ∈ processedImages s'
      /\ (1%nat ∉ failedImages s')
      /\ drains s' = [AwaitItem 1 false])
  /\ 1%nat ∈ Legacy.failedImages
               (Legacy.script
                  (Legacy.loop_body 1 Examples.no_text Examples.fresh_script)).
Proof.
  assert (R : reachable false Examples.awaiting_ocr).
  { exists Examples.two_pages, Examples.page_url, [1; 2]%nat,
      [LScan; LScan; LScan; LComplete 0 (Acquired Examples.draws)].
    vm_compute. reflexivity. }
  assert (N : 1%nat ∉ Legacy.processedImages Examples.fresh_script)
    by (apply not_elem_of_empty).
  destruct (C2_empty_text_blocks false Examples.awaiting_ocr 0 1
              "data:image/png;base64,PAGE" Examples.fresh_script
              Examples.no_text R eq_refl eq_refl N eq_refl eq_refl eq_refl
              eq_refl)
    as [(s' & H1 & H2 & H3 & _ & _ & H6 & _) (_ & L & _)].
  split; [exists s'; auto|exact L].
Defined.

(** C2 as stated fails on src/content.js: the item whose OCR answer has an
    empty [text_blocks] list ends in [failedImages]. *)
Lemma C2_counterexample :
  Legacy.ocr Examples.no_text = OcrBlocks []
  /\ 1%nat ∈ Legacy.failedImages
               (Legacy.script
                  (Legacy.processImage 1 Examples.no_text
                     Examples.fresh_script)).
Proof.
  split; [reflexivity|].
  unfold Legacy.processImage, Examples.fresh_script, Examples.no_text; simpl.
  rewrite bool_decide_eq_false_2 by (apply not_elem_of_empty). simpl.
  apply elem_of_union_l, elem_of_singleton. reflexivity.
Qed.

End BooksFacts.

(** ** Navigation *)

Section NavigationFacts.
Import JsString Dom Content Trace.

Ltac control :=
  unfold same_control; repeat case_match; repeat split; simpl; congruence.

Lemma same_control_refl (s : State) : same_control s s.
Proof. repeat split. Qed.

Lemma same_control_trans (s1 s2 s3 : State) :
  same_control s1 s2 -> same_control s2 s3 -> same_control s1 s3.
Proof.
  intros (A1 & A2 & A3 & A4 & A5) (B1 & B2 & B3 & B4 & B5).
  repeat split; congruence.
Qed.

Lemma processImage_control (e : nat) (s : State) :
  same_control s (processImage e s).
Proof. unfold processImage, item_returns, suspend, log, update_img. control. Qed.

Lemma next_item_control (s : State) : same_control s (next_item s).
Proof.
  unfold next_item, finish. repeat case_match; try (repeat split; reflexivity).
  eapply same_control_trans; [|apply processImage_control].
  repeat split.
Qed.

Lemma processQueue_control (s : State) : same_control s (processQueue s).
Proof.
  unfold processQueue. case_match; [apply same_control_refl|].
  eapply same_control_trans; [|apply next_item_control]. repeat split.
Qed.

Lemma accept_control (drain : bool) (w : Wait) (s : State) :
  same_control s (accept drain w s).
Proof.
  destruct w; simpl; unfold accept_pixiv, accept_generic;
    (case_match; [|apply same_control_refl]);
    (destruct drain;
     [eapply same_control_trans; [|apply processQueue_control]|]);
    repeat split.
Qed.

Lemma accept_false_drains (w : Wait) (s : State) :
  drains (accept false w s) = drains s.
Proof.
  destruct w; simpl; unfold accept_pixiv, accept_generic;
    case_match; reflexivity.
Qed.

Lemma resume_control (k : nat) (o : Outcome) (s s' : State) :
  resume k o s = Some s' -> same_control s s'.
Proof.
  unfold resume. destruct (drains s !! k) as [st|]; [|discriminate].
  destruct st, o; try discriminate; intros [= <-].
  - unfold after_extract, item_returns, suspend, log, unmark, fail, update_img.
    control.
  - unfold after_ocr, item_returns, suspend, log, unmark, fail, update_img.
    control.
  - unfold after_overlay, item_returns, suspend, log, unmark, update_img.
    control.
  - unfold after_item.
    set (s0 := if threw then fail e _ else _).
    assert (C0 : same_control s s0) by (subst s0; destruct threw; repeat split).
    apply (same_control_trans _ s0); [exact C0|].
    destruct (isPageChanging s0);
      [unfold finish; repeat split|apply next_item_control].
Qed.

Lemma Booted_control (s s' : State) :
  same_control s s' -> drains s' = drains s -> Booted s -> Booted s'.
Proof.
  intros (C1 & C2 & C3 & C4 & C5) Hd [B1 B2 B3].
  split; unfold running; rewrite ?C1, ?C2, ?C3, ?C4, ?C5, ?Hd; assumption.
Qed.

(** Once running, only the two watcher fields and the flag matter. *)
Lemma Booted_running (s s' : State) :
  running s' = true ->
  (observing s' = true -> imageObserver s' = true) ->
  (isPageChanging s' = true -> observing s' = false) ->
  Booted s'.
Proof. intros H1 H2 H3. split; auto. rewrite H1. discriminate. Qed.

Lemma running_control (s s' : State) :
  same_control s s' -> running s' = running s.
Proof. intros (C1 & _). unfold running. rewrite C1. reflexivity. Qed.

Lemma stop_booted (forget : bool) (s : State) :
  running s = true -> Booted s -> Booted (stop forget s).
Proof.
  intros Hr [B1 B2 B3]. unfold stop.
  destruct (imageObserver s) eqn:Hi; simpl; rewrite Hi.
  - destruct forget; apply Booted_running; simpl; auto; discriminate.
  - apply Booted_running; simpl; auto.
    + intros Ho. apply B2 in Ho. congruence.
    + intros _. destruct (observing s) eqn:Ho; [|reflexivity].
      specialize (B2 eq_refl). congruence.
Qed.

Lemma handleNewImage_control (isPixiv : bool) (e : nat) (s : State) :
  phase (handleNewImage isPixiv e s) = phase s
  /\ isPageChanging (handleNewImage isPixiv e s) = isPageChanging s
  /\ observing (handleNewImage isPixiv e s) = observing s
  /\ imageObserver (handleNewImage isPixiv e s) = imageObserver s.
Proof.
  unfold handleNewImage. case_match; [repeat split|].
  destruct (inspect _ _ _ _) as [s'|w] eqn:Hi; [|repeat split].
  unfold inspect in Hi.
  assert (G : forall w, phase (accept true w (log (EvCall e) s)) = phase s
               /\ isPageChanging (accept true w (log (EvCall e) s)) = isPageChanging s
               /\ observing (accept true w (log (EvCall e) s)) = observing s
               /\ imageObserver (accept true w (log (EvCall e) s)) = imageObserver s).
  { intros w. destruct (accept_control true w (log (EvCall e) s))
      as (C1 & C2 & C3 & C4 & C5). repeat split; assumption. }
  repeat case_match; simplify_eq; try (repeat split; reflexivity).
  - apply (G (WaitPixiv e _)).
  - apply (G (WaitGeneric e)).
Qed.

Lemma step_booted (isPixiv : bool) (s s' : State) (l : Label) :
  Booted s -> step isPixiv s l = Some s' -> Booted s'.
Proof.
  intros B. destruct l; simpl.
  - destruct (phase s) as [[|e todo]|w todo|] eqn:Hph; try discriminate.
    + intros [= <-].
      destruct B as [B1 B2 B3].
      destruct (B1 ltac:(unfold running; rewrite Hph; reflexivity))
        as (D1 & D2 & D3 & D4 & D5).
      destruct (processQueue_control
                  (set_phase Running
                     (set_observing true (set_imageObserver true s))))
        as (C1 & C2 & C3 & C4 & C5).
      apply Booted_running; unfold start_running, running;
        rewrite ?C1, ?C3, ?C4, ?C5; simpl; auto.
      rewrite D3. discriminate.
    + unfold inspect.
      assert (G : forall w0, Booted (set_phase (Scanning todo) (accept false w0 s))).
      { intros w0. destruct B as [B1 B2 B3].
        destruct (B1 ltac:(unfold running; rewrite Hph; reflexivity))
          as (D1 & D2 & D3 & D4 & D5).
        destruct (accept_control false w0 s) as (C1 & C2 & C3 & C4 & C5).
        split; simpl; rewrite ?C2, ?C3, ?C4, ?C5, ?accept_false_drains; auto;
          rewrite ?D3, ?D4; discriminate. }
      assert (G0 : Booted (set_phase (Scanning todo) s)).
      { destruct B as [B1 B2 B3].
        destruct (B1 ltac:(unfold running; rewrite Hph; reflexivity))
          as (D1 & D2 & D3 & D4 & D5).
        split; simpl; auto. }
      assert (G1 : forall w0, Booted (set_phase (ScanWait w0 todo) s)).
      { intros w0. destruct B as [B1 B2 B3].
        destruct (B1 ltac:(unfold running; rewrite Hph; reflexivity))
          as (D1 & D2 & D3 & D4 & D5).
        split; simpl; auto. }
      repeat case_match; intros [= <-]; simplify_eq; auto.
      * apply (G (WaitPixiv e _)).
      * apply (G (WaitGeneric e)).
  - destruct (phase s) as [todo|w todo|] eqn:Hph; try discriminate.
    intros [= <-]. destruct B as [B1 B2 B3].
    destruct (B1 ltac:(unfold running; rewrite Hph; reflexivity))
      as (D1 & D2 & D3 & D4 & D5).
    destruct (accept_control false w s) as (C1 & C2 & C3 & C4 & C5).
    split; simpl; rewrite ?C2, ?C3, ?C4, ?C5, ?accept_false_drains; auto;
      rewrite ?D3, ?D4; discriminate.
  - destruct (observing s) eqn:Ho; [|discriminate]. intros [= <-].
    destruct B as [B1 B2 B3].
    destruct (handleNewImage_control isPixiv e s) as (C1 & C3 & C4 & C5).
    assert (Hr : running s = true).
    { destruct (running s) eqn:Hr; [reflexivity|].
      destruct (B1 eq_refl) as (_ & _ & _ & D4 & _). congruence. }
    apply Booted_running; unfold running in *; rewrite ?C1, ?C3, ?C4, ?C5; auto.
  - destruct (observing s) eqn:Ho; [|discriminate].
    destruct (_ || _); intros [= <-]; [exact B|].
    destruct B as [B1 B2 B3].
    destruct (handleNewImage_control isPixiv e s) as (C1 & C3 & C4 & C5).
    assert (Hr : running s = true).
    { destruct (running s) eqn:Hr; [reflexivity|].
      destruct (B1 eq_refl) as (_ & _ & _ & D4 & _). congruence. }
    apply Booted_running; unfold running in *; rewrite ?C1, ?C3, ?C4, ?C5; auto.
  - destruct (loads s !! k) as [w|] eqn:Hk; [|discriminate]. intros [= <-].
    destruct B as [B1 B2 B3].
    assert (Hr : running s = true).
    { destruct (running s) eqn:Hr; [reflexivity|].
      destruct (B1 eq_refl) as (_ & D2 & _). rewrite D2 in Hk.
      destruct k; discriminate. }
    destruct (accept_control true w (set_loads (delete k (loads s)) s))
      as (C1 & C2 & C3 & C4 & C5).
    apply Booted_running; unfold running in *; rewrite ?C1, ?C3, ?C4, ?C5; auto.
  - intros Hres. destruct B as [B1 B2 B3].
    assert (Hr : running s = true).
    { destruct (running s) eqn:Hr; [reflexivity|].
      destruct (B1 eq_refl) as (D1 & _). unfold resume in Hres.
      rewrite D1 in Hres. destruct k; discriminate. }
    destruct (resume_control _ _ _ _ Hres) as (C1 & C2 & C3 & C4 & C5).
    apply Booted_running; unfold running in *; rewrite ?C1, ?C3, ?C4, ?C5; auto.
  - intros [= <-]. destruct B as [B1 B2 B3]. split; auto.
  - intros [= <-]. destruct B as [B1 B2 B3]. split; auto.
  - destruct (running s) eqn:Hr; [|discriminate]. intros [= <-].
    unfold on_document_mutation. destruct (String.eqb _ _); [exact B|].
    pose proof (stop_booted true s Hr B) as [B1 B2 B3]. split; auto.
  - destruct (running s) eqn:Hr; [|discriminate]. intros [= <-].
    apply stop_booted; assumption.
  - destruct (running s) eqn:Hr; [|discriminate]. intros [= <-].
    apply stop_booted; assumption.
Qed.

Lemma reachable_booted (isPixiv : bool) (s : State) :
  reachable isPixiv s -> Booted s.
Proof.
  intros (d & url & imgs & ls & Hrun).
  assert (G : forall ls s0 s1, Booted s0 -> run isPixiv s0 ls = Some s1 ->
                               Booted s1).
  { clear. induction ls as [|l ls IH]; intros s0 s1 B; simpl.
    - intros [= <-]. exact B.
    - destruct (step isPixiv s0 l) as [s2|] eqn:Hs; [|discriminate].
      apply IH, (step_booted _ _ _ _ B Hs). }
  apply (G ls (init d url imgs)); [|exact Hrun].
  split; simpl; auto; discriminate.
Qed.

Ltac newer_part X tr :=
  lazymatch X with
  | tr => constr:(@nil Event)
  | ?a :: ?Y => let p := newer_part Y tr in constr:(a :: p)
  end.

(** Closes [quiet_since s s'] when the trace of [s'] computes to some events
    put in front of the trace of [s]. *)
Ltac quiet :=
  unfold quiet_since; simpl;
  lazymatch goal with
  | |- exists newer, ?X = newer ++ ?tr /\ _ =>
      let p := newer_part X tr in
      exists p; split; [reflexivity|repeat constructor]
  end.

Lemma quiet_since_refl (s : State) : quiet_since s s.
Proof. exists []. split; [reflexivity|constructor]. Qed.

Lemma quiet_since_trans (s1 s2 s3 : State) :
  quiet_since s1 s2 -> quiet_since s2 s3 -> quiet_since s1 s3.
Proof.
  intros (n1 & E1 & F1) (n2 & E2 & F2). exists (n2 ++ n1). split.
  - rewrite E2, E1. apply app_assoc.
  - apply Forall_app. split; assumption.
Qed.

(** With the flag set, [processQueue] starts nothing. *)
Lemma processQueue_after_trip (s : State) :
  isPageChanging s = true -> quiet_since s (processQueue s).
Proof.
  intros H. unfold processQueue, next_item, finish.
  repeat case_match; simpl in *; try congruence; quiet.
Qed.

Lemma accept_after_trip (w : Wait) (s : State) :
  isPageChanging s = true -> quiet_since s (accept true w s).
Proof.
  intros H. destruct w; simpl; unfold accept_pixiv, accept_generic;
    (case_match; [|apply quiet_since_refl]);
    (eapply quiet_since_trans; [|apply processQueue_after_trip; exact H]);
    unfold enqueue, log, update_img; quiet.
Qed.

Lemma resume_after_trip (k : nat) (o : Outcome) (s s' : State) :
  isPageChanging s = true -> resume k o s = Some s' -> quiet_since s s'.
Proof.
  intros H. unfold resume. destruct (drains s !! k) as [st|]; [|discriminate].
  destruct st, o; try discriminate; intros [= <-].
  - unfold after_extract, item_returns, suspend, log, unmark, fail, update_img.
    destruct (snd _) as [data|]; simpl; rewrite ?H, ?orb_true_r; simpl;
      rewrite ?H; quiet.
  - unfold after_ocr, item_returns, suspend, log, unmark, fail, update_img.
    simpl. rewrite H. quiet.
  - unfold after_overlay, item_returns, suspend, log, unmark, update_img. quiet.
  - unfold after_item, finish. destruct threw; simpl; rewrite H; quiet.
Qed.

(** After the trip: the flag stays, and every turn adds to the trace only
    events that start nothing. *)
Lemma step_after_trip (isPixiv : bool) (s s' : State) (l : Label) :
  Booted s -> isPageChanging s = true -> step isPixiv s l = Some s' ->
  isPageChanging s' = true /\ quiet_since s s'.
Proof.
  intros [B1 B2 B3] H.
  assert (Hr : running s = true).
  { destruct (running s) eqn:Hr; [reflexivity|].
    destruct (B1 eq_refl) as (_ & _ & D3 & _). congruence. }
  specialize (B3 H).
  destruct l; simpl.
  - unfold running in Hr. destruct (phase s); discriminate.
  - unfold running in Hr. destruct (phase s); discriminate.
  - rewrite B3. discriminate.
  - rewrite B3. discriminate.
  - destruct (loads s !! k) as [w|]; [|discriminate]. intros [= <-].
    destruct (accept_control true w (set_loads (delete k (loads s)) s))
      as (_ & _ & C3 & _).
    split; [rewrite C3; exact H|].
    apply (quiet_since_trans _ (set_loads (delete k (loads s)) s));
      [exists []; split; [reflexivity|constructor]
      |apply accept_after_trip; exact H].
  - intros Hres. destruct (resume_control _ _ _ _ Hres) as (_ & _ & C3 & _).
    split; [rewrite C3; exact H|apply (resume_after_trip _ _ _ _ H Hres)].
  - intros [= <-]. split; [exact H|exists []; split; [reflexivity|constructor]].
  - intros [= <-]. split; [exact H|exists []; split; [reflexivity|constructor]].
  - rewrite Hr. intros [= <-]. unfold on_document_mutation, stop, log.
    repeat case_match; simpl; split; auto; quiet.
  - rewrite Hr. intros [= <-]. unfold stop, log.
    repeat case_match; simpl; split; auto; quiet.
  - rewrite Hr. intros [= <-]. unfold stop, log.
    repeat case_match; simpl; split; auto; quiet.
Qed.

Lemma run_after_trip (isPixiv : bool) (ls : list Label) :
  forall s s' : State,
    Booted s -> isPageChanging s = true -> run isPixiv s ls = Some s' ->
    isPageChanging s' = true /\ observing s' = false /\ quiet_since s s'.
Proof.
  induction ls as [|l ls IH]; intros s s' B H; simpl.
  - intros [= <-]. split; [exact H|]. split; [apply (booted_quiet _ B H)|].
    apply quiet_since_refl.
  - destruct (step isPixiv s l) as [s1|] eqn:Hs; [|discriminate]. intros Hrun.
    destruct (step_after_trip _ _ _ _ B H Hs) as [H1 Q1].
    destruct (IH s1 s' (step_booted _ _ _ _ B Hs) H1 Hrun) as (H2 & O2 & Q2).
    split; [exact H2|]. split; [exact O2|].
    apply (quiet_since_trans _ s1); assumption.
Qed.

(** The trip itself. *)
Lemma stop_trips (forget : bool) (s : State) :
  Booted s ->
  processingQueue (stop forget s) = []
  /\ isPageChanging (stop forget s) = true
  /\ observing (stop forget s) = false
  /\ drains (stop forget s) = drains s
  /\ isProcessing (stop forget s) = isProcessing s.
Proof.
  intros [B1 B2 B3].
  assert (O : observing (stop forget s) = false).
  { unfold stop, log. destruct (imageObserver s) eqn:Hi; simpl; rewrite Hi;
      [destruct forget; reflexivity|].
    simpl. destruct (observing s) eqn:Ho; [|reflexivity].
    specialize (B2 eq_refl). congruence. }
  split; [|split; [|split; [exact O|]]];
    unfold stop, log; destruct (imageObserver s) eqn:Hi; simpl; rewrite Hi;
    try destruct forget; auto.
Qed.

(** With the flag set, the loop that has its item back leaves. *)
Lemma loop_leaves_after_trip (isPixiv : bool) (s : State) (e : nat) (t : bool) :
  isPageChanging s = true -> drains s = [AwaitItem e t] ->
  exists s2, step isPixiv s (LComplete 0 Settled) = Some s2
             /\ drains s2 = [] /\ isProcessing s2 = false.
Proof.
  intros H Hd. simpl. unfold resume. rewrite Hd. simpl.
  eexists. split; [reflexivity|].
  unfold after_item, finish. destruct t; simpl; rewrite H; split; reflexivity.
Qed.

(** With the flag set, whatever the suspended [processImage] was waiting
    for, it returns as soon as that completes. *)
Lemma item_returns_after_trip (isPixiv : bool) (s : State) (st : Stage)
  (e : nat) :
  isPageChanging s = true -> drains s = [st] -> in_flight st = Some e ->
  exists o s1, step isPixiv s (LComplete 0 o) = Some s1
               /\ drains s1 = [AwaitItem e false]
               /\ isPageChanging s1 = true.
Proof.
  intros H Hd Hin. destruct st as [e' c img|e' data|e'|e' t];
    simpl in Hin; try discriminate; injection Hin as ->.
  - exists (Acquired Examples.nothing_works). eexists.
    simpl. unfold resume. rewrite Hd. simpl. split; [reflexivity|].
    unfold after_extract, item_returns, suspend, log, unmark, fail, update_img.
    simpl. rewrite H.
    destruct (snd (extractImageData c img Examples.nothing_works));
      simpl; rewrite ?orb_true_r; simpl; auto.
  - exists (OcrReplied OcrNull). eexists.
    simpl. unfold resume. rewrite Hd. simpl. split; [reflexivity|].
    unfold after_ocr, item_returns, suspend, log, unmark, fail, update_img.
    simpl. rewrite H. simpl. auto.
  - exists (OverlayDone Overlay.LoadError). eexists.
    simpl. unfold resume. rewrite Hd. simpl. split; [reflexivity|].
    unfold after_overlay, item_returns, suspend, log, unmark, update_img.
    simpl. auto.
Qed.

(** So the suspended loop ends within two turns. *)
Lemma loop_ends_after_trip (isPixiv : bool) (s : State) (st : Stage) :
  isPageChanging s = true -> drains s = [st] ->
  exists o s1 s2,
    step isPixiv s (LComplete 0 o) = Some s1
    /\ (s2 = s1 \/ step isPixiv s1 (LComplete 0 Settled) = Some s2)
    /\ drains s2 = [] /\ isProcessing s2 = false.
Proof.
  intros H Hd. destruct (in_flight st) as [e|] eqn:Hin.
  - destruct (item_returns_after_trip isPixiv s st e H Hd Hin)
      as (o & s1 & H1 & H2 & H3).
    destruct (loop_leaves_after_trip isPixiv s1 e false H3 H2)
      as (s2 & H4 & H5 & H6).
    exists o, s1, s2. auto.
  - destruct st as [| | |e t]; try discriminate.
    destruct (loop_leaves_after_trip isPixiv s e t H Hd) as (s2 & H4 & H5 & H6).
    exists Settled, s2, s2. auto.
Qed.

(** C5, amended.  When one of the three navigation handlers trips the epoch
    while a drain loop is suspended: the queue is emptied, the flag is set,
    the discovery watcher is disconnected, and the suspended loop is left
    alone; that loop ends within two turns, once its await has completed;
    and in everything that follows the flag stays set, the watcher stays
    disconnected and delivers no image, and the trace gains no event that
    takes an item from the queue, starts an extraction, an OCR request or an
    overlay, or enters [handleNewImage]. *)
Theorem C5_navigation_trip (isPixiv : bool) (s : State) (l : Label) :
  reachable isPixiv s ->
  drains s <> [] ->
  trips s l = true ->
  exists s',
    step isPixiv s l = Some s'
    /\ processingQueue s' = []
    /\ isPageChanging s' = true
    /\ observing s' = false
    /\ drains s' = drains s
    /\ (exists o s1 s2,
          step isPixiv s' (LComplete 0 o) = Some s1
          /\ (s2 = s1 \/ step isPixiv s1 (LComplete 0 Settled) = Some s2)
          /\ drains s2 = [] /\ isProcessing s2 = false)
    /\ (forall ls s'',
          run isPixiv s' ls = Some s'' ->
          isPageChanging s'' = true
          /\ observing s'' = false
          /\ (forall e, step isPixiv s'' (LAdded e) = None
                        /\ step isPixiv s'' (LAttr e) = None)
          /\ quiet_since s' s'').
Proof.
  intros R Hd Ht.
  pose proof (reachable_booted _ _ R) as B.
  pose proof (reachable_serial _ _ R) as S.
  assert (Hr : running s = true).
  { destruct (running s) eqn:Hr; [reflexivity|].
    destruct (booted_scan _ B Hr) as (D1 & _). contradiction. }
  assert (Hs : exists forget s',
             step isPixiv s l = Some s'
             /\ (s' = stop forget s \/ s' = set_currentUrl (href s) (stop forget s))).
  { destruct l; try discriminate; simpl in *; rewrite Hr.
    - unfold on_document_mutation. apply negb_true_iff in Ht. rewrite Ht.
      exists true. eexists. split; [reflexivity|]. right. reflexivity.
    - exists false. eexists. split; [reflexivity|]. left. reflexivity.
    - exists false. eexists. split; [reflexivity|]. left. reflexivity. }
  destruct Hs as (forget & s' & Hstep & Hs').
  destruct (stop_trips forget s B) as (T1 & T2 & T3 & T4 & T5).
  assert (F : processingQueue s' = [] /\ isPageChanging s' = true
              /\ observing s' = false /\ drains s' = drains s).
  { destruct Hs' as [-> | ->]; simpl; repeat split; assumption. }
  destruct F as (F1 & F2 & F3 & F4).
  exists s'. split; [exact Hstep|]. repeat (split; [assumption|]).
  split.
  - destruct S as [S1 _ _ _].
    destruct (drains s) as [|st [|st' ds]] eqn:E; simpl in S1;
      [contradiction| |lia].
    apply (loop_ends_after_trip isPixiv s' st F2 F4).
  - intros ls s'' Hrun.
    pose proof (step_booted _ _ _ _ B Hstep) as B'.
    destruct (run_after_trip _ _ _ _ B' F2 Hrun) as (H1 & H2 & H3).
    split; [exact H1|]. split; [exact H2|]. split; [|exact H3].
    intros e. simpl. rewrite H2. split; reflexivity.
Qed.

Lemma C5_witness :
  exists s',
    step false Examples.awaiting_ocr LPopState = Some s'
    /\ processingQueue s' = []
    /\ isPageChanging s' = true
    /\ observing s' = false
    /\ drains s' = drains Examples.awaiting_ocr.
Proof.
  assert (R : reachable false Examples.awaiting_ocr).
  { exists Examples.two_pages, Examples.page_url, [1; 2]%nat,
      [LScan; LScan; LScan; LComplete 0 (Acquired Examples.draws)].
    vm_compute. reflexivity. }
  assert (D : drains Examples.awaiting_ocr <> []) by (vm_compute; discriminate).
  destruct (C5_navigation_trip false Examples.awaiting_ocr LPopState R D eq_refl)
    as (s' & H1 & H2 & H3 & H4 & H5 & _).
  exists s'. auto.
Defined.

(** C5 as stated fails in its last part: a [handleNewImage] that was already
    waiting for its image when the epoch tripped still adds the image to
    [observedImages] and to the queue when the image loads. *)
Lemma C5_counterexample :
  reachable false Examples.after_late_load
  /\ trace Examples.after_late_load
     = [EvPush 1; EvTrip; EvCall 1; EvAcquire 2; EvShift 2; EvPush 2]
  /\ processingQueue Examples.after_late_load = [1%nat]
  /\ 1%nat ∈ observedImages Examples.after_late_load
  /\ isPageChanging Examples.after_late_load = true.
Proof.
  split.
  { exists Examples.lazy_page, Examples.page_url, [2]%nat,
      Examples.load_after_trip.
    vm_compute. reflexivity. }
  split; [vm_compute; reflexivity|]. split; [vm_compute; reflexivity|].
  split; [|vm_compute; reflexivity].
  apply elem_of_elements.
  replace (elements (observedImages Examples.after_late_load))
    with [2%nat; 1%nat] by (vm_compute; reflexivity).
  right. left.
Qed.

End NavigationFacts.

(** ** The size floor *)

Section FloorFacts.
Import JsString Dom Content Trace.

Lemma occurrences_cons (ev x : Event) (tr : list Event) :
  occurrences ev (x :: tr)
  = ((if bool_decide (x = ev) then 1 else 0) + occurrences ev tr)%nat.
Proof.
  unfold occurrences. rewrite filter_cons.
  case_bool_decide; case_decide; try contradiction; reflexivity.
Qed.

(** Rewrites the count of a push over the events put in front of a trace. *)
Ltac count :=
  repeat (rewrite occurrences_cons;
          rewrite (bool_decide_eq_false_2 (_ = EvPush _)) by discriminate);
  simpl.

Ltac keeps :=
  unfold keeps_out; simpl; repeat split; auto; count; auto.

Lemma keeps_out_refl (e : nat) (s : State) : keeps_out e s s.
Proof. repeat split; auto. Qed.

Lemma keeps_out_trans (e : nat) (s1 s2 s3 : State) :
  keeps_out e s1 s2 -> keeps_out e s2 s3 -> keeps_out e s1 s3.
Proof.
  intros (A1 & A2 & A3) (B1 & B2 & B3). repeat split; auto. congruence.
Qed.

Lemma processImage_keeps_out (e e0 : nat) (s : State) :
  keeps_out e s (processImage e0 s).
Proof.
  unfold processImage, item_returns, suspend, log, update_img.
  repeat case_match; keeps.
Qed.

Lemma next_item_keeps_out (e : nat) (s : State) :
  keeps_out e s (next_item s).
Proof.
  unfold next_item, finish.
  destruct (processingQueue s) as [|e0 rest] eqn:Hq; [keeps|].
  destruct (isPageChanging s); [keeps|].
  eapply keeps_out_trans; [|apply processImage_keeps_out].
  unfold log. keeps. rewrite Hq. intros H. right. exact H.
Qed.

Lemma processQueue_keeps_out (e : nat) (s : State) :
  keeps_out e s (processQueue s).
Proof.
  unfold processQueue. case_match; [apply keeps_out_refl|].
  eapply keeps_out_trans; [|apply next_item_keeps_out]. keeps.
Qed.

Lemma resume_keeps_out (e k : nat) (o : Outcome) (s s' : State) :
  resume k o s = Some s' -> keeps_out e s s'.
Proof.
  unfold resume. destruct (drains s !! k) as [st|]; [|discriminate].
  destruct st, o; try discriminate; intros [= <-].
  - unfold after_extract, item_returns, suspend, log, unmark, fail, update_img.
    repeat case_match; keeps.
  - unfold after_ocr, item_returns, suspend, log, unmark, fail, update_img.
    repeat case_match; keeps.
  - unfold after_overlay, item_returns, suspend, log, unmark, update_img. keeps.
  - unfold after_item.
    set (s0 := if threw then fail _ _ else _).
    assert (K : keeps_out e s s0) by (subst s0; destruct threw; keeps).
    apply (keeps_out_trans _ _ s0); [exact K|].
    destruct (isPageChanging s0); [unfold finish; keeps|apply next_item_keeps_out].
Qed.

(** Another image is accepted, or none. *)
Lemma enqueue_other (e e0 : nat) (s s1 : State) :
  e0 <> e ->
  observedImages s1 = {[e0]} ∪ observedImages s ->
  processingQueue s1 = processingQueue s -> trace s1 = trace s ->
  keeps_out e s (enqueue e0 s1).
Proof.
  intros Hne Ho Hq Ht. unfold enqueue, log, keeps_out; simpl.
  rewrite Ho, Hq, Ht. repeat split.
  - intros Hin. apply elem_of_union in Hin as [Hin|Hin]; [|exact Hin].
    apply elem_of_singleton in Hin. congruence.
  - intros Hin. apply elem_of_app in Hin as [Hin|Hin]; [exact Hin|].
    apply list_elem_of_singleton in Hin. congruence.
  - rewrite occurrences_cons. rewrite bool_decide_eq_false_2 by congruence.
    reflexivity.
Qed.

Lemma accept_other (e : nat) (drain : bool) (w : Wait) (s : State) :
  waited w <> e -> keeps_out e s (accept drain w s).
Proof.
  intros Hne. destruct w as [e0 o|e0]; simpl in *;
    unfold accept_pixiv, accept_generic;
    (destruct (_ && _); [|apply keeps_out_refl]);
    match goal with
    | |- keeps_out _ _ (if drain then processQueue ?x else ?x) =>
        assert (K : keeps_out e s x) by (apply enqueue_other; auto)
    end;
    (destruct drain; [|exact K]);
    apply (keeps_out_trans _ _ _ _ K), processQueue_keeps_out.
Qed.

(** The image itself is turned away by the size test of its protocol. *)
Lemma accept_small (isPixiv drain : bool) (w : Wait) (s : State) :
  wait_for isPixiv w -> below_floor isPixiv (element s (waited w)) ->
  accept drain w s = s.
Proof.
  intros Hw Hb. destruct w as [e0 o|e0]; simpl in *; subst isPixiv;
    unfold accept_pixiv, accept_generic, below_floor in *.
  - replace ((200 <? shown_width (element s e0))
             && (200 <? shown_height (element s e0))) with false; [reflexivity|].
    symmetry. apply andb_false_iff.
    destruct Hb as [H|H]; [left|right]; apply N.ltb_ge; exact H.
  - replace ((200 <? naturalWidth (element s e0))
             && (200 <? naturalHeight (element s e0))) with false; [reflexivity|].
    symmetry. apply andb_false_iff.
    destruct Hb as [H|H]; [left|right]; apply N.ltb_ge; exact H.
Qed.

Lemma accept_keeps_out (isPixiv drain : bool) (e : nat) (w : Wait)
  (s s0 : State) :
  wait_for isPixiv w -> below_floor isPixiv (element s e) ->
  dom s0 = dom s -> keeps_out e s s0 ->
  keeps_out e s (accept drain w s0).
Proof.
  intros Hw Hb Hdom K. destruct (decide (waited w = e)) as [<-|Hne].
  - rewrite (accept_small isPixiv); auto.
    unfold element in *. rewrite Hdom. exact Hb.
  - apply (keeps_out_trans _ _ s0); [exact K|apply accept_other, Hne].
Qed.

Lemma inspect_wait_for (isPixiv drain : bool) (e : nat) (s : State) (w : Wait) :
  inspect isPixiv drain e s = inr w -> wait_for isPixiv w /\ waited w = e.
Proof.
  unfold inspect. repeat case_match; intros [= <-]; simpl; auto.
Qed.

Lemma inspect_keeps_out (isPixiv drain : bool) (e e0 : nat) (s s0 s' : State) :
  below_floor isPixiv (element s e) -> dom s0 = dom s -> keeps_out e s s0 ->
  inspect isPixiv drain e0 s0 = inl s' -> keeps_out e s s'.
Proof.
  intros Hb Hdom K. unfold inspect. destruct isPixiv.
  - destruct (pixiv_source _); [|intros [= <-]; exact K].
    destruct (_ || _); [discriminate|]. intros [= <-].
    apply (accept_keeps_out true drain e (WaitPixiv e0 _)); simpl; auto.
  - destruct (negb _); [discriminate|]. intros [= <-].
    apply (accept_keeps_out false drain e (WaitGeneric e0)); simpl; auto.
Qed.

Lemma handleNewImage_keeps_out (isPixiv : bool) (e e0 : nat) (s : State) :
  below_floor isPixiv (element s e) ->
  keeps_out e s (handleNewImage isPixiv e0 s).
Proof.
  intros Hb. unfold handleNewImage. case_match; [apply keeps_out_refl|].
  assert (K : keeps_out e s (log (EvCall e0) s)) by (unfold log; keeps).
  destruct (inspect _ _ _ _) as [s'|w] eqn:Hi.
  - apply (inspect_keeps_out isPixiv true e e0 s (log (EvCall e0) s) s' Hb
             eq_refl K Hi).
  - unfold log. keeps.
Qed.

Lemma inspect_control (isPixiv drain : bool) (e : nat) (s s' : State) :
  inspect isPixiv drain e s = inl s' -> same_control s s'.
Proof.
  unfold inspect. destruct isPixiv.
  - destruct (pixiv_source _); [|intros [= <-]; apply same_control_refl].
    destruct (_ || _); [discriminate|]. intros [= <-].
    apply (accept_control drain (WaitPixiv e _)).
  - destruct (negb _); [discriminate|]. intros [= <-].
    apply (accept_control drain (WaitGeneric e)).
Qed.

(** The waits that are kept belong to the protocol of the page. *)
Lemma step_kinds (isPixiv : bool) (s s' : State) (l : Label) :
  Kinds isPixiv s -> step isPixiv s l = Some s' -> Kinds isPixiv s'.
Proof.
  intros [K1 K2]. destruct l; simpl.
  - destruct (phase s) as [[|e todo]|w todo|] eqn:Hph; try discriminate.
    + intros [= <-].
      destruct (processQueue_control
                  (set_phase Running
                     (set_observing true (set_imageObserver true s))))
        as (C1 & C2 & _).
      unfold start_running. split; rewrite ?C1, ?C2; simpl; auto.
    + destruct (inspect _ _ _ _) as [s0|w] eqn:Hi; intros [= <-].
      * destruct (inspect_control _ _ _ _ _ Hi) as (_ & L & _).
        split; simpl; rewrite ?L; auto.
      * split; simpl; auto. apply (inspect_wait_for _ _ _ _ _ Hi).
  - destruct (phase s) as [todo|w todo|] eqn:Hph; try discriminate.
    intros [= <-]. destruct (accept_control false w s) as (_ & C2 & _).
    split; simpl; rewrite ?C2; auto.
  - destruct (observing s); [|discriminate]. intros [= <-].
    unfold handleNewImage. destruct (_ || _); [split; assumption|].
    destruct (inspect _ _ _ _) as [s0|w] eqn:Hi.
    + destruct (inspect_control _ _ _ _ _ Hi) as (L1 & L2 & _).
      simpl in L1, L2. split; rewrite ?L1, ?L2; auto.
    + split; simpl; auto. apply Forall_app. split; [exact K1|].
      constructor; [|constructor]. apply (inspect_wait_for _ _ _ _ _ Hi).
  - destruct (observing s); [|discriminate].
    destruct (_ || _); intros [= <-]; [split; assumption|].
    unfold handleNewImage. destruct (_ || _); [split; assumption|].
    destruct (inspect _ _ _ _) as [s0|w] eqn:Hi.
    + destruct (inspect_control _ _ _ _ _ Hi) as (L1 & L2 & _).
      simpl in L1, L2. split; rewrite ?L1, ?L2; auto.
    + split; simpl; auto. apply Forall_app. split; [exact K1|].
      constructor; [|constructor]. apply (inspect_wait_for _ _ _ _ _ Hi).
  - destruct (loads s !! k) as [w|] eqn:Hk; [|discriminate]. intros [= <-].
    destruct (accept_control true w (set_loads (delete k (loads s)) s))
      as (C1 & C2 & _).
    split; rewrite ?C1, ?C2; simpl; auto. apply Forall_delete, K1.
  - intros Hres. destruct (resume_control _ _ _ _ Hres) as (C1 & C2 & _).
    split; rewrite ?C1, ?C2; auto.
  - intros [= <-]. split; auto.
  - intros [= <-]. split; auto.
  - destruct (running s); [|discriminate]. intros [= <-].
    unfold on_document_mutation, stop, log.
    destruct (String.eqb _ _); [split; assumption|].
    destruct (imageObserver _); split; simpl; auto.
  - destruct (running s); [|discriminate]. intros [= <-].
    unfold stop, log. destruct (imageObserver _); split; simpl; auto.
  - destruct (running s); [|discriminate]. intros [= <-].
    unfold stop, log. destruct (imageObserver _); split; simpl; auto.
Qed.

Lemma reachable_kinds (isPixiv : bool) (s : State) :
  reachable isPixiv s -> Kinds isPixiv s.
Proof.
  intros (d & url & imgs & ls & Hrun).
  assert (G : forall ls s0 s1, Kinds isPixiv s0 ->
                               run isPixiv s0 ls = Some s1 -> Kinds isPixiv s1).
  { clear. induction ls as [|l ls IH]; intros s0 s1 K; simpl.
    - intros [= <-]. exact K.
    - destruct (step isPixiv s0 l) as [s2|] eqn:Hs; [|discriminate].
      apply IH, (step_kinds _ _ _ _ K Hs). }
  apply (G ls (init d url imgs)); [|exact Hrun].
  split; simpl; auto.
Qed.

(** C9, amended.  In no turn of the script is an image accepted that, as the
    turn begins, is below the floor as its protocol reads it -- a natural
    width or height of at most 200 for the generic protocol; for the Pixiv
    protocol the natural size or, where that is zero, the laid-out size:
    the image does not enter [observedImages], does not enter the queue, and
    no push of it is logged. *)
Theorem C9_size_floor (isPixiv : bool) (s s' : State) (l : Label) (e : nat) :
  reachable isPixiv s ->
  step isPixiv s l = Some s' ->
  below_floor isPixiv (element s e) ->
  keeps_out e s s'.
Proof.
  intros R Hs Hb. destruct (reachable_kinds _ _ R) as [K1 K2].
  revert Hs. destruct l; simpl.
  - destruct (phase s) as [[|e0 todo]|w todo|] eqn:Hph; try discriminate.
    + intros [= <-]. unfold start_running.
      eapply keeps_out_trans; [|apply processQueue_keeps_out]. keeps.
    + destruct (inspect _ _ _ _) as [s0|w] eqn:Hi; intros [= <-].
      * pose proof (inspect_keeps_out isPixiv false e e0 s s s0 Hb eq_refl
                      (keeps_out_refl e s) Hi) as K.
        destruct K as (A1 & A2 & A3). repeat split; assumption.
      * keeps.
  - destruct (phase s) as [todo|w todo|] eqn:Hph; try discriminate.
    intros [= <-].
    pose proof (accept_keeps_out isPixiv false e w s s K2 Hb eq_refl
                  (keeps_out_refl e s)) as (A1 & A2 & A3).
    repeat split; assumption.
  - destruct (observing s); [|discriminate]. intros [= <-].
    apply handleNewImage_keeps_out, Hb.
  - destruct (observing s); [|discriminate].
    destruct (_ || _); intros [= <-]; [apply keeps_out_refl|].
    apply handleNewImage_keeps_out, Hb.
  - destruct (loads s !! k) as [w|] eqn:Hk; [|discriminate]. intros [= <-].
    apply (accept_keeps_out isPixiv true e w s); auto.
    + apply (Forall_lookup_1 _ _ _ _ K1 Hk).
    + repeat split; auto.
  - apply resume_keeps_out.
  - intros [= <-]. repeat split; auto.
  - intros [= <-]. repeat split; auto.
  - destruct (running s); [|discriminate]. intros [= <-].
    unfold on_document_mutation, stop, log.
    repeat case_match; keeps; intros HH; apply elem_of_nil in HH; contradiction.
  - destruct (running s); [|discriminate]. intros [= <-].
    unfold stop, log.
    repeat case_match; keeps; intros HH; apply elem_of_nil in HH; contradiction.
  - destruct (running s); [|discriminate]. intros [= <-].
    unfold stop, log.
    repeat case_match; keeps; intros HH; apply elem_of_nil in HH; contradiction.
Qed.

(** A loaded image of 150 by 150 is below the floor of both protocols. *)
Lemma below_floor_150 (isPixiv : bool) (img : Img) :
  naturalWidth img = 150 -> naturalHeight img = 150 ->
  below_floor isPixiv img.
Proof.
  intros Hw Hh. unfold below_floor, shown_width, shown_height, or_dim.
  rewrite Hw, Hh. destruct isPixiv; left; simpl; discriminate.
Qed.

Lemma C9_witness :
  keeps_out 1 Examples.thumbnail_page Examples.thumbnail_scanned.
Proof.
  apply (C9_size_floor true Examples.thumbnail_page Examples.thumbnail_scanned
           LScan 1).
  - exists {[ 1%nat := Examples.thumbnail ]}, Examples.pixiv_url, [1%nat], [].
    reflexivity.
  - vm_compute. reflexivity.
  - apply below_floor_150; vm_compute; reflexivity.
Defined.

(** C9 as stated fails under the Pixiv protocol for an image without a
    natural size: the size test falls back on the laid-out size, and the
    image, whose natural width and height are zero, is accepted. *)
Lemma C9_counterexample :
  naturalWidth (element Examples.unloaded_scanned 1) <= 200
  /\ naturalHeight (element Examples.unloaded_scanned 1) <= 200
  /\ reachable true Examples.unloaded_scanned
  /\ processingQueue Examples.unloaded_scanned = [1%nat]
  /\ 1%nat ∈ observedImages Examples.unloaded_scanned.
Proof.
  split; [vm_compute; discriminate|]. split; [vm_compute; discriminate|].
  split.
  { exists {[ 1%nat := Examples.unloaded_pixiv ]}, Examples.pixiv_url,
      [1%nat], [LScan; LScanLoaded].
    vm_compute. reflexivity. }
  split; [vm_compute; reflexivity|].
  apply elem_of_elements.
  replace (elements (observedImages Examples.unloaded_scanned))
    with [1%nat] by (vm_compute; reflexivity).
  left.
Qed.

End FloorFacts.

(** ** The canonical Pixiv source *)

Section StringFacts.
Import JsString.

(** [append] is not unfolded by [simpl]; these two equations are. *)
Lemma append_cons (c : ascii) (a b : string) :
  String c a +:+ b = String c (a +:+ b).
Proof. reflexivity. Qed.

Lemma append_empty_l (b : string) : "" +:+ b = b.
Proof. reflexivity. Qed.

Ltac app := rewrite ?append_cons, ?append_empty_l in *; simpl in *.

Lemma append_assoc (a b c : string) : (a +:+ b) +:+ c = a +:+ b +:+ c.
Proof. induction a as [|x a IH]; app; [reflexivity|f_equal; exact IH]. Qed.

Lemma append_empty_r (a : string) : a +:+ "" = a.
Proof. induction a as [|x a IH]; app; [reflexivity|f_equal; exact IH]. Qed.

Lemma drop_prefix_app (p s : string) : drop_prefix p (p +:+ s) = Some s.
Proof.
  induction p as [|x p IH]; app; [reflexivity|].
  rewrite Ascii.eqb_refl. exact IH.
Qed.



Lemma includes_app_r (a p x : string) : includes (a +:+ p +:+ x) p = true.
Proof.
  induction a as [|c a IH]; app.
  - destruct (p +:+ x) eqn:E; simpl;
      rewrite <- E, drop_prefix_app; reflexivity.
  - destruct (drop_prefix p (String c (a +:+ p +:+ x))); [reflexivity|exact IH].
Qed.








(** The replacement acts on the leftmost match. *)
Lemma replace_re_first (m : string -> option string) (rep pre s rest : string) :
  unmatched m pre s = true -> m s = Some rest ->
  replace_re m rep (pre +:+ s) = pre +:+ rep +:+ rest.
Proof.
  intros Hu Hm. induction pre as [|c pre IH]; app.
  - destruct s; simpl; rewrite Hm; reflexivity.
  - rewrite append_cons in Hu.
    destruct (m (String c (pre +:+ s))); [discriminate|].
    rewrite (IH Hu). reflexivity.
Qed.

(** Without a match the string is left as it is. *)
Lemma replace_re_unmatched (m : string -> option string) (rep s : string) :
  unmatched m s "" = true -> m "" = None -> replace_re m rep s = s.
Proof.
  intros Hu Hm. induction s as [|c s IH]; app.
  - rewrite Hm. reflexivity.
  - rewrite append_cons, append_empty_r in Hu.
    destruct (m (String c s)); [discriminate|].
    rewrite (IH Hu). reflexivity.
Qed.

End StringFacts.

Section PixivFacts.
Import JsString Dom Content Trace.



Lemma same_picture_refl (i : Img) : same_picture i i.
Proof. repeat split. Qed.

Lemma same_picture_trans (i1 i2 i3 : Img) :
  same_picture i1 i2 -> same_picture i2 i3 -> same_picture i1 i3.
Proof.
  intros (A1 & A2 & A3 & A4 & A5 & A6 & A7) (B1 & B2 & B3 & B4 & B5 & B6 & B7).
  repeat split; congruence.
Qed.

(** [extractImageData] reads the picture only. *)
Lemma extractImageData_picture (changing : bool) (i i' : Img)
  (env : AcquireEnv) :
  same_picture i i' ->
  extractImageData changing i' env = extractImageData changing i env.
Proof.
  intros (A1 & A2 & A3 & A4 & A5 & A6 & A7).
  unfold extractImageData, acquire_source, shown_width, shown_height.
  rewrite A1, A2, A3, A4, A5, A6, A7. reflexivity.
Qed.

Lemma element_update_img (e e0 : nat) (f : Img -> Img) (s : State) :
  element (update_img e0 f s) e
  = if decide (e0 = e) then f (element s e) else element s e.
Proof.
  unfold element, update_img. simpl. destruct (decide (e0 = e)) as [->|Hne].
  - rewrite lookup_insert_eq. reflexivity.
  - rewrite lookup_insert_ne by exact Hne. reflexivity.
Qed.

Lemma processImage_picture (e e0 : nat) (s : State) :
  same_picture (element s e) (element (processImage e0 s) e).
Proof.
  unfold processImage, item_returns, suspend, log.
  destruct (isPageChanging s); [apply same_picture_refl|].
  destruct (bool_decide _); [apply same_picture_refl|].
  change (same_picture (element s e)
            (element (update_img e0 (set_ocr_processing true)
                        (set_processedImages ({[e0]} ∪ processedImages s) s))
                     e)).
  rewrite element_update_img. destruct (decide (e0 = e)); repeat split.
Qed.

Lemma processQueue_picture (e : nat) (s : State) :
  same_picture (element s e) (element (processQueue s) e)
  /\ observedImages (processQueue s) = observedImages s.
Proof.
  unfold processQueue. destruct (_ || _); [split; [apply same_picture_refl|reflexivity]|].
  unfold next_item, finish. simpl.
  destruct (processingQueue s) as [|e0 rest];
    [split; [apply same_picture_refl|reflexivity]|].
  destruct (isPageChanging s); [split; [apply same_picture_refl|reflexivity]|].
  split.
  - exact (processImage_picture e e0
             (log (EvShift e0)
                (set_processingQueue rest (set_isProcessing true s)))).
  - unfold processImage, item_returns, suspend, log, update_img.
    repeat case_match; reflexivity.
Qed.

(** A source on the Pixiv host is a source. *)
Lemma pixiv_host_truthy (o : string) :
  includes o "pximg.net" = true ->
  truthy o = true /\ String.eqb o "about:blank" = false.
Proof.
  intros H. split.
  - destruct o; [discriminate|reflexivity].
  - destruct (String.eqb o "about:blank") eqn:E; [|reflexivity].
    apply String.eqb_eq in E. subst o. discriminate.
Qed.

(** An image that carries a canonical Pixiv source and passes the size test
    goes to the relay first; the direct draw is the fallback. *)
Lemma extractImageData_pixiv (img : Img) (o : string) (env : AcquireEnv) :
  originalPixivSrc img = Some o -> includes o "pximg.net" = true ->
  200 < shown_width img -> 200 < shown_height img ->
  extractImageData false img env
  = match usable (offscreen_reply env) with
    | Some dataUrl => ([ViaOffscreen], Some dataUrl)
    | None => ([ViaOffscreen; ViaDirectDraw], draw env)
    end.
Proof.
  intros Ho Hp Hw Hh. destruct (pixiv_host_truthy o Hp) as [Ht Hb].
  unfold extractImageData, acquire_source. rewrite Ho. simpl. rewrite Ht.
  simpl. rewrite Ht, Hb. simpl.
  replace (shown_width img <? 200) with false
    by (symmetry; apply N.ltb_ge; lia).
  replace (shown_height img <? 200) with false
    by (symmetry; apply N.ltb_ge; lia).
  simpl. rewrite Hp. reflexivity.
Qed.




End PixivFacts.

(** ** One extraction, one submission *)

Section OnceFacts.
Import JsString Dom Content Trace.

(** Counts an event over the events put in front of a trace. *)
Ltac tally :=
  repeat rewrite occurrences_cons;
  repeat (rewrite (bool_decide_eq_false_2 (_ = _)) by discriminate);
  simpl.

Lemma Once_fields (ds : list Stage) (s s' : State) :
  trace s' = trace s -> processedImages s' = processedImages s ->
  Once ds s -> Once ds s'.
Proof. intros Ht Hp [H1 H2]. split; rewrite ?Ht, ?Hp; assumption. Qed.

Lemma Once_stage (ds ds' : list Stage) (s : State) :
  (forall e, awaiting_extract e ds' <= awaiting_extract e ds)%nat ->
  Once ds s -> Once ds' s.
Proof.
  intros Hle [H1 H2]. split; [exact H1|].
  intros e. specialize (H2 e). specialize (Hle e). lia.
Qed.

Lemma item_returns_once (e : nat) (threw : bool) (s : State) :
  drains s = [] -> Once [] s ->
  Once (drains (item_returns e threw s)) (item_returns e threw s).
Proof.
  intros Hd [H1 H2]. unfold item_returns, suspend, log. simpl. rewrite Hd.
  split; intros e'; simpl; tally; [apply H1|apply H2].
Qed.

Lemma processImage_once (e : nat) (s : State) :
  drains s = [] -> Once [] s ->
  Once (drains (processImage e s)) (processImage e s).
Proof.
  intros Hd O. unfold processImage.
  destruct (isPageChanging s); [apply item_returns_once; assumption|].
  case_bool_decide as Hin; [apply item_returns_once; assumption|].
  destruct O as [H1 H2]. unfold suspend, log, update_img. simpl. rewrite Hd.
  simpl. split; intros e'; simpl.
  - rewrite occurrences_cons, H1.
    destruct (decide (e = e')) as [->|Hne].
    + rewrite bool_decide_eq_true_2 by reflexivity.
      rewrite (bool_decide_eq_false_2 (e' ∈ processedImages s)) by exact Hin.
      rewrite bool_decide_eq_true_2 by apply elem_of_add. reflexivity.
    + rewrite (bool_decide_eq_false_2 (EvAcquire e = EvAcquire e'))
        by congruence.
      simpl. rewrite (bool_decide_ext _ _ (elem_of_add_ne e e' _ Hne)).
      reflexivity.
  - specialize (H2 e'). specialize (H1 e'). simpl in H2.
    rewrite !occurrences_cons.
    rewrite (bool_decide_eq_false_2 (EvAcquire e = EvOcr e')) by discriminate.
    destruct (decide (e = e')) as [->|Hne].
    + rewrite !bool_decide_eq_true_2 by reflexivity.
      rewrite (bool_decide_eq_false_2 (e' ∈ processedImages s)) in H1
        by exact Hin.
      simpl. lia.
    + rewrite (bool_decide_eq_false_2 (EvAcquire e = EvAcquire e'))
        by congruence.
      rewrite (bool_decide_eq_false_2 (e = e')) by exact Hne. simpl. lia.
Qed.

Lemma next_item_once (s : State) :
  drains s = [] -> Once [] s -> Once (drains (next_item s)) (next_item s).
Proof.
  intros Hd O. unfold next_item.
  destruct (processingQueue s) as [|e rest];
    [unfold finish; simpl; rewrite Hd; apply (Once_fields _ s); auto|].
  destruct (isPageChanging s);
    [unfold finish; simpl; rewrite Hd; apply (Once_fields _ s); auto|].
  apply processImage_once; [exact Hd|].
  destruct O as [H1 H2]. unfold log. split; intros e'; simpl; tally;
    [apply H1|apply H2].
Qed.

Lemma processQueue_once (s : State) :
  Serial s -> Once (drains s) s ->
  Once (drains (processQueue s)) (processQueue s).
Proof.
  intros [_ Hb _ _] O. unfold processQueue.
  destruct (isProcessing s) eqn:Hp; simpl; [exact O|].
  destruct (bool_decide (processingQueue s = [])); [exact O|].
  symmetry in Hb. apply bool_decide_eq_false in Hb.
  assert (Hd : drains s = []).
  { destruct (drains s); [reflexivity|]. exfalso. apply Hb. discriminate. }
  rewrite Hd in O. apply next_item_once; [exact Hd|].
  apply (Once_fields _ s); auto.
Qed.

Lemma after_item_once (e : nat) (threw : bool) (s : State) :
  drains s = [] -> Once [] s ->
  Once (drains (after_item e threw s)) (after_item e threw s).
Proof.
  intros Hd O. unfold after_item.
  set (s0 := if threw then fail e s else s).
  assert (Hd0 : drains s0 = []) by (subst s0; destruct threw; exact Hd).
  assert (O0 : Once [] s0)
    by (subst s0; destruct threw; [apply (Once_fields _ s); auto|exact O]).
  destruct (isPageChanging s0).
  - unfold finish. simpl. rewrite Hd0. apply (Once_fields _ s0); auto.
  - apply next_item_once; assumption.
Qed.

Lemma after_extract_once (e : nat) (changing : bool) (img : Img)
  (imageData : option string) (s : State) :
  drains s = [] -> Once [AwaitExtract e changing img] s ->
  Once (drains (after_extract e imageData s)) (after_extract e imageData s).
Proof.
  intros Hd O. unfold after_extract.
  assert (O0 : Once [] (log (EvAcquired e) s)).
  { apply (Once_stage [AwaitExtract e changing img]);
      [intros e'; simpl; lia|].
    destruct O as [H1 H2]. unfold log. split; intros e'; simpl; tally;
      [apply H1|apply H2]. }
  assert (R : Once
                (drains
                   (let s0 := unmark e (log (EvAcquired e) s) in
                    item_returns e false
                      (if isPageChanging s0 then s0 else fail e s0)))
                (let s0 := unmark e (log (EvAcquired e) s) in
                 item_returns e false
                   (if isPageChanging s0 then s0 else fail e s0))).
  { apply item_returns_once.
    - destruct (isPageChanging _); exact Hd.
    - destruct (isPageChanging _);
        apply (Once_fields _ (log (EvAcquired e) s)); auto. }
  destruct imageData as [data|]; [|exact R].
  destruct (negb (truthy data) || isPageChanging _); [exact R|].
  destruct O as [H1 H2]. unfold suspend, log. simpl. rewrite Hd. simpl.
  split; intros e'; simpl.
  - tally. apply H1.
  - specialize (H2 e'). simpl in H2. rewrite !occurrences_cons.
    rewrite (bool_decide_eq_false_2 (EvAcquired e = EvOcr e')) by discriminate.
    rewrite (bool_decide_eq_false_2 (EvOcr e = EvAcquire e')) by discriminate.
    rewrite (bool_decide_eq_false_2 (EvAcquired e = EvAcquire e'))
      by discriminate.
    destruct (decide (e = e')) as [->|Hne].
    + rewrite !bool_decide_eq_true_2 in * by reflexivity. simpl. lia.
    + rewrite (bool_decide_eq_false_2 (EvOcr e = EvOcr e')) by congruence.
      simpl. lia.
Qed.

Lemma after_ocr_once (e : nat) (r : OcrResult) (s : State) :
  drains s = [] -> Once [] s ->
  Once (drains (after_ocr e r s)) (after_ocr e r s).
Proof.
  intros Hd O. unfold after_ocr.
  assert (O0 : Once [] (log (EvOcrDone e) s)).
  { destruct O as [H1 H2]. unfold log. split; intros e'; simpl; tally;
      [apply H1|apply H2]. }
  destruct (isPageChanging _);
    [apply item_returns_once; [exact Hd|];
     apply (Once_fields _ (log (EvOcrDone e) s)); auto|].
  destruct r as [| |[|b bs]|];
    try (apply item_returns_once; [exact Hd|];
         apply (Once_fields _ (log (EvOcrDone e) s)); auto).
  destruct O as [H1 H2]. unfold suspend, log. simpl. rewrite Hd. simpl.
  split; intros e'; simpl; tally; [apply H1|apply H2].
Qed.

Lemma after_overlay_once (e : nat) (d : Overlay.Decode) (s : State) :
  drains s = [] -> Once [] s ->
  Once (drains (after_overlay e d s)) (after_overlay e d s).
Proof.
  intros Hd O. unfold after_overlay.
  apply item_returns_once; [exact Hd|].
  destruct O as [H1 H2]. unfold unmark, log, update_img.
  split; intros e'; simpl; tally; [apply H1|apply H2].
Qed.

Lemma resume_once (k : nat) (o : Outcome) (s s' : State) :
  Serial s -> Once (drains s) s -> resume k o s = Some s' ->
  Once (drains s') s'.
Proof.
  intros [H1 _ _ _] O. unfold resume.
  destruct (drains s) as [|st [|st' ds]] eqn:Hd; simpl in H1; [ | |lia].
  - destruct k; discriminate.
  - destruct k as [|[|k]]; simpl; try discriminate.
    assert (O1 : Once [st] (set_drains [] s))
      by (apply (Once_fields _ s); auto).
    assert (O0 : forall e0, awaiting_extract e0 [st] = 0%nat ->
                            Once [] (set_drains [] s)).
    { intros _ _. apply (Once_stage [st]); [intros e'; simpl; lia|exact O1]. }
    destruct st, o; try discriminate; intros [= <-].
    + apply (after_extract_once e changing img); auto.
    + apply after_ocr_once; auto. apply (O0 e). reflexivity.
    + apply after_overlay_once; auto. apply (O0 e). reflexivity.
    + apply after_item_once; auto. apply (O0 e). reflexivity.
Qed.

Lemma accept_once (drain : bool) (w : Wait) (s : State) :
  Serial s -> Once (drains s) s ->
  Once (drains (accept drain w s)) (accept drain w s).
Proof.
  intros S O.
  assert (G : forall e s1,
             drains s1 = drains s -> isProcessing s1 = isProcessing s ->
             trace s1 = trace s -> processingQueue s1 = processingQueue s ->
             processedImages s1 = processedImages s ->
             Once (drains (if drain then processQueue (enqueue e s1)
                           else enqueue e s1))
                  (if drain then processQueue (enqueue e s1) else enqueue e s1)).
  { intros e s1 E1 E2 E3 E4 E5.
    assert (S1 : Serial (enqueue e s1))
      by (apply enqueue_serial, (Serial_fields s); auto).
    assert (O1 : Once (drains (enqueue e s1)) (enqueue e s1)).
    { destruct O as [H1 H2]. unfold enqueue, log. simpl. rewrite E1.
      split; intros e'; simpl; rewrite ?E3, ?E5; tally; [apply H1|apply H2]. }
    destruct drain; [apply processQueue_once|]; assumption. }
  destruct w as [e originalSrc|e]; simpl.
  - unfold accept_pixiv. destruct (_ && _); [|exact O]. apply G; auto.
  - unfold accept_generic. destruct (_ && _); [|exact O]. apply G; auto.
Qed.

Lemma inspect_once (isPixiv drain : bool) (e : nat) (s s' : State) :
  Serial s -> Once (drains s) s -> inspect isPixiv drain e s = inl s' ->
  Once (drains s') s'.
Proof.
  intros S O. unfold inspect. destruct isPixiv.
  - destruct (pixiv_source _); [|intros [= <-]; exact O].
    destruct (_ || _); [discriminate|]. intros [= <-].
    apply (accept_once drain (WaitPixiv e _)); assumption.
  - destruct (negb _); [discriminate|]. intros [= <-].
    apply (accept_once drain (WaitGeneric e)); assumption.
Qed.

Lemma log_call_once (e : nat) (s : State) :
  Once (drains s) s -> Once (drains (log (EvCall e) s)) (log (EvCall e) s).
Proof.
  intros [H1 H2]. unfold log. split; intros e'; simpl; tally;
    [apply H1|apply H2].
Qed.

Lemma handleNewImage_once (isPixiv : bool) (e : nat) (s : State) :
  Serial s -> Once (drains s) s ->
  Once (drains (handleNewImage isPixiv e s)) (handleNewImage isPixiv e s).
Proof.
  intros S O. unfold handleNewImage. destruct (_ || _); [exact O|].
  pose proof (log_call_serial e s S) as S'.
  pose proof (log_call_once e s O) as O'.
  destruct (inspect _ _ _ _) as [s'|w] eqn:Hi.
  - apply (inspect_once _ _ _ _ _ S' O' Hi).
  - apply (Once_fields _ (log (EvCall e) s)); auto.
Qed.

Lemma stop_once (forget : bool) (s : State) :
  Once (drains s) s -> Once (drains (stop forget s)) (stop forget s).
Proof.
  intros [H1 H2]. unfold stop, log.
  destruct (imageObserver _); [destruct forget|];
    split; intros e'; simpl; tally; first [apply H1|apply H2].
Qed.

Lemma step_once (isPixiv : bool) (s s' : State) (l : Label) :
  Serial s -> Once (drains s) s -> step isPixiv s l = Some s' ->
  Once (drains s') s'.
Proof.
  intros S O. destruct l; simpl.
  - destruct (phase s) as [[|e todo]|w todo|]; try discriminate.
    + intros [= <-]. apply processQueue_once.
      * apply (Serial_fields s); auto.
      * apply (Once_fields _ s); auto.
    + destruct (inspect _ _ _ _) as [s0|w] eqn:Hi; intros [= <-].
      * apply (Once_fields _ s0); auto. apply (inspect_once _ _ _ _ _ S O Hi).
      * apply (Once_fields _ s); auto.
  - destruct (phase s) as [todo|w todo|]; try discriminate.
    intros [= <-]. apply (Once_fields _ (accept false w s)); auto.
    apply accept_once; assumption.
  - destruct (observing s); [|discriminate]. intros [= <-].
    apply handleNewImage_once; assumption.
  - destruct (observing s); [|discriminate].
    destruct (_ || _); intros [= <-]; [exact O|].
    apply handleNewImage_once; assumption.
  - destruct (loads s !! k) as [w|]; [|discriminate]. intros [= <-].
    apply accept_once.
    + apply (Serial_fields s); auto.
    + apply (Once_fields _ s); auto.
  - apply resume_once; assumption.
  - intros [= <-]. apply (Once_fields _ s); auto.
  - intros [= <-]. apply (Once_fields _ s); auto.
  - destruct (running s); [|discriminate]. intros [= <-].
    unfold on_document_mutation. destruct (String.eqb _ _); [exact O|].
    apply (Once_fields _ (stop true s)); auto. apply stop_once, O.
  - destruct (running s); [|discriminate]. intros [= <-]. apply stop_once, O.
  - destruct (running s); [|discriminate]. intros [= <-]. apply stop_once, O.
Qed.

Lemma reachable_once (isPixiv : bool) (s : State) :
  reachable isPixiv s -> Once (drains s) s.
Proof.
  intros (d & url & imgs & ls & Hrun).
  assert (G : forall ls s0 s1, Serial s0 -> Once (drains s0) s0 ->
                               run isPixiv s0 ls = Some s1 ->
                               Once (drains s1) s1).
  { clear. induction ls as [|l ls IH]; intros s0 s1 S O; simpl.
    - intros [= <-]. exact O.
    - destruct (step isPixiv s0 l) as [s2|] eqn:Hs; [|discriminate].
      apply IH; [apply (step_serial _ _ _ _ S Hs)
                |apply (step_once _ _ _ _ S O Hs)]. }
  apply (G ls (init d url imgs)); [apply init_serial| |exact Hrun].
  split; intros e; simpl; [|lia].
  rewrite bool_decide_eq_false_2 by apply not_elem_of_empty. reflexivity.
Qed.

(** However often discovery has looked at an element and however often it
    stands in the queue: it is extracted at most once and goes to the OCR
    server at most once, because [processImage] puts it into
    [processedImages] before its first await and turns it away when it is
    there. *)
Lemma submitted_at_most_once (isPixiv : bool) (s : State) (e : nat) :
  reachable isPixiv s ->
  (occurrences (EvAcquire e) (trace s) <= 1)%nat
  /\ (occurrences (EvOcr e) (trace s) <= 1)%nat
  /\ (occurrences (EvAcquire e) (trace s) = 1%nat <-> e ∈ processedImages s).
Proof.
  intros R. destruct (reachable_once _ _ R) as [H1 H2].
  specialize (H1 e). specialize (H2 e).
  destruct (decide (e ∈ processedImages s)) as [Hin|Hn].
  - rewrite bool_decide_eq_true_2 in H1 by exact Hin.
    split; [lia|]. split; [lia|]. split; auto.
  - rewrite bool_decide_eq_false_2 in H1 by exact Hn.
    split; [lia|]. split; [lia|]. split; [intros; lia|intros; contradiction].
Qed.

(** C3.  An image that is added while it is loading and has an attribute
    changed before it has loaded passes the guard of [handleNewImage] twice,
    since the guard is tested before the load wait and [observedImages] is
    written after it: the image is pushed onto the queue twice and taken
    from it twice.  The second [processImage] finds it in
    [processedImages], so it is submitted to the OCR server once. *)
Theorem C3_image_queued_twice :
  reachable false Examples.after_seen_twice
  /\ occurrences (EvCall 1) (trace Examples.after_seen_twice) = 2%nat
  /\ occurrences (EvPush 1) (trace Examples.after_seen_twice) = 2%nat
  /\ occurrences (EvShift 1) (trace Examples.after_seen_twice) = 2%nat
  /\ occurrences (EvOcr 1) (trace Examples.after_seen_twice) = 1%nat.
Proof.
  split.
  { exists {[ 1%nat := Examples.loading_image ]}, Examples.page_url, [],
      Examples.seen_twice.
    vm_compute. reflexivity. }
  repeat split; vm_compute; reflexivity.
Qed.

End OnceFacts.

(** ** More on JavaScript strings *)

Section SplitFacts.
Import JsString.

Lemma split_cons (sep : ascii) (s : string) : exists h t, split sep s = h :: t.
Proof.
  induction s as [|c s IH]; simpl; [eauto|].
  destruct (Ascii.eqb c sep); [eauto|]. destruct IH as (h & t & ->). eauto.
Qed.

Lemma includes_char (c x : ascii) (s : string) :
  includes (String x s) (String c "")
  = Ascii.eqb c x || includes s (String c "").
Proof. simpl. destruct (Ascii.eqb c x); reflexivity. Qed.

Lemma includes_char_app (c : ascii) (a b : string) :
  includes (a +:+ b) (String c "")
  = includes a (String c "") || includes b (String c "").
Proof.
  induction a as [|x a IH].
  - rewrite append_empty_l. destruct b; reflexivity.
  - rewrite append_cons, !includes_char, IH, orb_assoc. reflexivity.
Qed.

Lemma includes_char_split (c sep : ascii) (s : string) :
  includes s (String c "") = false ->
  Forall (fun w => includes w (String c "") = false) (split sep s).
Proof.
  induction s as [|x s IH]; intros H.
  - repeat constructor.
  - rewrite includes_char in H. apply orb_false_elim in H as [H1 H2].
    specialize (IH H2). simpl. destruct (Ascii.eqb x sep).
    + constructor; [reflexivity|exact IH].
    + destruct (split_cons sep s) as (h & t & Hs). rewrite Hs in *.
      apply Forall_cons in IH as [Hh Ht]. constructor; [|exact Ht].
      rewrite includes_char, H1, Hh. reflexivity.
Qed.

(** Joining what [split] gave with the separator gives the text back. *)
Lemma concat_split (s : string) : String.concat " " (split " " s) = s.
Proof.
  induction s as [|c s IH]; [reflexivity|]. simpl.
  destruct (split_cons " " s) as (h & t & Hs). rewrite Hs in *.
  destruct (Ascii.eqb c " ") eqn:E.
  - apply Ascii.eqb_eq in E. subst c.
    change (String.concat " " ("" :: h :: t))
      with ("" +:+ " " +:+ String.concat " " (h :: t)).
    rewrite IH. reflexivity.
  - destruct t as [|h' t]; simpl in *; rewrite <- IH; reflexivity.
Qed.



Lemma length_append (a b : string) :
  String.length (a +:+ b) = (String.length a + String.length b)%nat.
Proof.
  induction a as [|x a IH]; [reflexivity|].
  rewrite append_cons. simpl. rewrite IH. reflexivity.
Qed.

End SplitFacts.

(** ** wrapText *)

Section LayoutFacts.
Import JsString Layout.

Lemma pieces_cons (s : string) : exists h t, pieces s = h :: t.
Proof.
  induction s as [|c s IH]; simpl; [eauto|].
  destruct (is_gap c); [eauto|]. destruct IH as (h & t & ->). eauto.
Qed.


(** Cutting at one of the two gaps first and at both afterwards is cutting
    at both. *)
Lemma pieces_split (sep : ascii) (s : string) :
  is_gap sep = true -> flat_map pieces (split sep s) = pieces s.
Proof.
  intros Hsep. induction s as [|c s IH]; simpl; [reflexivity|].
  destruct (Ascii.eqb c sep) eqn:E.
  - apply Ascii.eqb_eq in E. subst c. rewrite Hsep. simpl. rewrite IH.
    reflexivity.
  - destruct (split_cons sep s) as (h & t & Hs). rewrite Hs in *. simpl in *.
    destruct (is_gap c); simpl.
    + rewrite IH. reflexivity.
    + rewrite <- IH. destruct (pieces_cons h) as (h1 & t1 & ->). reflexivity.
Qed.

Lemma filter_flat_map {A B} (P : B -> Prop) `{!forall x, Decision (P x)}
  (f : A -> list B) (l : list A) :
  filter P (flat_map f l) = flat_map (fun x => filter P (f x)) l.
Proof.
  induction l as [|a l IH]; simpl; [reflexivity|].
  rewrite filter_app, IH. reflexivity.
Qed.

Lemma words_of_split (sep : ascii) (s : string) :
  is_gap sep = true -> flat_map words_of (split sep s) = words_of s.
Proof.
  intros H. unfold words_of. rewrite <- (pieces_split sep s H).
  rewrite filter_flat_map. reflexivity.
Qed.

Lemma pieces_app (a b : string) (c : ascii) :
  is_gap c = true -> pieces (a +:+ String c b) = pieces a ++ pieces b.
Proof.
  intros Hc. induction a as [|x a IH]; simpl.
  - rewrite Hc. reflexivity.
  - change (String x a +:+ String c b) with (String x (a +:+ String c b)).
    simpl. rewrite IH. destruct (is_gap x); [reflexivity|].
    destruct (pieces_cons a) as (h & t & ->). reflexivity.
Qed.

Lemma words_of_app (a b : string) (c : ascii) :
  is_gap c = true -> words_of (a +:+ String c b) = words_of a ++ words_of b.
Proof.
  intros H. unfold words_of. rewrite (pieces_app a b c H), filter_app.
  reflexivity.
Qed.


Section Wrap.
Variable too_wide : string -> bool.

(** One word more: the words of the lines and of the current line, taken
    together, gain the words of that word. *)
Lemma add_word_words (st : list string * string) (word : string) :
  flat_map words_of (fst (add_word too_wide st word))
    ++ words_of (snd (add_word too_wide st word))
  = (flat_map words_of (fst st) ++ words_of (snd st)) ++ words_of word.
Proof.
  destruct st as [lines cur]. unfold add_word.
  destruct (too_wide _ && truthy cur); simpl.
  - rewrite flat_map_app. simpl. rewrite app_nil_r. reflexivity.
  - destruct cur as [|a cur]; simpl.
    + rewrite !append_empty_l, app_nil_r. reflexivity.
    + change (String a cur +:+ " " +:+ word)
        with (String a cur +:+ String " " word).
      rewrite words_of_app by reflexivity. rewrite app_assoc. reflexivity.
Qed.

Lemma fold_add_word_words (ws : list string) :
  forall st : list string * string,
    let st' := fold_left (add_word too_wide) ws st in
    flat_map words_of (fst st') ++ words_of (snd st')
    = (flat_map words_of (fst st) ++ words_of (snd st))
        ++ flat_map words_of ws.
Proof.
  induction ws as [|w ws IH]; intros st; simpl.
  - rewrite app_nil_r. reflexivity.
  - rewrite IH, add_word_words, <- app_assoc. reflexivity.
Qed.

Lemma wrap_words_words (text : string) :
  flat_map words_of (wrap_words too_wide text) = words_of text.
Proof.
  unfold wrap_words.
  pose proof (fold_add_word_words (split " " text) ([], "")) as H.
  simpl in H. rewrite (words_of_split " " text eq_refl) in H.
  destruct (fold_left _ _ _) as [lines cur]. simpl in H.
  destruct cur as [|a cur]; simpl.
  - rewrite app_nil_r in H. exact H.
  - rewrite flat_map_app. simpl. rewrite app_nil_r. exact H.
Qed.

(** X1.  Wrapping loses no text: the words of the lines [wrapText] returns,
    in order, are the words of the text, where a word is a maximal run
    of characters other than the space and the line break. *)
Theorem X1_wrapText_keeps_the_words (text : string) :
  flat_map words_of (wrapText too_wide text) = words_of text.
Proof.
  unfold wrapText. rewrite <- wrap_words_words.
  induction (wrap_words too_wide text) as [|line lines IH]; simpl;
    [reflexivity|].
  rewrite flat_map_app, IH. f_equal.
  destruct (includes line _).
  - apply words_of_split. reflexivity.
  - simpl. apply app_nil_r.
Qed.


(** *** Texts without a line break *)



Lemma add_word_plain (st : list string * string) (word : string) :
  let plain := fun w => includes w (String newline "") = false in
  Forall plain (fst st) -> plain (snd st) -> plain word ->
  Forall plain (fst (add_word too_wide st word))
  /\ plain (snd (add_word too_wide st word)).
Proof.
  destruct st as [lines cur]. simpl. intros Hl Hc Hw. unfold add_word.
  destruct (too_wide _ && truthy cur); simpl.
  - split; [|exact Hw]. apply Forall_app. split; [exact Hl|].
    constructor; [exact Hc|constructor].
  - split; [exact Hl|]. rewrite !includes_char_app, Hc, Hw.
    destruct (truthy cur); reflexivity.
Qed.

Lemma wrap_words_plain (text : string) :
  includes text (String newline "") = false ->
  Forall (fun w => includes w (String newline "") = false)
         (wrap_words too_wide text).
Proof.
  intros H. apply (includes_char_split _ " ") in H. unfold wrap_words.
  assert (G : forall ws st,
             Forall (fun w => includes w (String newline "") = false) ws ->
             Forall (fun w => includes w (String newline "") = false) (fst st) ->
             includes (snd st) (String newline "") = false ->
             let st' := fold_left (add_word too_wide) ws st in
             Forall (fun w => includes w (String newline "") = false) (fst st')
             /\ includes (snd st') (String newline "") = false).
  { clear. induction ws as [|w ws IH]; intros st Hws Hl Hc; simpl.
    - split; assumption.
    - apply Forall_cons in Hws as [Hw Hws].
      destruct (add_word_plain st w Hl Hc Hw) as [Hl' Hc'].
      apply IH; assumption. }
  specialize (G (split " " text) ([], "") H (Forall_nil_2 _) eq_refl).
  destruct (fold_left _ _ _) as [lines cur]. simpl in G. destruct G as [Hl Hc].
  destruct (truthy cur); [|exact Hl].
  apply Forall_app. split; [exact Hl|]. constructor; [exact Hc|constructor].
Qed.

(** Without a line break in the text the final [flatMap] changes nothing. *)
Lemma wrapText_plain (text : string) :
  includes text (String newline "") = false ->
  wrapText too_wide text = wrap_words too_wide text.
Proof.
  intros H. apply wrap_words_plain in H. unfold wrapText.
  induction (wrap_words too_wide text) as [|line lines IH]; [reflexivity|].
  apply Forall_cons in H as [Hline Hlines]. simpl. rewrite Hline. simpl.
  rewrite (IH Hlines). reflexivity.
Qed.

(** *** Where a line is broken *)

Lemma add_word_fits (words : list string) (st : list string * string)
  (word : string) :
  let fits := fun line =>
    truthy line = true /\ (too_wide line = false \/ line ∈ words) in
  word ∈ words ->
  Forall fits (fst st) -> (truthy (snd st) = true -> fits (snd st)) ->
  Forall fits (fst (add_word too_wide st word))
  /\ (truthy (snd (add_word too_wide st word)) = true ->
      fits (snd (add_word too_wide st word))).
Proof.
  destruct st as [lines cur]. simpl. intros Hw Hl Hc. unfold add_word.
  set (testLine := cur +:+ (if truthy cur then " " else "") +:+ word).
  assert (Hempty : truthy cur = false -> testLine = word).
  { unfold testLine. destruct cur; [|discriminate]. reflexivity. }
  clearbody testLine.
  destruct (too_wide testLine) eqn:Hwide; simpl.
  - destruct (truthy cur) eqn:Hcur; simpl.
    + split; [|intros Ht; split; [exact Ht|right; exact Hw]].
      apply Forall_app. split; [exact Hl|].
      constructor; [|constructor].
      destruct (Hc eq_refl) as [_ Hc']. split; [exact Hcur|exact Hc'].
    + split; [exact Hl|]. rewrite (Hempty eq_refl).
      intros Ht. split; [exact Ht|right; exact Hw].
  - split; [exact Hl|]. intros Ht. split; [exact Ht|left; exact Hwide].
Qed.

Lemma wrap_words_fits (text : string) :
  Forall (fun line => truthy line = true
                      /\ (too_wide line = false \/ line ∈ split " " text))
         (wrap_words too_wide text).
Proof.
  unfold wrap_words.
  set (fits := fun line => truthy line = true
                           /\ (too_wide line = false \/ line ∈ split " " text)).
  assert (G : forall ws st,
             ws ⊆ split " " text ->
             Forall fits (fst st) -> (truthy (snd st) = true -> fits (snd st)) ->
             let st' := fold_left (add_word too_wide) ws st in
             Forall fits (fst st')
             /\ (truthy (snd st') = true -> fits (snd st'))).
  { induction ws as [|w ws IH]; intros st Hws Hl Hc; simpl.
    - split; assumption.
    - assert (Hw : w ∈ split " " text) by (apply Hws; left).
      destruct (add_word_fits (split " " text) st w Hw Hl Hc) as [Hl' Hc'].
      apply IH; [|assumption|assumption].
      intros x Hx. apply Hws. right. exact Hx. }
  assert (G0 := G (split " " text) ([], "")).
  destruct (fold_left _ _ _) as [lines cur]. simpl in G0.
  destruct G0 as [Hl Hc]; [reflexivity|constructor|discriminate|].
  destruct (truthy cur) eqn:Hcur; [|exact Hl].
  apply Forall_app. split; [exact Hl|]. constructor; [auto|constructor].
Qed.

(** X2.  For a text without a line break, no line that [wrapText] returns is
    empty, and a line is wider than the box only when it is a single word of
    the text: the text is broken wherever one more word would not fit. *)
Theorem X2_wrapText_overflows_only_by_one_word (text : string) :
  includes text (String newline "") = false ->
  Forall (fun line => truthy line = true
                      /\ (too_wide line = false \/ line ∈ split " " text))
         (wrapText too_wide text).
Proof. intros H. rewrite (wrapText_plain text H). apply wrap_words_fits. Qed.


(** *** A text that fits *)


(** Once the current line is not empty and no test line is too wide, the
    words are only joined. *)
Lemma fold_add_word_joins (ws : list string) :
  forall (lines : list string) (cur : string),
    truthy cur = true ->
    (forall p q, String.concat " " (cur :: ws) = p +:+ q ->
                 too_wide p = false) ->
    fold_left (add_word too_wide) ws (lines, cur)
    = (lines, String.concat " " (cur :: ws)).
Proof.
  induction ws as [|w ws IH]; intros lines cur Hcur Hfit; [reflexivity|].
  assert (E : String.concat " " (cur :: w :: ws)
              = String.concat " " ((cur +:+ " " +:+ w) :: ws)).
  { destruct ws as [|w' ws]; simpl; [reflexivity|].
    rewrite !append_assoc. reflexivity. }
  simpl fold_left. rewrite Hcur.
  assert (Hw : too_wide (cur +:+ " " +:+ w) = false).
  { destruct ws as [|w' ws].
    - apply (Hfit _ ""). simpl. rewrite append_empty_r. reflexivity.
    - apply (Hfit _ (" " +:+ String.concat " " (w' :: ws))).
      rewrite E. reflexivity. }
  rewrite Hw. simpl andb. cbv iota. rewrite E. apply IH.
  - destruct cur; [discriminate|reflexivity].
  - intros p q H. apply (Hfit p q). rewrite E. exact H.
Qed.

Lemma fold_add_word_fits (text : string) :
  (forall p q, skip_spaces text = p +:+ q -> too_wide p = false) ->
  fold_left (add_word too_wide) (split " " text) ([], "")
  = ([], skip_spaces text).
Proof.
  induction text as [|c text IH]; intros Hfit.
  { simpl. rewrite andb_false_r. reflexivity. }
  simpl in *. destruct (Ascii.eqb c " ") eqn:E.
  - simpl. rewrite andb_false_r. apply IH, Hfit.
  - destruct (split_cons " " text) as (h & t & Hs).
    pose proof (concat_split text) as J. rewrite Hs in *. simpl fold_left.
    rewrite andb_false_r.
    rewrite !append_empty_l.
    assert (E' : String.concat " " (String c h :: t) = String c text).
    { rewrite <- J. destruct t; reflexivity. }
    rewrite <- E'. apply fold_add_word_joins; [reflexivity|].
    intros p q H. apply (Hfit p q). rewrite <- E'. exact H.
Qed.

Lemma skip_spaces_plain (c : ascii) (text : string) :
  includes text (String c "") = false ->
  includes (skip_spaces text) (String c "") = false.
Proof.
  induction text as [|x text IH]; intros H; [reflexivity|]. simpl skip_spaces.
  destruct (Ascii.eqb x " "); [|exact H].
  rewrite includes_char in H. apply orb_false_elim in H as [_ H]. auto.
Qed.

(** X3.  A text without a line break of which no part from its first
    character that is not a space is too wide comes back as one line: the
    text itself, without its leading spaces; a text of spaces only gives no
    line at all. *)
Theorem X3_wrapText_of_a_text_that_fits (text : string) :
  includes text (String newline "") = false ->
  (forall p q, skip_spaces text = p +:+ q -> too_wide p = false) ->
  wrapText too_wide text
  = if truthy (skip_spaces text) then [skip_spaces text] else [].
Proof.
  intros Hplain Hfit. rewrite (wrapText_plain text Hplain).
  unfold wrap_words. rewrite (fold_add_word_fits text Hfit).
  destruct (truthy _); reflexivity.
Qed.

End Wrap.

Lemma X2_witness :
  Forall (fun line => truthy line = true
                      /\ (Samples.narrow line = false
                          \/ line ∈ split " " "the quick brown fox"))
         (wrapText Samples.narrow "the quick brown fox").
Proof.
  apply (X2_wrapText_overflows_only_by_one_word Samples.narrow
           "the quick brown fox").
  reflexivity.
Defined.

Lemma X3_witness :
  wrapText Samples.narrow "  hello world" = ["hello world"].
Proof.
  apply (X3_wrapText_of_a_text_that_fits Samples.narrow "  hello world");
    [reflexivity|].
  intros p q H. apply (f_equal String.length) in H.
  rewrite length_append in H. simpl in H. unfold Samples.narrow.
  apply Nat.ltb_ge. lia.
Defined.

End LayoutFacts.

(** ** The timer and the image of handleImageData *)

Section OffscreenOrder.
Import Offscreen.

(** A settled promise is not settled again: neither callback nor timer
    changes it. *)
Lemma on_timeout_fixed (st : Decode) :
  promise st <> Pending -> promise (on_timeout st) = promise st.
Proof.
  intros H. unfold on_timeout. destruct (armed st); [|reflexivity]. simpl.
  destruct (promise st); [contradiction|reflexivity|reflexivity].
Qed.

Lemma on_event_fixed (e : ImgEvent) (st : Decode) :
  promise st <> Pending -> promise (on_event e st) = promise st.
Proof.
  intros H. destruct e as [d|]; simpl.
  - destruct (dec_png d), (promise st); try contradiction; reflexivity.
  - destruct (promise st); [contradiction|reflexivity|reflexivity].
Qed.

Lemma deliver_fixed (timer_first : bool) (events : list (N * ImgEvent)) :
  forall st : Decode,
    promise st <> Pending ->
    promise (deliver timer_first events st) = promise st.
Proof.
  induction events as [|[t e] events IH]; intros st H; simpl.
  - apply on_timeout_fixed, H.
  - assert (H1 : promise (if due timer_first t then on_timeout st else st)
                 = promise st).
    { destruct (due timer_first t); [apply on_timeout_fixed, H|reflexivity]. }
    rewrite IH; rewrite on_event_fixed; rewrite ?H1; auto.
Qed.

(** X4.  The answer of [handleImageData] is decided by whichever comes
    first, the ten-second timer or the first event of the image: the timer
    gives "Image load timeout"; a load gives the re-encoded data URL with
    its length as size, or the message of the exception when the canvas
    throws; an error gives "Failed to load image".  Whatever the image does
    afterwards changes nothing, and without any event the timer answers. *)
Theorem X4_first_of_timer_and_image_decides
  (timer_first : bool) (cw ch t : N) (e : ImgEvent)
  (rest : list (N * ImgEvent)) :
  handleImageData timer_first cw ch ((t, e) :: rest)
  = Some (if due timer_first t then Background.ReplyFail timeout_error
          else match e with
               | OnLoad d =>
                   match dec_png d with
                   | inl png =>
                       Background.ReplyOk png (N.of_nat (String.length png))
                   | inr err => Background.ReplyFail err
                   end
               | OnError => Background.ReplyFail load_error
               end)
  /\ handleImageData timer_first cw ch []
     = Some (Background.ReplyFail timeout_error).
Proof.
  split; [|reflexivity]. unfold handleImageData. simpl deliver.
  rewrite deliver_fixed.
  - destruct (due timer_first t), e as [d|]; simpl;
      try destruct (dec_png d); reflexivity.
  - destruct (due timer_first t), e as [d|]; simpl;
      try destruct (dec_png d); discriminate.
Qed.

End OffscreenOrder.

(** ** setupOffscreenDocument *)

Section SetupFacts.
Import Setup.

Lemma init_locked : Locked init.
Proof. split; simpl; intros *; rewrite ?lookup_empty; discriminate. Qed.

Lemma finish_locked (k : nat) (r : Result) (s : State) :
  Locked s -> Locked (finish k r s).
Proof.
  intros [H1 H2 H3]. split; simpl.
  - exact H1.
  - intros k' p H. apply lookup_delete_Some in H as [_ H]. eauto.
  - intros k1 k2 p q Ha Hb. apply lookup_delete_Some in Ha as [_ Ha].
    apply lookup_delete_Some in Hb as [_ Hb]. eauto.
Qed.

Lemma step_locked (s s' : State) (l : Label) :
  Locked s -> step s l = Some s' -> Locked s'.
Proof.
  intros L. pose proof L as [H1 H2 H3]. destruct l as [|k n|k msg|p f|k]; simpl.
  - intros [= <-]. split; simpl; [exact H1| |].
    + intros k p H. apply lookup_insert_Some in H as [[_ H]|[_ H]];
        [discriminate|eauto].
    + intros k k' p q Ha Hb.
      apply lookup_insert_Some in Ha as [[_ Ha]|[_ Ha]]; [discriminate|].
      apply lookup_insert_Some in Hb as [[_ Hb]|[_ Hb]]; [discriminate|].
      eauto.
  - destruct (calls s !! k) as [[| |]|] eqn:Hk; try discriminate.
    intros [= <-]. unfold after_contexts.
    destruct (0 <? n)%nat; [apply finish_locked, L|].
    destruct (offscreenCreating s) as [p|] eqn:Hv.
    + split; simpl; rewrite ?Hv.
      * intros q H. apply H1, H.
      * intros k' q H. apply lookup_insert_Some in H as [[_ H]|[_ H]];
          [discriminate|]. eauto.
      * intros k1 k2 q1 q2 Ha Hb.
        apply lookup_insert_Some in Ha as [[_ Ha]|[_ Ha]]; [discriminate|].
        apply lookup_insert_Some in Hb as [[_ Hb]|[_ Hb]]; [discriminate|].
        eauto.
    + assert (Hnone : forall k' q, calls s !! k' <> Some (AwaitOwn q)).
      { intros k' q H. apply H2 in H. discriminate. }
      split; simpl.
      * intros q H. apply lookup_app_Some in H as [H|[Hq H]].
        -- apply H1 in H. discriminate.
        -- f_equal. apply list_lookup_singleton_Some in H as [H _]. lia.
      * intros k' q H. apply lookup_insert_Some in H as [[_ H]|[_ H]];
          [congruence|]. exfalso. exact (Hnone _ _ H).
      * intros k1 k2 q1 q2 Ha Hb.
        apply lookup_insert_Some in Ha as [[<- _]|[_ Ha]];
          [|exfalso; exact (Hnone _ _ Ha)].
        apply lookup_insert_Some in Hb as [[<- _]|[_ Hb]];
          [reflexivity|exfalso; exact (Hnone _ _ Hb)].
  - destruct (calls s !! k) as [[| |]|] eqn:Hk; try discriminate.
    intros [= <-]. apply finish_locked, L.
  - destruct (creations s !! p) as [[| |]|] eqn:Hp; try discriminate.
    intros [= <-]. split; simpl; [|exact H2|exact H3].
    intros q H. destruct (decide (p = q)) as [->|Hne].
    + rewrite list_lookup_insert_eq in H
        by (apply lookup_lt_Some in Hp; exact Hp).
      destruct f; discriminate.
    + rewrite list_lookup_insert_ne in H by exact Hne. apply H1, H.
  - destruct (calls s !! k) as [c|] eqn:Hk; [|discriminate].
    destruct c as [|p|p]; simpl; [discriminate| |].
    + destruct (creations s !! p) as [[| |msg]|] eqn:Hp; try discriminate;
        intros [= <-]; [|apply finish_locked, L].
      pose proof (H2 _ _ Hk) as Hv.
      split; simpl.
      * intros q H. pose proof (H1 _ H) as Hq. rewrite Hv in Hq.
        injection Hq as ->. congruence.
      * intros k' q H. apply lookup_delete_Some in H as [Hne H].
        exfalso. apply Hne. exact (H3 _ _ _ _ Hk H).
      * intros k1 k2 q1 q2 Ha Hb. apply lookup_delete_Some in Ha as [_ Ha].
        apply lookup_delete_Some in Hb as [_ Hb]. eauto.
    + destruct (creations s !! p) as [[| |msg]|] eqn:Hp; try discriminate;
        intros [= <-]; apply finish_locked, L.
Qed.

Lemma run_locked (ls : list Label) :
  forall s s' : State, Locked s -> run s ls = Some s' -> Locked s'.
Proof.
  induction ls as [|l ls IH]; intros s s' L; simpl.
  - intros [= <-]. exact L.
  - destruct (step s l) as [s1|] eqn:Hs; [|discriminate].
    apply IH, (step_locked _ _ _ L Hs).
Qed.

Lemma reachable_locked (s : State) : reachable s -> Locked s.
Proof. intros [ls H]. exact (run_locked ls _ _ init_locked H). Qed.


(** Only the answer of [getContexts] makes a call create a document, and
    then the variable was [null]. *)
Lemma step_creates (s s' : State) (l : Label) :
  step s l = Some s' ->
  length (creations s') = S (length (creations s)) ->
  offscreenCreating s = None.
Proof.
  destruct l as [|k n|k msg|p f|k]; simpl.
  - intros [= <-]. simpl. lia.
  - destruct (calls s !! k) as [[| |]|]; try discriminate.
    intros [= <-]. unfold after_contexts.
    destruct (0 <? n)%nat; simpl; [lia|].
    destruct (offscreenCreating s); simpl; [lia|reflexivity].
  - destruct (calls s !! k) as [[| |]|]; try discriminate.
    intros [= <-]. simpl. lia.
  - destruct (creations s !! p) as [[| |]|]; try discriminate.
    intros [= <-]. simpl. rewrite length_insert. lia.
  - destruct (calls s !! k) as [[|p|p]|]; simpl; try discriminate;
      destruct (creations s !! p) as [[| |]|]; try discriminate;
      intros [= <-]; simpl; lia.
Qed.

(** X5.  However the calls of [setupOffscreenDocument] interleave and
    whatever [getContexts] answers, at most one creation of the offscreen
    document is pending at any time, and [createDocument] is called only
    when none is. *)
Theorem X5_one_creation_at_a_time (s : State) :
  reachable s ->
  (forall p q, creations s !! p = Some Creating ->
               creations s !! q = Some Creating -> p = q)
  /\ (forall l s', step s l = Some s' ->
                   length (creations s') = S (length (creations s)) ->
                   Forall (fun c => c <> Creating) (creations s)).
Proof.
  intros R. pose proof (reachable_locked s R) as [H1 H2 H3]. split.
  - intros p q Hp Hq. apply H1 in Hp, Hq. congruence.
  - intros l s' Hs Hlen. pose proof (step_creates s s' l Hs Hlen) as Hv.
    apply Forall_lookup_2. intros p c Hp ->. apply H1 in Hp. congruence.
Qed.

Lemma step_jammed (p : nat) (msg : string) (s s' : State) (l : Label) :
  Locked s -> jammed p msg s -> step s l = Some s' ->
  jammed p msg s' /\ creations s' = creations s.
Proof.
  intros [H1 H2 H3] (Hv & Hp & Hnone).
  destruct l as [|k n|k m|q f|k]; simpl.
  - intros [= <-]. repeat split; simpl; try assumption.
    intros k q H. apply lookup_insert_Some in H as [[_ H]|[_ H]];
      [discriminate|exact (Hnone _ _ H)].
  - destruct (calls s !! k) as [[| |]|]; try discriminate.
    intros [= <-]. unfold after_contexts.
    destruct (0 <? n)%nat.
    + repeat split; simpl; try assumption.
      intros k' q H. apply lookup_delete_Some in H as [_ H].
      exact (Hnone _ _ H).
    + rewrite Hv. repeat split; simpl; try assumption.
      intros k' q H. apply lookup_insert_Some in H as [[_ H]|[_ H]];
        [discriminate|exact (Hnone _ _ H)].
  - destruct (calls s !! k) as [[| |]|]; try discriminate.
    intros [= <-]. repeat split; simpl; try assumption.
    intros k' q H. apply lookup_delete_Some in H as [_ H].
    exact (Hnone _ _ H).
  - destruct (creations s !! q) as [[| |]|] eqn:Hq; try discriminate.
    pose proof (H1 _ Hq) as Hq'. rewrite Hv in Hq'. injection Hq' as ->.
    congruence.
  - destruct (calls s !! k) as [[|q|q]|] eqn:Hk; simpl; try discriminate.
    + exfalso. exact (Hnone _ _ Hk).
    + destruct (creations s !! q) as [[| |]|]; try discriminate;
        intros [= <-]; repeat split; simpl; try assumption;
        intros k' q' H; apply lookup_delete_Some in H as [_ H];
        exact (Hnone _ _ H).
Qed.

Lemma run_jammed (p : nat) (msg : string) (ls : list Label) :
  forall s s' : State,
    Locked s -> jammed p msg s -> run s ls = Some s' ->
    jammed p msg s' /\ creations s' = creations s.
Proof.
  induction ls as [|l ls IH]; intros s s' L J; simpl.
  - intros [= <-]. split; [exact J|reflexivity].
  - destruct (step s l) as [s1|] eqn:Hs; [|discriminate]. intros Hrun.
    destruct (step_jammed p msg s s1 l L J Hs) as [J1 E1].
    destruct (IH s1 s' (step_locked _ _ _ L Hs) J1 Hrun) as [J2 E2].
    split; [exact J2|congruence].
Qed.

(** X6.  A creation that fails is never retried.  When the call that
    started it goes on it throws and leaves the rejected promise in
    [offscreenCreating]; from then on the variable is never written and
    [createDocument] is never called again, and every call that finds no
    offscreen document throws the same error. *)
Theorem X6_failed_creation_is_never_retried
  (s : State) (k p : nat) (msg : string) :
  reachable s ->
  calls s !! k = Some (AwaitOwn p) ->
  creations s !! p = Some (CreateFailed msg) ->
  exists s1,
    step s (LResume k) = Some s1
    /\ results s1 !! k = Some (Threw msg)
    /\ forall ls s2,
         run s1 ls = Some s2 ->
         offscreenCreating s2 = Some p
         /\ creations s2 = creations s1
         /\ forall k', calls s2 !! k' = Some AwaitContexts ->
              exists s3 s4,
                step s2 (LContexts k' 0) = Some s3
                /\ step s3 (LResume k') = Some s4
                /\ results s4 !! k' = Some (Threw msg).
Proof.
  intros R Hk Hp. pose proof (reachable_locked s R) as L.
  assert (Hs : step s (LResume k) = Some (finish k (Threw msg) s)).
  { simpl. rewrite Hk. simpl. rewrite Hp. reflexivity. }
  exists (finish k (Threw msg) s). split; [exact Hs|]. split.
  { simpl. apply lookup_insert_eq. }
  pose proof (step_locked _ _ _ L Hs) as L1.
  assert (J1 : jammed p msg (finish k (Threw msg) s)).
  { destruct L as [H1 H2 H3]. repeat split; simpl; [eauto|exact Hp|].
    intros k' q H. apply lookup_delete_Some in H as [Hne H].
    apply Hne. exact (H3 _ _ _ _ Hk H). }
  intros ls s2 Hrun.
  destruct (run_jammed p msg ls _ _ L1 J1 Hrun) as [(Hv & Hp2 & Hnone) E].
  split; [exact Hv|]. split; [exact E|]. intros k' Hk'.
  eexists _, _. split; [|split].
  - simpl. rewrite Hk'. reflexivity.
  - simpl. unfold after_contexts. simpl. rewrite Hv. simpl.
    rewrite lookup_insert_eq. simpl. rewrite Hp2. reflexivity.
  - simpl. apply lookup_insert_eq.
Qed.

Lemma X5_witness :
  reachable Samples.two_calls
  /\ forall p q, creations Samples.two_calls !! p = Some Creating ->
                 creations Samples.two_calls !! q = Some Creating -> p = q.
Proof.
  assert (R : reachable Samples.two_calls)
    by (exists [LCall; LCall; LContexts 0 0; LContexts 1 0]; reflexivity).
  split; [exact R|].
  apply (X5_one_creation_at_a_time Samples.two_calls R).
Defined.

Lemma X6_witness :
  exists s1,
    step Samples.creation_failed (LResume 0) = Some s1
    /\ results s1 !! 0%nat
       = Some (Threw "Only a single offscreen document may be created.").
Proof.
  destruct (X6_failed_creation_is_never_retried Samples.creation_failed 0 0
              "Only a single offscreen document may be created.")
    as (s1 & H1 & H2 & _).
  - exists [LCall; LContexts 0 0;
            LSettle 0 (Some "Only a single offscreen document may be created.")].
    reflexivity.
  - reflexivity.
  - reflexivity.
  - exists s1. split; assumption.
Defined.

End SetupFacts.

(** ** The books of the content script *)

Section LedgerFacts.
Import JsString Dom Content Trace Ledger.

(** Splits on every test of the term under consideration. *)
Ltac tests :=
  repeat match goal with
         | |- context [if ?b then _ else _] => destruct b
         | |- context [match ?x with Some _ => _ | None => _ end] => destruct x
         | |- context [match ?x with [] => _ | _ :: _ => _ end] => destruct x
         end.

Lemma Counted_mono (s s' : State) :
  (forall e, e ∈ processingQueue s' -> e ∈ processingQueue s) ->
  observedImages s ⊆ observedImages s' ->
  processedImages s' ⊆ processedImages s ->
  Counted s -> Counted s'.
Proof.
  intros Hq Ho Hp [C1 C2]. split.
  - intros e H. apply Ho, C1, Hq, H.
  - intros e H. apply Ho, C2, Hp, H.
Qed.

Lemma Counted_fields (s s' : State) :
  processingQueue s' = processingQueue s ->
  observedImages s' = observedImages s ->
  processedImages s' = processedImages s ->
  Counted s -> Counted s'.
Proof.
  intros Hq Ho Hp. apply Counted_mono; rewrite ?Hq, ?Ho, ?Hp; auto.
Qed.

Lemma processImage_counted (e : nat) (s : State) :
  e ∈ observedImages s -> Counted s -> Counted (processImage e s).
Proof.
  intros He C. unfold processImage.
  destruct (isPageChanging s); [apply (Counted_fields s); auto|].
  destruct (bool_decide _); [apply (Counted_fields s); auto|].
  destruct C as [C1 C2]. split; simpl; [exact C1|].
  intros x Hx. apply elem_of_union in Hx as [Hx|Hx]; [|auto].
  apply elem_of_singleton in Hx. subst x. exact He.
Qed.

Lemma next_item_counted (s : State) : Counted s -> Counted (next_item s).
Proof.
  intros C. unfold next_item.
  destruct (processingQueue s) as [|e rest] eqn:Hq;
    [apply (Counted_fields s); auto|].
  destruct (isPageChanging s); [apply (Counted_fields s); auto|].
  assert (He : e ∈ observedImages s).
  { apply (counted_queue _ C). rewrite Hq. left. }
  apply processImage_counted; [exact He|].
  apply (Counted_mono s); simpl; auto.
  intros x Hx. rewrite Hq. right. exact Hx.
Qed.

Lemma processQueue_counted (s : State) : Counted s -> Counted (processQueue s).
Proof.
  intros C. unfold processQueue. destruct (_ || _); [exact C|].
  apply next_item_counted, (Counted_fields s); auto.
Qed.

(** The steps inside an item leave the three fields alone. *)
Lemma after_extract_ledger (e : nat) (d : option string) (s : State) :
  processingQueue (after_extract e d s) = processingQueue s
  /\ observedImages (after_extract e d s) = observedImages s
  /\ processedImages (after_extract e d s) = processedImages s
  /\ isProcessing (after_extract e d s) = isProcessing s.
Proof. unfold after_extract. tests; repeat split. Qed.

Lemma after_ocr_ledger (e : nat) (r : OcrResult) (s : State) :
  processingQueue (after_ocr e r s) = processingQueue s
  /\ observedImages (after_ocr e r s) = observedImages s
  /\ processedImages (after_ocr e r s) = processedImages s
  /\ isProcessing (after_ocr e r s) = isProcessing s.
Proof.
  unfold after_ocr. destruct (isPageChanging _); [repeat split|].
  destruct r as [| |[|b bs]|]; repeat split.
Qed.

Lemma after_overlay_ledger (e : nat) (d : Overlay.Decode) (s : State) :
  processingQueue (after_overlay e d s) = processingQueue s
  /\ observedImages (after_overlay e d s) = observedImages s
  /\ processedImages (after_overlay e d s) = processedImages s
  /\ isProcessing (after_overlay e d s) = isProcessing s.
Proof. repeat split. Qed.

Lemma after_item_counted (e : nat) (threw : bool) (s : State) :
  Counted s -> Counted (after_item e threw s).
Proof.
  intros C. unfold after_item.
  assert (C' : Counted (if threw then fail e s else s))
    by (destruct threw; [apply (Counted_fields s); auto|exact C]).
  destruct (isPageChanging _);
    [apply (Counted_fields (if threw then fail e s else s)); auto|].
  apply next_item_counted, C'.
Qed.

Lemma resume_counted (k : nat) (o : Outcome) (s s' : State) :
  Counted s -> resume k o s = Some s' -> Counted s'.
Proof.
  intros C. unfold resume. destruct (drains s !! k) as [st|]; [|discriminate].
  destruct st, o; try discriminate; intros [= <-].
  - destruct (after_extract_ledger e
                (extractImageData changing img env).2
                (set_drains (delete k (drains s)) s)) as (H1 & H2 & H3 & _).
    apply (Counted_fields s); auto.
  - destruct (after_ocr_ledger e r (set_drains (delete k (drains s)) s))
      as (H1 & H2 & H3 & _).
    apply (Counted_fields s); auto.
  - apply (Counted_fields s); auto.
  - apply after_item_counted, (Counted_fields s); auto.
Qed.

Lemma enqueue_counted (e : nat) (s : State) :
  e ∈ observedImages s -> Counted s -> Counted (enqueue e s).
Proof.
  intros He [C1 C2]. split; simpl; [|exact C2].
  intros x Hx. apply elem_of_app in Hx as [Hx|Hx]; [auto|].
  apply list_elem_of_singleton in Hx. subst x. exact He.
Qed.

Lemma accept_counted (drain : bool) (w : Wait) (s : State) :
  Counted s -> Counted (accept drain w s).
Proof.
  intros C. destruct w as [e originalSrc|e]; simpl.
  - unfold accept_pixiv. destruct (_ && _); [|exact C].
    match goal with
    | |- Counted (if drain then processQueue ?x else ?x) =>
        assert (Counted x)
    end.
    { apply enqueue_counted; [simpl; apply elem_of_add|].
      apply (Counted_mono s); simpl; auto.
      intros x Hx. apply elem_of_union_r, Hx. }
    destruct drain; [apply processQueue_counted|]; assumption.
  - unfold accept_generic. destruct (_ && _); [|exact C].
    match goal with
    | |- Counted (if drain then processQueue ?x else ?x) =>
        assert (Counted x)
    end.
    { apply enqueue_counted; [simpl; apply elem_of_add|].
      apply (Counted_mono s); simpl; auto.
      intros x Hx. apply elem_of_union_r, Hx. }
    destruct drain; [apply processQueue_counted|]; assumption.
Qed.

Lemma inspect_counted (isPixiv drain : bool) (e : nat) (s s' : State) :
  Counted s -> inspect isPixiv drain e s = inl s' -> Counted s'.
Proof.
  intros C. unfold inspect. destruct isPixiv.
  - destruct (pixiv_source _); [|intros [= <-]; exact C].
    destruct (_ || _); [discriminate|]. intros [= <-].
    apply (accept_counted drain (WaitPixiv e _)), C.
  - destruct (negb _); [discriminate|]. intros [= <-].
    apply (accept_counted drain (WaitGeneric e)), C.
Qed.

Lemma handleNewImage_counted (isPixiv : bool) (e : nat) (s : State) :
  Counted s -> Counted (handleNewImage isPixiv e s).
Proof.
  intros C. unfold handleNewImage. destruct (_ || _); [exact C|].
  assert (C' : Counted (log (EvCall e) s))
    by (apply (Counted_fields s); auto).
  destruct (inspect _ _ _ _) as [s'|w] eqn:Hi.
  - apply (inspect_counted _ _ _ _ _ C' Hi).
  - apply (Counted_fields s); auto.
Qed.

Lemma stop_counted (forget : bool) (s : State) :
  Counted s -> Counted (stop forget s).
Proof.
  intros C. unfold stop.
  destruct (imageObserver _); [destruct forget|];
    (apply (Counted_mono s); simpl; auto;
     intros x Hx; apply elem_of_nil in Hx; contradiction).
Qed.

Lemma step_counted (isPixiv : bool) (s s' : State) (l : Label) :
  Counted s -> step isPixiv s l = Some s' -> Counted s'.
Proof.
  intros C. destruct l; simpl.
  - destruct (phase s) as [[|e todo]|w todo|]; try discriminate.
    + intros [= <-]. apply processQueue_counted, (Counted_fields s); auto.
    + destruct (inspect _ _ _ _) as [s0|w] eqn:Hi; intros [= <-].
      * apply (Counted_fields s0); auto. apply (inspect_counted _ _ _ _ _ C Hi).
      * apply (Counted_fields s); auto.
  - destruct (phase s) as [todo|w todo|]; try discriminate.
    intros [= <-]. apply (Counted_fields (accept false w s)); auto.
    apply accept_counted, C.
  - destruct (observing s); [|discriminate]. intros [= <-].
    apply handleNewImage_counted, C.
  - destruct (observing s); [|discriminate].
    destruct (_ || _); intros [= <-]; [exact C|].
    apply handleNewImage_counted, C.
  - destruct (loads s !! k) as [w|]; [|discriminate]. intros [= <-].
    apply accept_counted, (Counted_fields s); auto.
  - apply resume_counted, C.
  - intros [= <-]. apply (Counted_fields s); auto.
  - intros [= <-]. apply (Counted_fields s); auto.
  - destruct (running s); [|discriminate]. intros [= <-].
    unfold on_document_mutation. destruct (String.eqb _ _); [exact C|].
    apply (Counted_fields (stop true s)); auto. apply stop_counted, C.
  - destruct (running s); [|discriminate]. intros [= <-]. apply stop_counted, C.
  - destruct (running s); [|discriminate]. intros [= <-]. apply stop_counted, C.
Qed.

Lemma reachable_counted (isPixiv : bool) (s : State) :
  reachable isPixiv s -> Counted s.
Proof.
  intros (d & url & imgs & ls & Hrun).
  assert (G : forall ls s0 s1, Counted s0 ->
                               run isPixiv s0 ls = Some s1 -> Counted s1).
  { clear. induction ls as [|l ls IH]; intros s0 s1 C; simpl.
    - intros [= <-]. exact C.
    - destruct (step isPixiv s0 l) as [s2|] eqn:Hs; [|discriminate].
      apply IH, (step_counted _ _ _ _ C Hs). }
  apply (G ls (init d url imgs)); [|exact Hrun].
  split; simpl.
  - intros e H. apply elem_of_nil in H. contradiction.
  - intros e H. apply elem_of_empty in H. contradiction.
Qed.

(** X7.  The three sets the statistics line prints are nested: a failed
    image has been processed and a processed image has been observed, so
    Failed <= Processed <= Total; and whatever waits in the queue has been
    observed. *)
Theorem X7_failed_processed_observed (isPixiv : bool) (s : State) :
  reachable isPixiv s ->
  failedImages s ⊆ processedImages s
  /\ processedImages s ⊆ observedImages s
  /\ (forall e, e ∈ processingQueue s -> e ∈ observedImages s)
  /\ (size (failedImages s) <= size (processedImages s)
      <= size (observedImages s))%nat.
Proof.
  intros R. pose proof (reachable_books isPixiv s R) as [B _ _].
  pose proof (reachable_counted isPixiv s R) as [C1 C2].
  repeat split; auto; apply subseteq_size; assumption.
Qed.


(** *** Nothing is left waiting *)

Lemma processImage_busy (e : nat) (s : State) :
  isProcessing (processImage e s) = isProcessing s.
Proof. unfold processImage. tests; reflexivity. Qed.

Lemma next_item_tended (s : State) :
  isProcessing s = true -> tended (next_item s).
Proof.
  intros Hb. unfold next_item, tended.
  destruct (processingQueue s) as [|e rest] eqn:Hq; [simpl; auto|].
  destruct (isPageChanging s) eqn:Hc; [simpl; congruence|].
  rewrite processImage_busy. simpl. congruence.
Qed.

Lemma processQueue_tended (s : State) : tended (processQueue s).
Proof.
  unfold processQueue. destruct (isProcessing s) eqn:Hb; simpl.
  - intros _ H. congruence.
  - case_bool_decide as Hq; [intros _ _; exact Hq|].
    apply next_item_tended. reflexivity.
Qed.

Lemma tended_fields (s s' : State) :
  processingQueue s' = processingQueue s ->
  isProcessing s' = isProcessing s ->
  isPageChanging s' = isPageChanging s ->
  tended s -> tended s'.
Proof. unfold tended. intros -> -> ->. auto. Qed.

Lemma accept_tended (w : Wait) (s : State) :
  tended s -> tended (accept true w s).
Proof.
  intros T. destruct w as [e originalSrc|e]; simpl.
  - unfold accept_pixiv. destruct (_ && _); [|exact T].
    apply processQueue_tended.
  - unfold accept_generic. destruct (_ && _); [|exact T].
    apply processQueue_tended.
Qed.

Lemma handleNewImage_tended (isPixiv : bool) (e : nat) (s : State) :
  tended s -> tended (handleNewImage isPixiv e s).
Proof.
  intros T. unfold handleNewImage. destruct (_ || _); [exact T|].
  assert (T' : tended (log (EvCall e) s))
    by (apply (tended_fields s); auto).
  unfold inspect. destruct isPixiv.
  - destruct (pixiv_source _); [|exact T'].
    destruct (_ || _); [apply (tended_fields s); auto|].
    apply (accept_tended (WaitPixiv e _)), T'.
  - destruct (negb _); [apply (tended_fields s); auto|].
    apply (accept_tended (WaitGeneric e)), T'.
Qed.

Lemma stop_tended (forget : bool) (s : State) : tended (stop forget s).
Proof.
  unfold stop, tended.
  destruct (imageObserver _); [destruct forget|]; simpl; discriminate.
Qed.

Lemma resume_tended (k : nat) (o : Outcome) (s s' : State) :
  Serial s -> resume k o s = Some s' -> tended s'.
Proof.
  intros [_ Hb _ _]. unfold resume.
  destruct (drains s !! k) as [st|] eqn:Hk; [|discriminate].
  assert (Hbusy : isProcessing s = true).
  { rewrite Hb. apply bool_decide_eq_true_2. intros E. rewrite E in Hk.
    discriminate. }
  destruct st, o; try discriminate; intros [= <-].
  - destruct (after_extract_ledger e
                (extractImageData changing img env).2
                (set_drains (delete k (drains s)) s)) as (_ & _ & _ & H).
    intros _. rewrite H. simpl. congruence.
  - destruct (after_ocr_ledger e r (set_drains (delete k (drains s)) s))
      as (_ & _ & _ & H).
    intros _. rewrite H. simpl. congruence.
  - intros _. simpl. congruence.
  - unfold after_item.
    destruct (isPageChanging _) eqn:Hc.
    + intros H. simpl in H. congruence.
    + apply next_item_tended. destruct threw; exact Hbusy.
Qed.

Lemma running_phase (s s' : State) :
  phase s' = phase s -> running s' = running s.
Proof. unfold running. intros ->. reflexivity. Qed.

Lemma step_tended (isPixiv : bool) (s s' : State) (l : Label) :
  Serial s -> (running s = true -> tended s) ->
  step isPixiv s l = Some s' -> running s' = true -> tended s'.
Proof.
  intros S T. destruct l; simpl.
  - destruct (phase s) as [[|e todo]|w todo|]; try discriminate.
    + intros [= <-] _. apply processQueue_tended.
    + destruct (inspect _ _ _ _) as [s0|w] eqn:Hi; intros [= <-];
        discriminate.
  - destruct (phase s) as [todo|w todo|]; try discriminate.
    intros [= <-]. discriminate.
  - destruct (observing s); [|discriminate]. intros [= <-] Hr.
    apply handleNewImage_tended, T.
    destruct (handleNewImage_control isPixiv e s) as (Hp & _).
    rewrite <- Hr. symmetry. apply running_phase, Hp.
  - destruct (observing s); [|discriminate].
    destruct (_ || _); intros [= <-] Hr; [auto|].
    apply handleNewImage_tended, T.
    destruct (handleNewImage_control isPixiv e s) as (Hp & _).
    rewrite <- Hr. symmetry. apply running_phase, Hp.
  - destruct (loads s !! k) as [w|]; [|discriminate]. intros [= <-] Hr.
    apply accept_tended, (tended_fields s); auto. apply T.
    rewrite <- Hr. symmetry.
    destruct (accept_control true w (set_loads (delete k (loads s)) s))
      as (Hp & _).
    apply running_phase. rewrite Hp. reflexivity.
  - intros Hres _. apply (resume_tended _ _ _ _ S Hres).
  - intros [= <-] Hr. apply (tended_fields s); auto.
  - intros [= <-] Hr. apply (tended_fields s); auto.
  - destruct (running s) eqn:Hrun; [|discriminate]. intros [= <-] _.
    unfold on_document_mutation. destruct (String.eqb _ _); [auto|].
    apply (tended_fields (stop true s)); auto. apply stop_tended.
  - destruct (running s); [|discriminate]. intros [= <-] _. apply stop_tended.
  - destruct (running s); [|discriminate]. intros [= <-] _. apply stop_tended.
Qed.

Lemma reachable_tended (isPixiv : bool) (s : State) :
  reachable isPixiv s -> running s = true -> tended s.
Proof.
  intros (d & url & imgs & ls & Hrun).
  assert (G : forall ls s0 s1,
             Serial s0 -> (running s0 = true -> tended s0) ->
             run isPixiv s0 ls = Some s1 -> running s1 = true -> tended s1).
  { clear. induction ls as [|l ls IH]; intros s0 s1 S T; simpl.
    - intros [= <-]. exact T.
    - destruct (step isPixiv s0 l) as [s2|] eqn:Hs; [|discriminate].
      apply IH; [apply (step_serial _ _ _ _ S Hs)|].
      apply (step_tended _ _ _ _ S T Hs). }
  apply (G ls (init d url imgs)); auto.
  - apply init_serial.
  - intros _ _ _. reflexivity.
Qed.

(** X8.  No admitted image is left waiting: once [init] has installed its
    watchers, whenever the page is not changing and no [processQueue] loop is
    active, the queue is empty. *)
Theorem X8_nothing_waits_while_idle (isPixiv : bool) (s : State) :
  reachable isPixiv s ->
  running s = true -> isPageChanging s = false -> isProcessing s = false ->
  processingQueue s = [].
Proof. intros R Hr. exact (reachable_tended isPixiv s R Hr). Qed.


(** *** A page change is not a failure *)

Lemma processQueue_changing (s : State) :
  isPageChanging s = true ->
  failedImages (processQueue s) = failedImages s
  /\ drains (processQueue s) = drains s.
Proof.
  intros Hc. unfold processQueue. destruct (_ || _); [auto|].
  unfold next_item. simpl. rewrite Hc.
  destruct (processingQueue s); auto.
Qed.

Lemma accept_changing (w : Wait) (s : State) :
  isPageChanging s = true ->
  failedImages (accept true w s) = failedImages s
  /\ drains (accept true w s) = drains s.
Proof.
  intros Hc. destruct w as [e originalSrc|e]; simpl.
  - unfold accept_pixiv. destruct (_ && _); [|auto].
    match goal with
    | |- context [processQueue ?x] =>
        destruct (processQueue_changing x Hc) as [H1 H2]
    end.
    rewrite H1, H2. split; reflexivity.
  - unfold accept_generic. destruct (_ && _); [|auto].
    match goal with
    | |- context [processQueue ?x] =>
        destruct (processQueue_changing x Hc) as [H1 H2]
    end.
    rewrite H1, H2. split; reflexivity.
Qed.

Lemma resume_changing (k : nat) (o : Outcome) (s s' : State) :
  isPageChanging s = true -> none_thrown s -> resume k o s = Some s' ->
  failedImages s' = failedImages s /\ none_thrown s'.
Proof.
  intros Hc N. unfold resume.
  destruct (drains s !! k) as [st|] eqn:Hk; [|discriminate].
  assert (Hin : st ∈ drains s) by (eapply list_elem_of_lookup_2; exact Hk).
  assert (Hrest : forall st', st' ∈ delete k (drains s) -> st' ∈ drains s).
  { intros st' H. exact (list_elem_of_delete_inv _ _ _ H). }
  assert (Hnew : forall (s1 : State) (e : nat),
             drains s1 = delete k (drains s) ++ [AwaitItem e false] ->
             none_thrown s1).
  { intros s1 e E e' He. rewrite E in He.
    apply elem_of_app in He as [He|He]; [exact (N e' (Hrest _ He))|].
    apply list_elem_of_singleton in He. discriminate. }
  destruct st, o; try discriminate; intros [= <-].
  - unfold after_extract.
    destruct (extractImageData _ _ _).2; simpl; rewrite ?Hc, ?orb_true_r;
      simpl; rewrite ?Hc;
      (split; [reflexivity|apply (Hnew _ e); reflexivity]).
  - unfold after_ocr. simpl. rewrite Hc.
    split; [reflexivity|apply (Hnew _ e); reflexivity].
  - split; [reflexivity|apply (Hnew _ e); reflexivity].
  - destruct threw; [exfalso; exact (N e Hin)|].
    unfold after_item. simpl. rewrite Hc. split; [reflexivity|].
    intros e' He. exact (N e' (Hrest _ He)).
Qed.

Lemma stop_changing (forget : bool) (s : State) :
  failedImages (stop forget s) = failedImages s
  /\ drains (stop forget s) = drains s
  /\ isPageChanging (stop forget s) = true.
Proof.
  unfold stop. destruct (imageObserver _); [destruct forget|]; auto.
Qed.

Lemma step_changing (isPixiv : bool) (s s' : State) (l : Label) :
  Booted s -> isPageChanging s = true -> none_thrown s ->
  step isPixiv s l = Some s' ->
  failedImages s' = failedImages s /\ none_thrown s'.
Proof.
  intros B Hc N.
  assert (Hrun : running s = true).
  { destruct (running s) eqn:E; [reflexivity|].
    destruct (booted_scan _ B E) as (_ & _ & H & _). congruence. }
  assert (Hobs : observing s = false) by (apply (booted_quiet _ B), Hc).
  unfold running in Hrun. destruct l; simpl.
  - destruct (phase s); discriminate.
  - destruct (phase s); discriminate.
  - rewrite Hobs. discriminate.
  - rewrite Hobs. discriminate.
  - destruct (loads s !! k) as [w|]; [|discriminate]. intros [= <-].
    destruct (accept_changing w (set_loads (delete k (loads s)) s) Hc)
      as [H1 H2].
    split; [exact H1|]. intros e. rewrite H2. apply N.
  - apply resume_changing; assumption.
  - intros [= <-]. auto.
  - intros [= <-]. auto.
  - destruct (running s); [|discriminate]. intros [= <-].
    unfold on_document_mutation. destruct (String.eqb _ _); [auto|].
    destruct (stop_changing true s) as (H1 & H2 & _). simpl.
    split; [exact H1|]. intros e. simpl. rewrite H2. apply N.
  - destruct (running s); [|discriminate]. intros [= <-].
    destruct (stop_changing false s) as (H1 & H2 & _).
    split; [exact H1|]. intros e. rewrite H2. apply N.
  - destruct (running s); [|discriminate]. intros [= <-].
    destruct (stop_changing false s) as (H1 & H2 & _).
    split; [exact H1|]. intros e. rewrite H2. apply N.
Qed.

(** X9.  A page change is not counted as a failure: once [isPageChanging]
    is set, and unless a [processImage] that had already thrown is still
    waiting for its [catch], nothing that happens afterwards adds an image
    to [failedImages]. *)
Theorem X9_a_page_change_is_no_failure
  (isPixiv : bool) (s s' : State) (ls : list Label) :
  reachable isPixiv s ->
  isPageChanging s = true ->
  none_thrown s ->
  run isPixiv s ls = Some s' ->
  failedImages s' = failedImages s.
Proof.
  intros R. pose proof (reachable_booted isPixiv s R) as B. clear R.
  revert s B. induction ls as [|l ls IH]; intros s B Hc N; simpl.
  - intros [= <-]. reflexivity.
  - destruct (step isPixiv s l) as [s1|] eqn:Hs; [|discriminate]. intros Hrun.
    destruct (step_changing _ _ _ _ B Hc N Hs) as [H1 N1].
    destruct (step_after_trip _ _ _ _ B Hc Hs) as [Hc1 _].
    rewrite <- H1. apply IH; auto. apply (step_booted _ _ _ _ B Hs).
Qed.

Lemma two_items_reachable : reachable false Examples.after_two_items.
Proof.
  exists Examples.two_pages, Examples.page_url, [1; 2]%nat, Examples.two_items.
  vm_compute. reflexivity.
Qed.

Lemma X7_witness :
  failedImages Examples.after_two_items
    ⊆ processedImages Examples.after_two_items
  /\ processedImages Examples.after_two_items
       ⊆ observedImages Examples.after_two_items.
Proof.
  pose proof (X7_failed_processed_observed false Examples.after_two_items
                two_items_reachable) as H.
  split; [exact (proj1 H)|exact (proj1 (proj2 H))].
Defined.

Lemma X8_witness : processingQueue Examples.after_two_items = [].
Proof.
  apply (X8_nothing_waits_while_idle false Examples.after_two_items
           two_items_reachable); vm_compute; reflexivity.
Defined.

Lemma X9_witness :
  exists s',
    run false Samples.tripped
      [LPage 1 Examples.page_image; LLoaded 0;
       LComplete 0 (Acquired Examples.nothing_works)] = Some s'
    /\ failedImages s' = failedImages Samples.tripped.
Proof.
  destruct (run false Samples.tripped
              [LPage 1 Examples.page_image; LLoaded 0;
               LComplete 0 (Acquired Examples.nothing_works)])
    as [s'|] eqn:Hrun; [|vm_compute in Hrun; discriminate].
  exists s'. split; [reflexivity|].
  apply (X9_a_page_change_is_no_failure false Samples.tripped s'
           [LPage 1 Examples.page_image; LLoaded 0;
            LComplete 0 (Acquired Examples.nothing_works)]).
  - exists Examples.lazy_page, Examples.page_url, [2]%nat,
      [LScan; LScan; LAdded 1; LPopState].
    vm_compute. reflexivity.
  - vm_compute. reflexivity.
  - intros e H. remember (drains Samples.tripped) as ds eqn:E.
    vm_compute in E. subst ds. apply list_elem_of_singleton in H.
    discriminate.
  - exact Hrun.
Defined.

End LedgerFacts.

(** ** The initial scan *)

Section ScanFacts.
Import JsString Dom Content Trace Scan.

Lemma same_look_refl (i : Img) : same_look i i.
Proof. repeat split. Qed.

Lemma admissible_look (isPixiv : bool) (i i' : Img) :
  same_look i i' ->
  admissible isPixiv i' = admissible isPixiv i
  /\ pixiv_source i' = pixiv_source i
  /\ shown_width i' = shown_width i /\ shown_height i' = shown_height i.
Proof.
  intros (A1 & A2 & A3 & A4 & A5 & A6 & A7 & A8 & A9).
  assert (E : pixiv_source i' = pixiv_source i).
  { unfold pixiv_source, first_source. rewrite A1, A2, A3, A4. reflexivity. }
  unfold admissible, shown_width, shown_height.
  rewrite E, A6, A7, A8, A9. auto.
Qed.

(** Admission during the scan: the element goes to the end of the queue if
    it is admissible, and nothing else changes. *)
Lemma accept_scanned (isPixiv : bool) (d : gmap nat Img) (done : list nat)
  (w : Wait) (s : State) :
  let adm := fun e => admissible isPixiv (default blank (d !! e)) = true in
  (forall e, same_look (default blank (d !! e)) (element s e)) ->
  wait_for isPixiv w ->
  (isPixiv = true -> is_Some (pixiv_source (element s (waited w)))) ->
  processingQueue s = filter adm done ->
  (forall e, e ∈ observedImages s <-> e ∈ processingQueue s) ->
  let s' := accept false w s in
  (forall e, same_look (default blank (d !! e)) (element s' e))
  /\ processingQueue s' = filter adm (done ++ [waited w])
  /\ (forall e, e ∈ observedImages s' <-> e ∈ processingQueue s')
  /\ phase s' = phase s.
Proof.
  intros adm Hlook Hw Hsrc Hq Hobs s'. subst s'.
  assert (Hkeep : admissible isPixiv (default blank (d !! waited w)) = false ->
                  (forall e, same_look (default blank (d !! e)) (element s e))
                  /\ processingQueue s = filter adm (done ++ [waited w])
                  /\ (forall e, e ∈ observedImages s <-> e ∈ processingQueue s)
                  /\ phase s = phase s).
  { intros Hno. repeat split; try apply Hlook; try apply Hobs.
    rewrite filter_app, filter_cons_False, filter_nil, app_nil_r;
      [exact Hq|]. unfold adm. rewrite Hno. discriminate. }
  assert (Hadd : forall s1 : State,
             admissible isPixiv (default blank (d !! waited w)) = true ->
             (forall e, same_look (element s e) (element s1 e)) ->
             processingQueue s1 = processingQueue s ++ [waited w] ->
             observedImages s1 = {[waited w]} ∪ observedImages s ->
             phase s1 = phase s ->
             (forall e, same_look (default blank (d !! e)) (element s1 e))
             /\ processingQueue s1 = filter adm (done ++ [waited w])
             /\ (forall e, e ∈ observedImages s1 <-> e ∈ processingQueue s1)
             /\ phase s1 = phase s).
  { intros s1 Hyes L1 Q1 O1 P1. split; [|split; [|split; [|exact P1]]].
    - intros e. destruct (Hlook e) as (A1 & A2 & A3 & A4 & A5 & A6 & A7 & A8 & A9).
      destruct (L1 e) as (B1 & B2 & B3 & B4 & B5 & B6 & B7 & B8 & B9).
      repeat split; congruence.
    - rewrite Q1, Hq, filter_app, filter_cons_True, filter_nil;
        [reflexivity|exact Hyes].
    - intros e. rewrite Q1, O1, elem_of_union, elem_of_singleton,
        elem_of_app, list_elem_of_singleton, Hobs. tauto. }
  destruct (admissible_look isPixiv _ _ (Hlook (waited w)))
    as (Ea & Es & Ew & Eh).
  destruct w as [e o|e]; simpl in *; subst isPixiv.
  - unfold accept_pixiv. unfold admissible in Hkeep, Hadd.
    destruct (Hsrc eq_refl) as [src0 Hsome]. rewrite Hsome in Es.
    rewrite <- Es, <- Ew, <- Eh in Hkeep, Hadd.
    destruct ((200 <? shown_width (element s e))
              && (200 <? shown_height (element s e))) eqn:Hbig;
      [|apply Hkeep; reflexivity].
    apply Hadd; try reflexivity.
    intros e'.
    change (same_look (element s e')
              (element (update_img e (set_originalPixivSrc (Some o))
                          (set_observedImages ({[e]} ∪ observedImages s) s))
                       e')).
    rewrite element_update_img. destruct (decide (e = e')); repeat split.
  - unfold accept_generic. unfold admissible in Hkeep, Hadd.
    destruct (Hlook e) as (_ & _ & _ & _ & _ & A6 & A7 & _).
    rewrite <- A6, <- A7 in Hkeep, Hadd.
    destruct ((200 <? naturalWidth (element s e))
              && (200 <? naturalHeight (element s e))) eqn:Hbig;
      [|apply Hkeep; reflexivity].
    apply Hadd; try reflexivity. intros e'. apply same_look_refl.
Qed.

Lemma step_scanned (isPixiv : bool) (d : gmap nat Img) (imgs : list nat)
  (s s' : State) (l : Label) :
  scanning l = true ->
  Scanned isPixiv d imgs s \/ running s = true ->
  step isPixiv s l = Some s' ->
  Scanned isPixiv d imgs s' \/ running s' = true.
Proof.
  intros Hl [[Hlook (done & Hq & Hobs & Hphase)]|Hrun].
  2: { unfold running in Hrun. destruct l; try discriminate; simpl;
       destruct (phase s); discriminate. }
  destruct l; try discriminate; simpl.
  - destruct (phase s) as [[|e todo]|w todo|] eqn:Hp; try discriminate.
    + intros [= <-]. right. unfold start_running.
      destruct (processQueue_control
                  (set_phase Running
                     (set_observing true (set_imageObserver true s))))
        as (E & _).
      unfold running. rewrite E. reflexivity.
    + unfold inspect. destruct isPixiv.
      * destruct (pixiv_source (element s e)) as [src0|] eqn:Hsrc.
        -- destruct (negb _ || _).
           ++ intros [= <-]. left. split; [exact Hlook|].
              exists done. simpl. split; [exact Hq|]. split; [exact Hobs|].
              split; [exact Hphase|]. split; [reflexivity|].
              intros _. exists src0. exact Hsrc.
           ++ intros [= <-]. left.
              assert (Hs : true = true ->
                           is_Some (pixiv_source
                                      (element s
                                         (waited (WaitPixiv e (original_of src0))))))
                by (intros _; simpl; rewrite Hsrc; eauto).
              destruct (accept_scanned true d done
                          (WaitPixiv e (original_of src0)) s Hlook eq_refl Hs
                          Hq Hobs)
                as (L1 & Q1 & O1 & P1).
              simpl in *. split; [exact L1|].
              exists (done ++ [e]). simpl. split; [exact Q1|].
              split; [exact O1|]. rewrite <- app_assoc. exact Hphase.
        -- intros [= <-]. left. split; [exact Hlook|].
           exists (done ++ [e]). simpl. split; [|split; [exact Hobs|]].
           ++ rewrite filter_app, filter_cons_False, filter_nil, app_nil_r;
                [exact Hq|].
              destruct (admissible_look true _ _ (Hlook e)) as (_ & Es & _).
              unfold admissible. rewrite <- Es, Hsrc. discriminate.
           ++ rewrite <- app_assoc. exact Hphase.
      * destruct (negb _).
        -- intros [= <-]. left. split; [exact Hlook|].
           exists done. simpl. split; [exact Hq|]. split; [exact Hobs|].
           split; [exact Hphase|]. split; [reflexivity|]. discriminate.
        -- intros [= <-]. left.
           assert (Hs : false = true ->
                        is_Some (pixiv_source
                                   (element s (waited (WaitGeneric e)))))
             by discriminate.
           destruct (accept_scanned false d done (WaitGeneric e) s Hlook
                       eq_refl Hs Hq Hobs)
             as (L1 & Q1 & O1 & P1).
           simpl in *. split; [exact L1|].
           exists (done ++ [e]). simpl. split; [exact Q1|].
           split; [exact O1|]. rewrite <- app_assoc. exact Hphase.
  - destruct (phase s) as [todo|w todo|] eqn:Hp; try discriminate.
    intros [= <-]. left. destruct Hphase as (Himgs & Hw & Hsrc).
    destruct (accept_scanned isPixiv d done w s Hlook Hw Hsrc Hq Hobs)
      as (L1 & Q1 & O1 & P1).
    split; [exact L1|]. exists (done ++ [waited w]). simpl.
    split; [exact Q1|]. split; [exact O1|].
    rewrite <- app_assoc. exact Himgs.
Qed.

(** X10.  The initial scan queues the large images of the document, in
    document order.  When the scan has gone through its list without the
    page changing an element in between, the queue holds exactly the images
    of the list that are admissible — on a Pixiv page those with a source on
    the Pixiv image host whose size as shown exceeds 200 by 200, elsewhere
    those whose natural size does — in the order of the list, and these are
    the observed images. *)
Theorem X10_the_scan_queues_the_large_images_in_order
  (isPixiv : bool) (d : gmap nat Img) (url : string) (imgs : list nat)
  (ls : list Label) (s : State) :
  Forall (fun l => scanning l = true) ls ->
  run isPixiv (init d url imgs) ls = Some s ->
  phase s = Scanning [] ->
  processingQueue s
  = filter (fun e => admissible isPixiv (default blank (d !! e)) = true) imgs
  /\ (forall e, e ∈ observedImages s <-> e ∈ processingQueue s)
  /\ isProcessing s = false.
Proof.
  intros Hls Hrun Hend.
  assert (G : forall ls s0 s1,
             Forall (fun l => scanning l = true) ls ->
             Scanned isPixiv d imgs s0 \/ running s0 = true ->
             run isPixiv s0 ls = Some s1 ->
             Scanned isPixiv d imgs s1 \/ running s1 = true).
  { clear. induction ls as [|l ls IH]; intros s0 s1 Hls H; simpl.
    - intros [= <-]. exact H.
    - apply Forall_cons in Hls as [Hl Hls].
      destruct (step isPixiv s0 l) as [s2|] eqn:Hs; [|discriminate].
      apply (IH _ _ Hls). apply (step_scanned _ _ _ _ _ _ Hl H Hs). }
  assert (I : Scanned isPixiv d imgs (init d url imgs)).
  { split; [intros e; apply same_look_refl|].
    exists []. simpl. split; [reflexivity|]. split; [|reflexivity].
    intros e. split; intros H.
    - apply elem_of_empty in H. contradiction.
    - apply elem_of_nil in H. contradiction. }
  destruct (G ls _ _ Hls (or_introl I) Hrun)
    as [[_ (done & Hq & Hobs & Hphase)]|Hr];
    [|unfold running in Hr; rewrite Hend in Hr; discriminate].
  rewrite Hend in Hphase. rewrite app_nil_r in Hphase. subst done.
  split; [exact Hq|]. split; [exact Hobs|].
  assert (R : reachable isPixiv s) by (exists d, url, imgs, ls; exact Hrun).
  pose proof (reachable_serial isPixiv s R) as [_ Hbusy _ _].
  pose proof (reachable_booted isPixiv s R) as B.
  destruct (booted_scan _ B) as (Hd & _).
  { unfold running. rewrite Hend. reflexivity. }
  rewrite Hbusy, Hd. reflexivity.
Qed.

Lemma X10_witness : processingQueue Samples.mixed_scanned = [1; 3]%nat.
Proof.
  destruct (X10_the_scan_queues_the_large_images_in_order
              false Samples.mixed_page Examples.page_url [1; 2; 3]%nat
              [LScan; LScan; LScan] Samples.mixed_scanned) as (H & _).
  - repeat constructor.
  - vm_compute. reflexivity.
  - vm_compute. reflexivity.
  - rewrite H. vm_compute. reflexivity.
Defined.

End ScanFacts.

(** ** The srcset attribute *)

Section SrcsetFacts.
Import JsString Dom Content Srcset.

















(** [trim] takes the no-break space with the space: the candidate written
    after both is read as it stands. *)
Lemma srcset_after_no_break_space :
  srcset_sources
    (default "" (srcset Samples.with_no_break_space))
  = ["https://example.org/small.jpg"; Samples.full_size_url]
  /\ pixiv_source Samples.with_no_break_space = Some Samples.full_size_url
  /\ Scan.admissible true Samples.with_no_break_space = true.
Proof. repeat split; vm_compute; reflexivity. Qed.



End SrcsetFacts.

(** ** The fallback URLs of FETCH_IMAGE_OFFSCREEN *)

Section FallbackFacts.
Import JsString Background.
Context {World : Type}.
Variable fetch : Request -> World -> FetchOutcome * World.
Variable readAsDataURL : string -> option string.
Variable relay : string -> World -> Reply * World.

(** Replacing a string is replacing the expression that matches just that
    string. *)
Lemma replace_as_re (pat rep s : string) :
  replace pat rep s = replace_re (drop_prefix pat) rep s.
Proof.
  induction s as [|c s IH]; simpl.
  - destruct (drop_prefix pat ""); reflexivity.
  - destruct (drop_prefix pat (String c s)); [reflexivity|].
    rewrite IH. reflexivity.
Qed.

Lemma variant_url (ext pre mid post : string) :
  unmatched (drop_prefix "_webp/") pre
    ("_webp/" +:+ mid +:+ ".webp" +:+ post) = true ->
  unmatched (drop_prefix ".webp") (pre +:+ "/" +:+ mid)
    (".webp" +:+ post) = true ->
  replace ".webp" ext
    (replace "_webp/" "/" (pre +:+ "_webp/" +:+ mid +:+ ".webp" +:+ post))
  = pre +:+ "/" +:+ mid +:+ ext +:+ post.
Proof.
  intros H1 H2. rewrite !replace_as_re.
  rewrite (replace_re_first _ "/" pre _ (mid +:+ ".webp" +:+ post) H1)
    by apply drop_prefix_app.
  assert (E : pre +:+ "/" +:+ mid +:+ ".webp" +:+ post
              = (pre +:+ "/" +:+ mid) +:+ ".webp" +:+ post)
    by (rewrite !append_assoc; reflexivity).
  rewrite E, (replace_re_first _ ext _ _ post H2) by apply drop_prefix_app.
  rewrite !append_assoc. reflexivity.
Qed.

(** X12.  For a URL [pre_webp/mid.webp post] in which these are the first
    [_webp/] and, once it is replaced, the first [.webp]: the JPG variant
    is [pre/mid.jpg post] and the PNG variant [pre/mid.png post]; and when
    the fetch of the URL itself gives no [Blob], the handler asks for the
    JPG variant next and for the PNG variant after that, if at all. *)
Theorem X12_webp_variants (pre mid post : string) (referer : string)
  (w : World) :
  let url := pre +:+ "_webp/" +:+ mid +:+ ".webp" +:+ post in
  let jpg := pre +:+ "/" +:+ mid +:+ ".jpg" +:+ post in
  let png := pre +:+ "/" +:+ mid +:+ ".png" +:+ post in
  unmatched (drop_prefix "_webp/") pre
    ("_webp/" +:+ mid +:+ ".webp" +:+ post) = true ->
  unmatched (drop_prefix ".webp") (pre +:+ "/" +:+ mid)
    (".webp" +:+ post) = true ->
  no_blob (fst (fetch (image_request url) w)) ->
  jpg_url url = jpg /\ png_url url = png
  /\ let sent :=
       snd (handle (fetch_image_offscreen fetch readAsDataURL relay
                      {| msg_url := url; msg_referer := referer |}) w) in
     sent = [image_request url; image_request jpg]
     \/ sent = [image_request url; image_request jpg; image_request png].
Proof.
  intros url jpg png H1 H2 Hno.
  assert (Ej : jpg_url url = jpg) by (apply variant_url; assumption).
  assert (Ep : png_url url = png) by (apply variant_url; assumption).
  split; [exact Ej|]. split; [exact Ep|].
  pose proof (offscreen_falls_back_in_order fetch readAsDataURL relay
                {| msg_url := url; msg_referer := referer |} w) as F.
  simpl in F. unfold chain in F. rewrite Ej, Ep in F. apply F; [|exact Hno].
  apply includes_app_r.
Qed.

(** Asking once more. *)
Lemma answers_app (rs : list Request) (r : Request) :
  forall w : World,
    Replay.answers fetch (rs ++ [r]) w
    = (fst (Replay.answers fetch rs w)
         ++ [fst (fetch r (snd (Replay.answers fetch rs w)))],
       snd (fetch r (snd (Replay.answers fetch rs w)))).
Proof.
  induction rs as [|r0 rs IH]; intros w; simpl.
  - destruct (fetch r w); reflexivity.
  - destruct (fetch r0 w) as [o w1]. rewrite IH.
    destruct (Replay.answers fetch rs w1) as [os w2]. reflexivity.
Qed.

Lemma attempt_tied (w : World) (url : string) (n : Net) :
  world n = snd (Replay.answers fetch (sent n) w) ->
  Replay.tied fetch w (fst (attempt fetch url n)) (snd (attempt fetch url n)).
Proof.
  intros Hw. unfold Replay.tied, attempt, do_fetch, mbind, mret, M_bind, M_ret.
  destruct (fetch (image_request url) (world n)) as [o w1] eqn:Hf. simpl.
  rewrite answers_app, <- Hw, Hf. simpl. rewrite last_snoc.
  split; [reflexivity|].
  destruct o as [m|[] st [bytes|m]]; reflexivity.
Qed.

Lemma retry_tied (w : World) (url alt : string) (imageBlob : option string)
  (n : Net) :
  Replay.tied fetch w imageBlob n ->
  Replay.tied fetch w (fst (retry fetch url alt imageBlob n))
    (snd (retry fetch url alt imageBlob n)).
Proof.
  intros H. unfold retry. destruct (_ && _); [|exact H].
  apply attempt_tied, H.
Qed.

(** What the handler answers, by the answer to the last request it has
    sent. *)
Lemma offscreen_reply_tied (message : Message) (w : World) :
  let run := handle (fetch_image_offscreen fetch readAsDataURL relay message)
               w in
  let net := Replay.answers fetch (snd run) w in
  fst run
  = match Replay.body_of (last (fst net)) with
    | Some bytes =>
        if truthy bytes then
          match readAsDataURL bytes with
          | Some dataUrl => fst (relay dataUrl (snd net))
          | None => ReplyFail "FileReader error"
          end
        else ReplyFail all_failed
    | None => ReplyFail all_failed
    end.
Proof.
  intros run net. subst net run.
  unfold handle, fetch_image_offscreen, mbind, M_bind.
  set (n0 := {| world := w; sent := [] |}).
  assert (T1 : Replay.tied fetch w
                 (fst (attempt fetch (msg_url message) n0))
                 (snd (attempt fetch (msg_url message) n0)))
    by (apply attempt_tied; reflexivity).
  destruct (attempt fetch (msg_url message) n0) as [b1 n1].
  pose proof (retry_tied w (msg_url message) (jpg_url (msg_url message))
                b1 n1 T1) as T2.
  destruct (retry fetch _ _ b1 n1) as [b2 n2].
  pose proof (retry_tied w (msg_url message) (png_url (msg_url message))
                b2 n2 T2) as T3.
  destruct (retry fetch _ _ b2 n2) as [b3 n3].
  destruct T3 as [Hw Hb]. simpl in Hw, Hb.
  pose proof (respond_sent readAsDataURL relay b3 n3) as Hs.
  unfold respond, do_relay, mret, M_ret in *.
  destruct b3 as [bytes|].
  - destruct (blob_size bytes =? 0) eqn:Hsize.
    + simpl in *. rewrite <- Hb.
      destruct bytes; [reflexivity|discriminate].
    + destruct (readAsDataURL bytes) as [dataUrl|] eqn:Hread.
      * destruct (relay dataUrl (world n3)) as [r w1] eqn:Hrelay.
        simpl in *. rewrite <- Hb, Hread, <- Hw, Hrelay.
        destruct bytes; [discriminate|reflexivity].
      * simpl in *. rewrite <- Hb, Hread.
        destruct bytes; [discriminate|reflexivity].
  - simpl in *. rewrite <- Hb. reflexivity.
Qed.

(** X13.  What [FETCH_IMAGE_OFFSCREEN] answers is decided by the answer to
    the last request it has sent.  Without an OK status and a readable body
    that is not empty it answers "Failed to fetch image from all URLs";
    with one it hands the data URL of that body to the offscreen document,
    in the world its requests have left, and answers what comes back, if
    anything does.  So a success is always the success of the offscreen
    document for that body, never the handler's own.  And for a URL without
    [_webp/] it sends one request only, as [FETCH_IMAGE] does. *)
Theorem X13_success_comes_from_the_relay (message : Message) (w : World) :
  let run := handle (fetch_image_offscreen fetch readAsDataURL relay message)
               w in
  let net := Replay.answers fetch (snd run) w in
  fst run
  = match Replay.body_of (last (fst net)) with
    | Some bytes =>
        if truthy bytes then
          match readAsDataURL bytes with
          | Some dataUrl => fst (relay dataUrl (snd net))
          | None => ReplyFail "FileReader error"
          end
        else ReplyFail all_failed
    | None => ReplyFail all_failed
    end
  /\ (forall u size,
        fst run = ReplyOk u size ->
        exists status bytes dataUrl,
          last (fst net) = Some (FetchResponse true status (BodyBytes bytes))
          /\ truthy bytes = true /\ readAsDataURL bytes = Some dataUrl
          /\ fst (relay dataUrl (snd net)) = ReplyOk u size)
  /\ (includes (msg_url message) "_webp/" = false ->
      snd run = snd (handle (fetch_image fetch readAsDataURL message) w)).
Proof.
  intros run net. pose proof (offscreen_reply_tied message w) as E.
  simpl in E. fold run in E. fold net in E.
  split; [exact E|]. split.
  - intros u size Hr. rewrite Hr in E.
    destruct (last (fst net)) as [[m|[] status [bytes|m]]|];
      simpl in E; try discriminate.
    destruct (truthy bytes) eqn:Hb; [|discriminate].
    destruct (readAsDataURL bytes) as [dataUrl|] eqn:Hread; [|discriminate].
    exists status, bytes, dataUrl. auto.
  - intros Hw. unfold run. rewrite offscreen_sent, fetch_image_requests.
    rewrite !retry_sent, Hw, !andb_false_r. apply attempt_sent.
Qed.

End FallbackFacts.

Lemma X12_witness :
  Background.jpg_url Examples.webp_url
  = "https://i.pximg.net/c/250x250_80_a2/img-master/img/2024/01/01/00/00/00/1_p0.jpg"
  /\ Background.png_url Examples.webp_url
     = "https://i.pximg.net/c/250x250_80_a2/img-master/img/2024/01/01/00/00/00/1_p0.png".
Proof.
  pose proof (X12_webp_variants Samples.offline Examples.data_url
                Examples.echo_relay
                "https://i.pximg.net/c/250x250_80_a2"
                "img-master/img/2024/01/01/00/00/00/1_p0" ""
                "https://www.pixiv.net/artworks/1" tt
                eq_refl eq_refl I) as H.
  split; [exact (proj1 H)|exact (proj1 (proj2 H))].
Defined.

(** ** Discovery and extraction, once more *)

Section SourceFacts.
Import JsString Dom Content.

(** X14.  A source without a resize segment and without a [_square] or
    [_custom] suffix is its own canonical URI: the three replacements leave
    it as it is. *)
Theorem X14_original_of_a_full_size_source (src : string) :
  unmatched re_resize src "" = true ->
  unmatched re_square src "" = true ->
  unmatched re_custom src "" = true ->
  original_of src = src.
Proof.
  intros H1 H2 H3. unfold original_of, upgrade_custom, upgrade_square.
  assert (E : strip_resize src = src).
  { unfold strip_resize. destruct (includes src "/c/"); [|reflexivity].
    apply replace_re_unmatched; [exact H1|reflexivity]. }
  rewrite E, (replace_re_unmatched re_square) by (assumption || reflexivity).
  apply replace_re_unmatched; [exact H3|reflexivity].
Qed.

(** [processQueue] does not touch the size of an element. *)
Lemma processQueue_size (e : nat) (s : State) :
  shown_width (element (processQueue s) e) = shown_width (element s e)
  /\ shown_height (element (processQueue s) e) = shown_height (element s e).
Proof.
  destruct (processQueue_picture e s) as [(_ & _ & A3 & A4 & A5 & A6 & _) _].
  unfold shown_width, shown_height. rewrite A3, A4, A5, A6. auto.
Qed.

(** X15.  The two size tests fit together: an element that [accept] has
    just put into [observedImages], by either protocol, passes the size
    test of [extractImageData]. *)
Theorem X15_admitted_passes_the_extraction_test
  (drain : bool) (w : Wait) (s : State) :
  let e := Trace.waited w in
  let s' := accept drain w s in
  e ∉ observedImages s -> e ∈ observedImages s' ->
  (shown_width (element s' e) <? 200) || (shown_height (element s' e) <? 200)
  = false.
Proof.
  intros e s' Hout Hin.
  assert (G : forall s0 : State,
             shown_width (element s0 e) = shown_width (element s e) ->
             shown_height (element s0 e) = shown_height (element s e) ->
             (200 <? shown_width (element s e))
             && (200 <? shown_height (element s e)) = true ->
             (shown_width (element (if drain then processQueue s0 else s0) e)
                <? 200)
             || (shown_height
                   (element (if drain then processQueue s0 else s0) e)
                   <? 200) = false).
  { intros s0 Hw Hh Hbig.
    assert (E : shown_width (element (if drain then processQueue s0 else s0) e)
                = shown_width (element s e)
                /\ shown_height
                     (element (if drain then processQueue s0 else s0) e)
                   = shown_height (element s e)).
    { destruct drain; [|auto].
      destruct (processQueue_size e s0) as [-> ->]. auto. }
    destruct E as [-> ->]. apply andb_true_iff in Hbig as [Hb1 Hb2].
    apply N.ltb_lt in Hb1, Hb2. apply orb_false_intro; apply N.ltb_ge; lia. }
  subst s'. destruct w as [e0 originalSrc|e0]; simpl in *; subst e.
  - unfold accept_pixiv in *.
    destruct ((200 <? shown_width (element s e0))
              && (200 <? shown_height (element s e0))) eqn:Hbig;
      [|contradiction].
    apply G; [| |reflexivity].
    + unfold enqueue, log. simpl.
      change (shown_width
                (element (update_img e0 (set_originalPixivSrc (Some originalSrc))
                            (set_observedImages ({[e0]} ∪ observedImages s) s))
                         e0)
              = shown_width (element s e0)).
      rewrite element_update_img. destruct (decide (e0 = e0)); reflexivity.
    + change (shown_height
                (element (update_img e0 (set_originalPixivSrc (Some originalSrc))
                            (set_observedImages ({[e0]} ∪ observedImages s) s))
                         e0)
              = shown_height (element s e0)).
      rewrite element_update_img. destruct (decide (e0 = e0)); reflexivity.
  - unfold accept_generic in *.
    destruct ((200 <? naturalWidth (element s e0))
              && (200 <? naturalHeight (element s e0))) eqn:Hbig;
      [|contradiction].
    apply G; [reflexivity|reflexivity|].
    apply andb_true_iff in Hbig as [Hb1 Hb2]. apply N.ltb_lt in Hb1, Hb2.
    unfold shown_width, shown_height, or_dim.
    destruct (naturalWidth (element s e0) =? 0) eqn:E1;
      [apply N.eqb_eq in E1; lia|].
    destruct (naturalHeight (element s e0) =? 0) eqn:E2;
      [apply N.eqb_eq in E2; lia|].
    apply andb_true_iff. split; apply N.ltb_lt; assumption.
Qed.

(** X16.  Extraction in the two generations of the content script: for an
    element without [dataset.originalPixivSrc] whose source is not on the
    Pixiv image host and is not [about:blank], the current
    [extractImageData] tries what the first one tried and returns what it
    returned. *)
Theorem X16_extraction_as_in_the_first_script
  (changing : bool) (img : Img) (env : AcquireEnv) :
  truthy_opt (originalPixivSrc img) = false ->
  includes (or_else (currentSrc img) (src img)) "pximg.net" = false ->
  or_else (currentSrc img) (src img) <> "about:blank" ->
  extractImageData changing img env
  = FirstScript.extractImageData changing img env.
Proof.
  intros H1 H2 H3. unfold extractImageData, FirstScript.extractImageData,
    acquire_source.
  rewrite H1, H2. apply String.eqb_neq in H3. rewrite H3, orb_false_r.
  reflexivity.
Qed.

End SourceFacts.

Section SourceWitnesses.
Import JsString Dom Content.

Lemma X14_witness :
  original_of Samples.full_size_url = Samples.full_size_url.
Proof.
  apply (X14_original_of_a_full_size_source Samples.full_size_url);
    reflexivity.
Defined.

Lemma X15_witness :
  let s := init {[ 1%nat := Examples.page_image ]} Examples.page_url [1%nat] in
  (shown_width (element (accept false (WaitGeneric 1) s) 1) <? 200)
  || (shown_height (element (accept false (WaitGeneric 1) s) 1) <? 200)
  = false.
Proof.
  apply (X15_admitted_passes_the_extraction_test false (WaitGeneric 1)
           (init {[ 1%nat := Examples.page_image ]} Examples.page_url
              [1%nat])).
  - apply not_elem_of_empty.
  - apply (bool_decide_eq_true_1 (_ ∈ _)). vm_compute. reflexivity.
Defined.

Lemma X16_witness :
  extractImageData false Examples.page_image Examples.draws
  = FirstScript.extractImageData false Examples.page_image Examples.draws.
Proof.
  apply (X16_extraction_as_in_the_first_script false Examples.page_image
           Examples.draws); [reflexivity|reflexivity|discriminate].
Defined.

End SourceWitnesses.

(** ** Click to toggle *)

Section ToggleFacts.
Import JsString Dom Overlay Clicks.

Lemma first_pass_toggling (d : string) (el : Img) :
  truthy_opt (ds_original (toggle el)) = false ->
  click_listeners (toggle el) = 0%nat ->
  toggling (src el) (act (Pass d) el).
Proof.
  intros H1 H2. simpl. unfold remember_original. rewrite H1. simpl.
  rewrite H2. repeat split. exists d. split; [reflexivity|]. left. auto.
Qed.

Lemma act_toggling (o : string) (a : Action) (el : Img) :
  truthy o = true -> toggling o el -> toggling o (act a el).
Proof.
  intros Ho (H1 & H2 & t & H3 & H4). destruct a as [d|]; simpl.
  - unfold remember_original. rewrite H2. simpl. rewrite Ho. simpl.
    repeat split; [exact H1|exact H2|].
    exists d. split; [reflexivity|]. left. auto.
  - unfold click. rewrite H1. simpl. unfold on_click.
    destruct H4 as [[H4 H5]|[H4 H5]]; rewrite H4.
    + rewrite bool_decide_eq_true_2 by reflexivity. simpl.
      repeat split; [exact H1|exact H2|].
      exists t. split; [exact H3|]. right. rewrite H2. auto.
    + rewrite bool_decide_eq_false_2 by discriminate. simpl.
      repeat split; [exact H1|exact H2|].
      exists t. split; [exact H3|]. left. rewrite H3. auto.
Qed.

Lemma acts_toggling (o : string) (l : list Action) :
  forall el : Img, truthy o = true -> toggling o el -> toggling o (acts l el).
Proof.
  induction l as [|a l IH]; intros el Ho T; simpl; [exact T|].
  apply IH; [exact Ho|]. apply act_toggling; assumption.
Qed.

Lemma click_click (o : string) (el : Img) :
  toggling o el -> click (click el) = el.
Proof.
  intros (H1 & H2 & t & H3 & H4).
  destruct el as [s cs dsrc sset comp nw nh w h ops proc tg].
  destruct tg as [orig trans showing cur ttl n]. simpl in *. subst.
  unfold click. simpl. unfold on_click. simpl.
  destruct H4 as [[-> ->]|[-> ->]]; reflexivity.
Qed.

(** X17.  After an overlay, the element shows either the translation last
    drawn or the source it had before the first overlay, a click changes
    from one to the other, and two clicks leave the element exactly as it
    was: this for an element that had a non-empty [src], no
    [dataset.original] and no listener before its first overlay, and
    whatever overlays and clicks came since. *)
Theorem X17_two_clicks_change_nothing
  (el0 : Img) (d : string) (l : list Action) :
  truthy (src el0) = true ->
  truthy_opt (ds_original (toggle el0)) = false ->
  click_listeners (toggle el0) = 0%nat ->
  let el := acts (Pass d :: l) el0 in
  click (click el) = el
  /\ (exists t, ds_translated (toggle el) = Some t
                /\ ((src el = t /\ src (click el) = src el0)
                    \/ (src el = src el0 /\ src (click el) = t))).
Proof.
  intros Hsrc Hfresh Hnone el.
  assert (T : toggling (src el0) el).
  { apply (acts_toggling (src el0) l (act (Pass d) el0) Hsrc).
    apply first_pass_toggling; assumption. }
  split; [apply (click_click _ _ T)|].
  pose proof (act_toggling _ Click el Hsrc T) as T'. simpl in T'.
  destruct T as (H1 & H2 & t & H3 & H4). exists t. split; [exact H3|].
  unfold click. rewrite H1. simpl. unfold on_click.
  destruct H4 as [[H4 H5]|[H4 H5]]; rewrite H4.
  - left. rewrite bool_decide_eq_true_2 by reflexivity. simpl.
    rewrite H2. auto.
  - right. rewrite bool_decide_eq_false_2 by discriminate. simpl.
    rewrite H3. auto.
Qed.

Lemma X17_witness :
  let el := acts [Pass "data:image/png;base64,ONE"; Click]
                 Examples.page_image in
  click (click el) = el.
Proof.
  exact (proj1 (X17_two_clicks_change_nothing Examples.page_image
                  "data:image/png;base64,ONE" [Click]
                  eq_refl eq_refl eq_refl)).
Defined.

End ToggleFacts.

(** ** The settings *)

Section SettingsFacts.
Import JsString Settings.

Lemma on_changed_language (changes : Changes) (sc : Script) :
  targetLanguage (on_changed changes sc)
  = default (targetLanguage sc) (ch_targetLang changes).
Proof.
  unfold on_changed. destruct (ch_targetLang changes), (truthy_flag _);
    reflexivity.
Qed.

Lemma settled_language (changes : list Changes) :
  forall sc sc' : Script,
    targetLanguage sc = targetLanguage sc' ->
    targetLanguage
      (fold_left (fun sc changes => on_changed changes sc) changes sc)
    = targetLanguage
        (fold_left (fun sc changes => on_changed changes sc) changes sc').
Proof.
  induction changes as [|c cs IH]; intros sc sc' H; simpl; [exact H|].
  apply IH. rewrite !on_changed_language, H. reflexivity.
Qed.

(** A write of a language, reported and delivered last, leaves the script
    with the language that is stored. *)
Lemma write_language (r : Storage * Changes) (w : World) :
  targetLanguage (settled w) = stored_language (storage w) ->
  default (stored_language (storage w)) (ch_targetLang (snd r))
  = stored_language (fst r) ->
  targetLanguage (settled (write r w)) = stored_language (fst r).
Proof.
  unfold settled, write. simpl. intros H1 H2.
  rewrite fold_left_app. simpl. rewrite on_changed_language, H1. exact H2.
Qed.

Lemma set_targetLang_language (v : string) (st : Storage) :
  truthy v = true ->
  default (stored_language st) (ch_targetLang (snd (set_targetLang v st)))
  = stored_language (fst (set_targetLang v st)).
Proof.
  intros Hv. unfold set_targetLang, stored_language. simpl.
  case_bool_decide as E.
  - rewrite E. reflexivity.
  - simpl. unfold or_else. rewrite Hv. reflexivity.
Qed.

Lemma step_language (w w' : World) (l : Label) :
  sound l = true -> step w l = Some w' ->
  targetLanguage (settled w) = stored_language (storage w) ->
  targetLanguage (settled w') = stored_language (storage w').
Proof.
  intros Hl Hs H. destruct l as [e|v|t|]; simpl in *.
  - injection Hs as <-. apply write_language; [exact H|reflexivity].
  - injection Hs as <-. apply write_language; [exact H|].
    apply set_targetLang_language, Hl.
  - injection Hs as <-. apply write_language; [exact H|].
    unfold loadTargetLanguage. destruct (truthy_opt t); [reflexivity|].
    apply set_targetLang_language. reflexivity.
  - destruct (pending w) as [|c cs] eqn:Hp; [discriminate|].
    injection Hs as <-. unfold settled in *. rewrite Hp in H. exact H.
Qed.

(** The same whatever is selected: the script has the language [init]
    would read, or the empty string is stored and the script has that. *)
Lemma step_language_any (w w' : World) (l : Label) :
  step w l = Some w' ->
  targetLanguage (settled w) = stored_language (storage w)
  \/ (targetLang (storage w) = Some ""
      /\ targetLanguage (settled w) = "") ->
  targetLanguage (settled w') = stored_language (storage w')
  \/ (targetLang (storage w') = Some ""
      /\ targetLanguage (settled w') = "").
Proof.
  assert (W : forall (r : Storage * Changes) (w : World),
             targetLanguage (settled (write r w))
             = default (targetLanguage (settled w)) (ch_targetLang (snd r))).
  { intros r w0. unfold settled, write. simpl.
    rewrite fold_left_app. simpl. apply on_changed_language. }
  assert (S : forall (v : string) (w : World),
             targetLanguage (settled w) = stored_language (storage w)
             \/ (targetLang (storage w) = Some ""
                 /\ targetLanguage (settled w) = "") ->
             targetLanguage (settled (write (set_targetLang v (storage w)) w))
             = stored_language (fst (set_targetLang v (storage w)))
             \/ (targetLang (fst (set_targetLang v (storage w))) = Some ""
                 /\ targetLanguage
                      (settled (write (set_targetLang v (storage w)) w))
                    = "")).
  { intros v w0 H. rewrite W. unfold set_targetLang. simpl.
    case_bool_decide as E; simpl.
    - destruct H as [H|[H1 H2]].
      + left. rewrite H. unfold stored_language. rewrite E. reflexivity.
      + right. rewrite H1 in E. injection E as <-. auto.
    - destruct v as [|c v]; [right; auto|left; reflexivity]. }
  intros Hs H. destruct l as [e|v|t|]; simpl in Hs.
  - injection Hs as <-. rewrite W. exact H.
  - injection Hs as <-. apply S, H.
  - injection Hs as <-. unfold loadTargetLanguage.
    destruct (truthy_opt t); [rewrite W; exact H|]. apply S, H.
  - destruct (pending w) as [|c cs] eqn:Hp; [discriminate|].
    injection Hs as <-. unfold settled in *. rewrite Hp in H. exact H.
Qed.

(** X18.  A language chosen in the popup reaches a running content script
    without a reload.  From a moment when the script's [targetLanguage] is
    the stored one (as [init] leaves it) and no change is on its way:
    whatever the popup writes afterwards and whenever the changes are
    delivered, once none is pending [targetLanguage] is again what [init]
    would read from the storage, with one exception: when the empty string
    has been selected and stored, the script has the empty string where
    [init] would read Korean.  When nothing empty is selected there is no
    exception.  And [targetLanguage] is the [target_lang] of the next
    request to the OCR server. *)
Theorem X18_language_follows_the_popup
  (w w' : World) (ls : list Label) (imageDataUrl : string)
  (answer : ServerAnswer) :
  targetLanguage (script w) = stored_language (storage w) ->
  pending w = [] ->
  run w ls = Some w' ->
  pending w' = [] ->
  (targetLanguage (script w') = stored_language (storage w')
   \/ (targetLang (storage w') = Some ""
       /\ targetLanguage (script w') = ""))
  /\ (Forall (fun l => sound l = true) ls ->
      targetLanguage (script w') = stored_language (storage w'))
  /\ map ocr_target_lang
       (fst (sendToOCRServer false (script w') imageDataUrl answer))
     = [targetLanguage (script w')].
Proof.
  intros H0 Hp0 Hrun Hp.
  assert (H : targetLanguage (settled w) = stored_language (storage w))
    by (unfold settled; rewrite Hp0; exact H0).
  assert (E : settled w' = script w')
    by (unfold settled; rewrite Hp; reflexivity).
  split; [|split; [|reflexivity]].
  - rewrite <- E. clear H0 Hp0 Hp E.
    assert (J : targetLanguage (settled w) = stored_language (storage w)
                \/ (targetLang (storage w) = Some ""
                    /\ targetLanguage (settled w) = ""))
      by (left; exact H).
    clear H. revert w J Hrun.
    induction ls as [|l ls IH]; intros w J; simpl.
    + intros [= <-]. exact J.
    + destruct (step w l) as [w1|] eqn:Hs; [|discriminate].
      apply IH. apply (step_language_any _ _ _ Hs J).
  - intros Hls. rewrite <- E. clear H0 Hp0 Hp E. revert w H Hrun.
    induction ls as [|l ls IH]; intros w H; simpl.
    + intros [= <-]. exact H.
    + apply Forall_cons in Hls as [Hl Hls].
      destruct (step w l) as [w1|] eqn:Hs; [|discriminate].
      apply (IH Hls). apply (step_language _ _ _ Hl Hs H).
Qed.


Lemma X18_witness :
  targetLanguage (script Samples.after_japanese) = "Japanese".
Proof.
  exact (proj1 (proj2 (X18_language_follows_the_popup Samples.fresh_world
                         Samples.after_japanese Samples.japanese ""
                         NoAnswer eq_refl eq_refl eq_refl eq_refl))
           ltac:(repeat constructor)).
Defined.

End SettingsFacts.

(** ** The Pixiv path, end to end *)

Section PixivPathFacts.
Import JsString Dom Content PixivPath.
Context {World : Type}.
Variable fetch : Background.Request -> World -> Background.FetchOutcome * World.
Variable readAsDataURL : string -> option string.
Variable timer_first : bool.
Variables cw ch : N.
Variable decode : string -> list (N * Offscreen.ImgEvent).

(** The offscreen document answers, and its answer is usable exactly when
    the image loads in time and the canvas gives a data URL. *)
Lemma usable_handleImageData (events : list (N * Offscreen.ImgEvent)) :
  exists r : Background.Reply,
    Offscreen.handleImageData timer_first cw ch events = Some r
    /\ r <> Background.NoReply
    /\ usable (Some r) = decoded timer_first events.
Proof.
  unfold Offscreen.handleImageData, decoded.
  destruct events as [|[t e] rest].
  - eexists. split; [reflexivity|]. split; [discriminate|reflexivity].
  - simpl Offscreen.deliver. rewrite deliver_fixed.
    + destruct (Offscreen.due timer_first t), e as [d|]; simpl;
        try destruct (Offscreen.dec_png d); simpl;
        eexists; (split; [reflexivity|]); (split; [discriminate|reflexivity]).
    + destruct (Offscreen.due timer_first t), e as [d|]; simpl;
        try destruct (Offscreen.dec_png d); discriminate.
Qed.

(** X20.  The Pixiv path from end to end.  For an element with a recorded
    Pixiv source and of sufficient size, when the background script gets the
    source with an OK status and a body that is not empty and reads it as a
    data URL, and [extractImageData] goes on after its message:
    it returns what the offscreen document has re-encoded, having tried
    nothing else, if [setupOffscreenDocument] returns, the data reach the
    offscreen document, the image loads there before the timer runs out and
    the canvas gives a data URL.  In every other case it falls back to
    drawing the element itself: when the offscreen document answers with a
    failure, and also when [setupOffscreenDocument] throws or the data do
    not reach the document, where the handler never answers and the message
    of [extractImageData] can only fail. *)
Theorem X20_pixiv_path_end_to_end
  (img : Img) (o referer : string) (env : AcquireEnv) (w : World)
  (setup : Setup.Result) (delivered : bool)
  (status : N) (bytes dataUrl : string) :
  originalPixivSrc img = Some o ->
  includes o "pximg.net" = true ->
  200 < shown_width img -> 200 < shown_height img ->
  fst (fetch (Background.image_request o) w)
  = Background.FetchResponse true status (Background.BodyBytes bytes) ->
  truthy bytes = true ->
  readAsDataURL bytes = Some dataUrl ->
  received
    (PixivPath.offscreen_reply fetch readAsDataURL setup delivered
       timer_first cw ch decode o referer w)
    (Content.offscreen_reply env) ->
  (PixivPath.offscreen_reply fetch readAsDataURL setup delivered
     timer_first cw ch decode o referer w = Background.NoReply
   <-> setup <> Setup.Returned \/ delivered = false)
  /\ extractImageData false img env
     = match setup, delivered, decoded timer_first (decode dataUrl) with
       | Setup.Returned, true, Some png => ([ViaOffscreen], Some png)
       | _, _, _ => ([ViaOffscreen; ViaDirectDraw], draw env)
       end.
Proof.
  intros Ho Hhost Hw Hh Hfetch Hbytes Hread Henv.
  rewrite (extractImageData_pixiv img o env Ho Hhost Hw Hh).
  assert (E : PixivPath.offscreen_reply fetch readAsDataURL setup delivered
                timer_first cw ch decode o referer w
              = fst (offscreen_relay setup delivered timer_first cw ch decode
                       dataUrl
                       (snd (fetch (Background.image_request o) w)))).
  { unfold PixivPath.offscreen_reply, Background.handle,
      Background.fetch_image_offscreen, Background.attempt,
      Background.do_fetch, mbind, mret, Background.M_bind, Background.M_ret.
    simpl. destruct (fetch (Background.image_request o) w) as [out w1].
    simpl in Hfetch. subst out. simpl.
    unfold Background.respond, Background.do_relay.
    assert (Hsize : (Background.blob_size bytes =? 0) = false).
    { destruct bytes; [discriminate|]. reflexivity. }
    rewrite Hsize, Hread. cbn [Background.world Background.sent].
    destruct (offscreen_relay setup delivered timer_first cw ch decode
                dataUrl w1); reflexivity. }
  rewrite E in *. clear E. unfold offscreen_relay in *.
  destruct setup as [|msg].
  - destruct delivered.
    + destruct (usable_handleImageData (decode dataUrl))
        as (r & Hr & Hno & Hu).
      rewrite Hr in *. cbn [fst] in *. split.
      * split; [intros H; contradiction|].
        intros [H|H]; [contradiction|discriminate].
      * assert (G : Content.offscreen_reply env = Some r)
          by (destruct r; [exact Henv|exact Henv|contradiction]).
        rewrite G, Hu. reflexivity.
    + cbn [fst received] in *. rewrite Henv. split; [|reflexivity].
      split; [intros _; right; reflexivity|reflexivity].
  - cbn [fst received] in *. rewrite Henv. split; [|reflexivity].
    split; [intros _; left; discriminate|reflexivity].
Qed.

(** X21.  The fallback of an ordinary image, from end to end.  When the
    element cannot be drawn (the canvas is tainted), the data is what the
    background script has fetched, decoded and drawn again; a fetch that
    throws, a status that is not OK, a body or a blob that cannot be read
    and an empty data URL all make [extractImageData] return [null], with
    both strategies tried. *)
Theorem X21_background_fetch_end_to_end
  (img : Img) (referer : string) (env : AcquireEnv) (w : World) :
  let src := acquire_source img in
  truthy src = true ->
  src <> "about:blank" ->
  includes src "pximg.net" = false ->
  200 <= shown_width img -> 200 <= shown_height img ->
  draw env = None ->
  background_reply env
  = Some (fst (Background.handle
                 (Background.fetch_image fetch readAsDataURL
                    {| Background.msg_url := src;
                       Background.msg_referer := referer |}) w)) ->
  extractImageData false img env
  = ([ViaDirectDraw; ViaBackgroundFetch],
     match fst (fetch (Background.image_request src) w) with
     | Background.FetchResponse true _ (Background.BodyBytes bytes) =>
         match readAsDataURL bytes with
         | Some dataUrl =>
             if truthy dataUrl then
               match redraw env with
               | Some result => if truthy result then Some result else None
               | None => None
               end
             else None
         | None => None
         end
     | _ => None
     end).
Proof.
  intros src Hsrc Hblank Hhost Hw Hh Hdraw Henv.
  unfold extractImageData. fold src.
  apply String.eqb_neq in Hblank. rewrite Hsrc, Hblank, Hhost, Hdraw, Henv.
  apply N.ltb_ge in Hw, Hh. rewrite Hw, Hh. simpl. f_equal.
  unfold Background.handle, Background.fetch_image, Background.do_fetch,
    mbind, mret, Background.M_bind, Background.M_ret. simpl.
  destruct (fetch (Background.image_request src) w) as [out w1]. simpl.
  destruct out as [m|[] st [bytes|m]]; try reflexivity. simpl.
  destruct (readAsDataURL bytes) as [dataUrl|]; [|reflexivity]. simpl.
  destruct (truthy dataUrl); reflexivity.
Qed.

End PixivPathFacts.

Section PathWitnesses.
Import JsString Dom Content PixivPath.

Lemma X20_witness :
  extractImageData false Samples.admitted_pixiv Samples.relayed
  = ([ViaOffscreen], Some "data:image/png;base64,AAAA").
Proof.
  apply (X20_pixiv_path_end_to_end Samples.online Examples.data_url true
           300 150 Samples.decodes Samples.admitted_pixiv
           Samples.full_size_url Examples.pixiv_url Samples.relayed tt
           Setup.Returned true
           200 "JFIF" "data:image/jpeg;base64,JFIF");
    reflexivity.
Defined.

Lemma X21_witness :
  extractImageData false Examples.page_image Samples.refused
  = ([ViaDirectDraw; ViaBackgroundFetch], None).
Proof.
  apply (X21_background_fetch_end_to_end Samples.forbidden Examples.data_url
           Examples.page_image Examples.page_url Samples.refused tt);
    try reflexivity; try discriminate.
Defined.

End PathWitnesses.

(** ** One image, from discovery to overlay *)

Section HappyPath.
Import JsString Dom Content Trace Ledger.

Lemma resume_extracted (s : State) (e : nat) (img : Img) (env : AcquireEnv)
  (data : string) :
  drains s = [AwaitExtract e false img] -> isPageChanging s = false ->
  snd (extractImageData false img env) = Some data -> truthy data = true ->
  exists s',
    resume 0 (Acquired env) s = Some s'
    /\ drains s' = [AwaitOcr e data] /\ same_books s s' /\ dom s' = dom s
    /\ trace s' = EvOcr e :: EvAcquired e :: trace s.
Proof.
  intros Hd Hc Hx Ht. unfold resume. rewrite Hd. simpl lookup. cbv iota beta.
  rewrite Hx. unfold after_extract. simpl isPageChanging. rewrite Hc, Ht.
  simpl. eexists. split; [reflexivity|]. repeat split.
Qed.

Lemma resume_recognised (s : State) (e : nat) (data : string)
  (b : TextBlock) (bs : list TextBlock) :
  drains s = [AwaitOcr e data] -> isPageChanging s = false ->
  exists s',
    resume 0 (OcrReplied (OcrBlocks (b :: bs))) s = Some s'
    /\ drains s' = [AwaitOverlay e] /\ same_books s s' /\ dom s' = dom s
    /\ trace s' = EvOverlay e :: EvOcrDone e :: trace s.
Proof.
  intros Hd Hc. unfold resume. rewrite Hd. simpl lookup. cbv iota beta.
  unfold after_ocr. simpl isPageChanging. rewrite Hc.
  simpl. eexists. split; [reflexivity|]. repeat split.
Qed.

Lemma resume_overlaid (s : State) (e : nat) (d : Overlay.Decode) :
  drains s = [AwaitOverlay e] ->
  exists s',
    resume 0 (OverlayDone d) s = Some s'
    /\ drains s' = [AwaitItem e false] /\ same_books s s'
    /\ element s' e
       = set_ocr_processing false
           (Overlay.replaceTextInImage false d (element s e))
    /\ trace s' = EvReturn e :: EvOverlayDone e :: trace s.
Proof.
  intros Hd. unfold resume. rewrite Hd. simpl lookup. cbv iota beta.
  eexists. split; [reflexivity|]. unfold after_overlay.
  split; [reflexivity|]. split; [repeat split|]. split; [|reflexivity].
  unfold item_returns, unmark, suspend, log.
  change (element (update_img e (set_ocr_processing false)
                     (update_img e (Overlay.replaceTextInImage false d)
                        (set_drains (delete 0%nat [AwaitOverlay e]) s))) e
          = set_ocr_processing false
              (Overlay.replaceTextInImage false d (element s e))).
  rewrite !element_update_img. destruct (decide (e = e)); [|contradiction].
  reflexivity.
Qed.

Lemma resume_settled (s : State) (e : nat) :
  drains s = [AwaitItem e false] -> isPageChanging s = false ->
  processingQueue s = [] ->
  exists s',
    resume 0 Settled s = Some s'
    /\ drains s' = [] /\ isProcessing s' = false
    /\ processingQueue s' = []
    /\ observedImages s' = observedImages s
    /\ processedImages s' = processedImages s
    /\ failedImages s' = failedImages s
    /\ dom s' = dom s /\ trace s' = trace s.
Proof.
  intros Hd Hc Hq. unfold resume. rewrite Hd. simpl lookup. cbv iota beta.
  unfold after_item. simpl isPageChanging. rewrite Hc.
  unfold next_item. simpl processingQueue. rewrite Hq.
  eexists. split; [reflexivity|]. repeat split. simpl. exact Hq.
Qed.

Lemma processImage_begins (e : nat) (s : State) :
  isPageChanging s = false -> e ∉ processedImages s ->
  let s' := processImage e s in
  drains s'
  = drains s ++ [AwaitExtract e false (set_ocr_processing true (element s e))]
  /\ isPageChanging s' = false /\ isProcessing s' = isProcessing s
  /\ processingQueue s' = processingQueue s
  /\ observedImages s' = observedImages s
  /\ processedImages s' = {[e]} ∪ processedImages s
  /\ failedImages s' = failedImages s
  /\ element s' e = set_ocr_processing true (element s e)
  /\ trace s' = EvAcquire e :: trace s.
Proof.
  intros Hc Hnp s'. subst s'. unfold processImage.
  rewrite Hc, (bool_decide_eq_false_2 _ Hnp).
  assert (E : element
                (update_img e (set_ocr_processing true)
                   (set_processedImages ({[e]} ∪ processedImages s) s)) e
              = set_ocr_processing true (element s e)).
  { rewrite element_update_img. destruct (decide (e = e)); [|contradiction].
    reflexivity. }
  split; [unfold suspend; simpl; rewrite E, Hc; reflexivity|].
  split; [exact Hc|]. split; [reflexivity|]. split; [reflexivity|].
  split; [reflexivity|]. split; [reflexivity|]. split; [reflexivity|].
  split; [exact E|reflexivity].
Qed.

Lemma next_item_shifts (e : nat) (rest : list nat) (s : State) :
  processingQueue s = e :: rest -> isPageChanging s = false ->
  next_item s = processImage e (log (EvShift e) (set_processingQueue rest s)).
Proof. intros Hq Hc. unfold next_item. rewrite Hq, Hc. reflexivity. Qed.

Lemma processQueue_starts (s : State) :
  isProcessing s = false -> processingQueue s <> [] ->
  processQueue s = next_item (set_isProcessing true s).
Proof.
  intros Hb Hq. unfold processQueue.
  rewrite Hb, (bool_decide_eq_false_2 _ Hq). reflexivity.
Qed.

Lemma handleNewImage_loaded (e : nat) (s : State) :
  e ∉ observedImages s -> e ∉ processedImages s ->
  complete (element s e) = true ->
  200 < naturalWidth (element s e) -> 200 < naturalHeight (element s e) ->
  handleNewImage false e s
  = processQueue
      (enqueue e
         (set_observedImages ({[e]} ∪ observedImages s) (log (EvCall e) s))).
Proof.
  intros Hout Hnp Hcomp Hw Hh. apply N.ltb_lt in Hw, Hh.
  unfold handleNewImage.
  rewrite (bool_decide_eq_false_2 _ Hout), (bool_decide_eq_false_2 _ Hnp).
  unfold inspect, accept_generic.
  change (element (log (EvCall e) s) e) with (element s e).
  rewrite Hcomp, Hw, Hh. reflexivity.
Qed.

Lemma handleNewImage_idle (s : State) (e : nat) :
  e ∉ observedImages s -> e ∉ processedImages s ->
  complete (element s e) = true ->
  200 < naturalWidth (element s e) -> 200 < naturalHeight (element s e) ->
  isPageChanging s = false -> isProcessing s = false ->
  processingQueue s = [] -> drains s = [] ->
  exists s',
    handleNewImage false e s = s'
    /\ drains s'
       = [AwaitExtract e false (set_ocr_processing true (element s e))]
    /\ isPageChanging s' = false /\ isProcessing s' = true
    /\ processingQueue s' = []
    /\ observedImages s' = {[e]} ∪ observedImages s
    /\ processedImages s' = {[e]} ∪ processedImages s
    /\ failedImages s' = failedImages s
    /\ element s' e = set_ocr_processing true (element s e)
    /\ trace s'
       = EvAcquire e :: EvShift e :: EvPush e :: EvCall e :: trace s.
Proof.
  intros Hout Hnp Hcomp Hw Hh Hc Hbusy Hq Hd.
  rewrite (handleNewImage_loaded e s Hout Hnp Hcomp Hw Hh).
  rewrite processQueue_starts;
    [|exact Hbusy|simpl; rewrite Hq; discriminate].
  rewrite (next_item_shifts e []); [|simpl; rewrite Hq; reflexivity|exact Hc].
  remember (log (EvShift e)
              (set_processingQueue []
                 (set_isProcessing true
                    (enqueue e
                       (set_observedImages ({[e]} ∪ observedImages s)
                          (log (EvCall e) s)))))) as sb eqn:Eb.
  assert (B : drains sb = [] /\ isPageChanging sb = false
              /\ isProcessing sb = true /\ processingQueue sb = []
              /\ observedImages sb = {[e]} ∪ observedImages s
              /\ processedImages sb = processedImages s
              /\ failedImages sb = failedImages s
              /\ element sb e = element s e
              /\ trace sb = EvShift e :: EvPush e :: EvCall e :: trace s).
  { subst sb. split; [exact Hd|]. split; [exact Hc|]. repeat apply conj;
      reflexivity. }
  clear Eb. destruct B as (B1 & B2 & B3 & B4 & B5 & B6 & B7 & B8 & B9).
  assert (Hnp' : e ∉ processedImages sb) by (rewrite B6; exact Hnp).
  destruct (processImage_begins e sb B2 Hnp')
    as (P1 & P2 & P3 & P4 & P5 & P6 & P7 & P8 & P9).
  exists (processImage e sb). split; [reflexivity|].
  rewrite P1, P3, P4, P5, P6, P7, P8, P9, B1, B3, B4, B5, B6, B7, B8, B9.
  repeat apply conj; try reflexivity. exact P2.
Qed.

Lemma overlay_unmarked (d : Overlay.Decode) (img : Img) :
  set_ocr_processing false
    (Overlay.replaceTextInImage false d (set_ocr_processing true img))
  = set_ocr_processing false (Overlay.replaceTextInImage false d img).
Proof.
  destruct d as [png|]; [|reflexivity]. simpl.
  unfold Overlay.remember_original. simpl.
  destruct (negb _); reflexivity.
Qed.

(** X22.  One image, from its discovery to its overlay.  On an ordinary
    page that is not changing and with no item in progress, when the watcher
    reports a loaded image of sufficient size, with a source, that has not
    been observed yet, and the element can be drawn, the server finds text
    and the overlay is drawn: after the five turns the image is observed
    and processed and not added to the failed ones, it shows the overlay,
    the class [ocr-processing] is removed again, the queue is empty and the
    loop has ended; each step of the item has been taken once, in
    order. *)
Theorem X22_one_image_from_discovery_to_overlay
  (s : State) (e : nat) (env : AcquireEnv) (data png : string)
  (b : TextBlock) (bs : list TextBlock) :
  reachable false s ->
  observing s = true -> isPageChanging s = false -> drains s = [] ->
  e ∉ observedImages s ->
  complete (element s e) = true ->
  200 < naturalWidth (element s e) -> 200 < naturalHeight (element s e) ->
  truthy (acquire_source (element s e)) = true ->
  acquire_source (element s e) <> "about:blank" ->
  includes (acquire_source (element s e)) "pximg.net" = false ->
  draw env = Some data -> truthy data = true ->
  exists s',
    run false s
      [LAdded e; LComplete 0 (Acquired env);
       LComplete 0 (OcrReplied (OcrBlocks (b :: bs)));
       LComplete 0 (OverlayDone (Overlay.Loaded png));
       LComplete 0 Settled] = Some s'
    /\ observedImages s' = {[e]} ∪ observedImages s
    /\ processedImages s' = {[e]} ∪ processedImages s
    /\ failedImages s' = failedImages s
    /\ element s' e
       = set_ocr_processing false
           (Overlay.replaceTextInImage false (Overlay.Loaded png)
              (element s e))
    /\ processingQueue s' = [] /\ drains s' = [] /\ isProcessing s' = false
    /\ trace s'
       = [EvReturn e; EvOverlayDone e; EvOverlay e; EvOcrDone e; EvOcr e;
          EvAcquired e; EvAcquire e; EvShift e; EvPush e; EvCall e]
           ++ trace s.
Proof.
  intros R Hobs Hc Hd Hout Hcomp Hw Hh Hsrc Hblank Hhost Hdraw Hdata.
  pose proof (reachable_serial false s R) as [_ Hbusy _ _].
  rewrite Hd in Hbusy. simpl in Hbusy.
  pose proof (reachable_counted false s R) as [_ Hpo].
  assert (Hnp : e ∉ processedImages s) by (intros H; apply Hout, Hpo, H).
  pose proof (reachable_booted false s R) as B.
  assert (Hrun : running s = true).
  { destruct (running s) eqn:E; [reflexivity|].
    destruct (booted_scan _ B E) as (_ & _ & _ & H & _). congruence. }
  pose proof (reachable_tended false s R Hrun Hc Hbusy) as Hq.
  destruct (handleNewImage_idle s e Hout Hnp Hcomp Hw Hh Hc Hbusy Hq Hd)
    as (s1 & E1 & D1 & C1 & P1 & Q1 & O1 & R1 & F1 & I1 & T1).
  set (img1 := set_ocr_processing true (element s e)) in *.
  assert (Hx : snd (extractImageData false img1 env) = Some data).
  { assert (P : same_picture (element s e) img1) by (repeat split).
    rewrite (extractImageData_picture false _ _ env P).
    unfold extractImageData. apply String.eqb_neq in Hblank.
    rewrite Hsrc, Hblank, Hhost, Hdraw. simpl.
    assert (Hw' : (shown_width (element s e) <? 200) = false).
    { unfold shown_width, or_dim.
      destruct (naturalWidth (element s e) =? 0) eqn:E;
        [apply N.eqb_eq in E; lia|]. apply N.ltb_ge. lia. }
    assert (Hh' : (shown_height (element s e) <? 200) = false).
    { unfold shown_height, or_dim.
      destruct (naturalHeight (element s e) =? 0) eqn:E;
        [apply N.eqb_eq in E; lia|]. apply N.ltb_ge. lia. }
    rewrite Hw', Hh'. reflexivity. }
  destruct (resume_extracted s1 e img1 env data D1 C1 Hx Hdata)
    as (s2 & E2 & D2 & (C2 & P2 & Q2 & O2 & R2 & F2) & M2 & T2).
  rewrite C1 in C2.
  destruct (resume_recognised s2 e data b bs D2 C2)
    as (s3 & E3 & D3 & (C3 & P3 & Q3 & O3 & R3 & F3) & M3 & T3).
  destruct (resume_overlaid s3 e (Overlay.Loaded png) D3)
    as (s4 & E4 & D4 & (C4 & P4 & Q4 & O4 & R4 & F4) & I4 & T4).
  assert (C4' : isPageChanging s4 = false) by congruence.
  assert (Q4' : processingQueue s4 = []) by congruence.
  destruct (resume_settled s4 e D4 C4' Q4')
    as (s5 & E5 & D5 & P5 & Q5 & O5 & R5 & F5 & M5 & T5).
  exists s5. split.
  { simpl run. rewrite Hobs, E1, E2, E3, E4, E5. reflexivity. }
  split; [congruence|]. split; [congruence|]. split; [congruence|].
  split.
  { assert (I5 : element s5 e = element s4 e)
      by (unfold element; rewrite M5; reflexivity).
    assert (I3 : element s3 e = img1).
    { rewrite <- I1. unfold element. rewrite M3, M2. reflexivity. }
    rewrite I5, I4, I3. apply overlay_unmarked. }
  split; [exact Q5|]. split; [exact D5|]. split; [exact P5|].
  rewrite T5, T4, T3, T2, T1. reflexivity.
Qed.

Lemma third_added_reachable : reachable false Samples.third_added.
Proof.
  exists Examples.two_pages, Examples.page_url, [1; 2]%nat,
    (Examples.two_items ++ [LPage 3 Examples.page_image]).
  vm_compute. reflexivity.
Qed.

Lemma X22_witness :
  exists s',
    run false Samples.third_added
      [LAdded 3; LComplete 0 (Acquired Examples.draws);
       LComplete 0 (OcrReplied (OcrBlocks Examples.one_block));
       LComplete 0 (OverlayDone (Overlay.Loaded "data:image/png;base64,TEXT"));
       LComplete 0 Settled] = Some s'
    /\ failedImages s' = failedImages Samples.third_added.
Proof.
  destruct (X22_one_image_from_discovery_to_overlay
              Samples.third_added 3 Examples.draws
              "data:image/png;base64,PAGE" "data:image/png;base64,TEXT"
              {| tb_text := "hello"; tb_bbox := (10, 10, 90, 40);
                 tb_type := "text"; tb_style := "normal" |} []
              third_added_reachable)
    as (s' & H1 & _ & _ & H2 & _).
  - vm_compute. reflexivity.
  - vm_compute. reflexivity.
  - vm_compute. reflexivity.
  - apply (bool_decide_eq_false_1 (_ ∈ _)). vm_compute. reflexivity.
  - vm_compute. reflexivity.
  - vm_compute. reflexivity.
  - vm_compute. reflexivity.
  - vm_compute. reflexivity.
  - vm_compute. discriminate.
  - vm_compute. reflexivity.
  - reflexivity.
  - reflexivity.
  - exists s'. split; [exact H1|exact H2].
Defined.

End HappyPath.
